(** * Exact ATSP solvers of TSPAlgorithms.cpp: brute force, Held-Karp, branch and bound

    A shallow embedding of [src/algorithms/TSPAlgorithms.cpp], the
    properties its specification states about it, and further properties
    of the code.

    Conventions of the embedding.
    - A C++ [int] cost is a [Z]; arithmetic on costs wraps around to the
      32-bit two's complement range ([to_int]).
    - An [unsigned int] subset mask is an [N] below [2^32]; a shift by 32 or
      more positions has no defined result.
    - Vertex indices and loop counters that the code keeps between [0] and
      the vertex count are [nat].
    - A [std::vector] is a [list]; reading or writing outside its bounds has
      no defined result.
    - A computation returns an [outcome]: [Done v], [Undefined] (the C++
      program has undefined behaviour) or [Timeout] (the fuel given to a loop
      or to a recursion ran out). *)

From Stdlib Require Import ZArith NArith List Lia Permutation Bool Sorted.
From stdpp Require Import base list.
Import ListNotations.

Local Open Scope Z_scope.

(** ** Outcomes *)

Inductive outcome (A : Type) : Type :=
| Done (a : A)
| Undefined
| Timeout.
Arguments Done {A} a.
Arguments Undefined {A}.
Arguments Timeout {A}.

#[global] Instance outcome_ret : MRet outcome := fun A a => Done a.
#[global] Instance outcome_bind : MBind outcome := fun A B f m =>
  match m with
  | Done a => f a
  | Undefined => Undefined
  | Timeout => Timeout
  end.

(** [for (k = lo; k != lo + cnt; ++k) body], threading the loop state. *)
Fixpoint for_range {S : Type} (lo cnt : nat) (body : nat -> S -> outcome S)
  (s : S) : outcome S :=
  match cnt with
  | O => Done s
  | Datatypes.S cnt' => s' ← body lo s; for_range (Datatypes.S lo) cnt' body s'
  end.

(** [for (x : l) body]. *)
Fixpoint for_each {A S : Type} (l : list A) (body : A -> S -> outcome S)
  (s : S) : outcome S :=
  match l with
  | [] => Done s
  | x :: l' => s' ← body x s; for_each l' body s'
  end.

(** ** Machine integers *)

Definition INT_MAX : Z := 2147483647.
Definition INT_MIN : Z := -2147483648.

(** The value an [int] holds after an arithmetic result [z]. *)
Definition to_int (z : Z) : Z := (z + 2147483648) mod 4294967296 - 2147483648.

Definition int_add (a b : Z) : Z := to_int (a + b).
Definition int_sub (a b : Z) : Z := to_int (a - b).

Definition is_int (z : Z) : Prop := INT_MIN <= z <= INT_MAX.

(** [1u << k] *)
Definition shl1u (k : nat) : outcome N :=
  if (k <? 32)%nat then Done (N.shiftl 1 (N.of_nat k)) else Undefined.

(** [~x] on 32 bits *)
Definition not_u (x : N) : N := N.lxor x 4294967295.

(** ** Vectors *)

Definition vget {A : Type} (v : list A) (i : nat) : outcome A :=
  match v !! i with
  | Some x => Done x
  | None => Undefined
  end.

Definition vset {A : Type} (v : list A) (i : nat) (x : A) : outcome (list A) :=
  if (i <? length v)%nat then Done (<[i := x]> v) else Undefined.

(** An [int] used as an index. *)
Definition index_of (z : Z) : outcome nat :=
  if 0 <=? z then Done (Z.to_nat z) else Undefined.

(** [std::swap(v[i], v[j])] *)
Definition vswap {A : Type} (v : list A) (i j : nat) : outcome (list A) :=
  x ← vget v i; y ← vget v j; v' ← vset v i y; vset v' j x.

Abbreviation matrix := (list (list Z)).

Definition mget (m : matrix) (i j : nat) : outcome Z :=
  row ← vget m i; vget row j.

Definition mset (m : matrix) (i j : nat) (x : Z) : outcome matrix :=
  row ← vget m i; row' ← vset row j x; vset m i row'.

(** ** The graph capability

    [IGraph] is declared outside the source file; the solvers use its vertex
    count and its directed edge weight only. *)

Record IGraph : Type := {
  getVertexCount : nat;
  getEdgeParameter : nat -> nat -> Z
}.

(** Index of the fixed start vertex. *)
Definition origin (g : IGraph) : nat := (getVertexCount g - 1)%nat.

(** Sum of the weights of the edges between consecutive vertices of [l]. *)
Fixpoint chain_cost (g : IGraph) (l : list nat) : Z :=
  match l with
  | u :: ((v :: _) as l') => getEdgeParameter g u v + chain_cost g l'
  | _ => 0
  end.

(** Cost of the cycle that leaves the origin, visits [perm] in order and
    returns to the origin. *)
Definition tour_cost (g : IGraph) (perm : list nat) : Z :=
  chain_cost g (origin g :: perm ++ [origin g]).

(** Cost of the cycle through all the vertices of [perm] in order, closed
    from the last vertex to the first. *)
Definition cycle_cost (g : IGraph) (perm : list nat) : Z :=
  match perm with
  | [] => 0
  | v :: _ => chain_cost g (perm ++ [v])
  end.

(** Modelled from the spec: [TSPUtils::calculateTargetFunctionValue] with a
    permutation size, defined outside the source file. The specification
    gives a tour of the non-origin vertices the implicit edges origin to
    first, consecutive pairs and last to origin, and makes its cost the sum
    of these edge weights; the sum is accumulated in an [int]. *)
Definition calculateTargetFunctionValue (g : IGraph) (permutationSize : nat)
  (permutation : list nat) : Z :=
  to_int (tour_cost g (take permutationSize permutation)).

(** Modelled from the spec: [TSPUtils::calculateTargetFunctionValue] on a
    permutation of all the vertices, defined outside the source file: the
    cost of the cycle through the vertices in the order given. *)
Definition calculateTargetFunctionValueAll (g : IGraph) (permutation : list nat) : Z :=
  to_int (cycle_cost g permutation).

(** ** bruteForce *)

Record BFState : Type := {
  permutation : list nat;
  stackSlotIndex : nat;
  stackCounters : list Z;
  bestPathTargetFunctionValue : Z
}.

(** Body of the do-while loop of [bruteForce]. *)
Definition bfBody (g : IGraph) (permutationSize : nat) (st : BFState) : outcome BFState :=
  let i := stackSlotIndex st in
  c ← vget (stackCounters st) i;
  if c <=? Z.of_nat i then
    swapIndex ← (if ((i + 1) mod 2 =? 1)%nat then Done 0%nat else index_of (int_sub c 1));
    perm' ← vswap (permutation st) i swapIndex;
    counters' ← vset (stackCounters st) i (int_add c 1);
    let current := calculateTargetFunctionValue g permutationSize perm' in
    Done {| permutation := perm';
            stackSlotIndex := 1;
            stackCounters := counters';
            bestPathTargetFunctionValue :=
              if current <? bestPathTargetFunctionValue st then current
              else bestPathTargetFunctionValue st |}
  else
    counters' ← vset (stackCounters st) i 1;
    Done {| permutation := permutation st;
            stackSlotIndex := i + 1;
            stackCounters := counters';
            bestPathTargetFunctionValue := bestPathTargetFunctionValue st |}.

(** The do-while loop: the body runs, then the condition is tested. *)
Fixpoint bfLoop (fuel : nat) (g : IGraph) (permutationSize : nat) (st : BFState)
  : outcome Z :=
  match fuel with
  | O => Timeout
  | S fuel' =>
    st' ← bfBody g permutationSize st;
    if (stackSlotIndex st' + 1 <=? permutationSize)%nat
    then bfLoop fuel' g permutationSize st'
    else Done (bestPathTargetFunctionValue st')
  end.

(** With no vertex the permutation size would be -1 and the vectors cannot
    be built. *)
Definition bruteForce (fuel : nat) (g : IGraph) : outcome Z :=
  match getVertexCount g with
  | O => Undefined
  | S permutationSize =>
    let permutation := seq 0 permutationSize in
    bfLoop fuel g permutationSize
      {| permutation := permutation;
         stackSlotIndex := 1;
         stackCounters := repeat 1 permutationSize;
         bestPathTargetFunctionValue :=
           calculateTargetFunctionValue g permutationSize permutation |}
  end.

(** ** dynamicProgrammingHeldKarp *)

(** One execution of the assignment that saves a computed cost in the cache
    (the last statement of the [if] of [dpGetPartialPathCost]): the cell, the
    value the cell held just before, and the value stored. *)
Record CellWrite : Type := {
  write_end : nat;
  write_set : N;
  write_old : Z;
  write_new : Z
}.

(** The cache, and the history of the saves made into it (latest first).
    The history is an observation of the run; the program never reads it. *)
Record DPState : Type := {
  partialPathCostTable : matrix;
  writes : list CellWrite
}.

Fixpoint dpGetPartialPathCost (fuel : nat) (g : IGraph) (partialPathSet : N)
  (endVertexIdx : nat) (st : DPState) : outcome (Z * DPState) :=
  match fuel with
  | O => Timeout
  | S fuel' =>
    let nVertex := getVertexCount g in
    cell ← mget (partialPathCostTable st) endVertexIdx (N.to_nat partialPathSet);
    if cell =? -1 then
      endBit ← shl1u endVertexIdx;
      let partialPathSubset := N.land partialPathSet (not_u endBit) in
      '(bestPartialPathCost, st2) ←
        for_range 0 (nVertex - 1) (fun vertexIdx '(bestPartialPathCost, st1) =>
             bit ← shl1u vertexIdx;
             if (N.land partialPathSubset bit =? 0)%N then Done (bestPartialPathCost, st1)
             else
               sub ← dpGetPartialPathCost fuel' g partialPathSubset vertexIdx st1;
               let partialPathCost :=
                 int_add sub.1 (getEdgeParameter g vertexIdx endVertexIdx) in
               Done (if partialPathCost <? bestPartialPathCost
                     then partialPathCost else bestPartialPathCost, sub.2))
           (INT_MAX, st);
      old ← mget (partialPathCostTable st2) endVertexIdx (N.to_nat partialPathSet);
      table' ← mset (partialPathCostTable st2) endVertexIdx (N.to_nat partialPathSet)
                 bestPartialPathCost;
      result ← mget table' endVertexIdx (N.to_nat partialPathSet);
      Done (result,
            {| partialPathCostTable := table';
               writes := {| write_end := endVertexIdx; write_set := partialPathSet;
                            write_old := old; write_new := bestPartialPathCost |}
                         :: writes st2 |})
    else
      Done (cell, st)
  end.

(** The cache after the initialisation loop of [dynamicProgrammingHeldKarp]. *)
Definition dpInitTable (g : IGraph) : outcome matrix :=
  let nVertex := getVertexCount g in
  match nVertex with
  | O => Undefined
  | S _ =>
    pathSetCount ← shl1u (nVertex - 1);
    for_range 0 (nVertex - 1) (fun vertexIdx table =>
        table1 ← for_range 0 (N.to_nat pathSetCount)
                    (fun pathSet t => mset t vertexIdx pathSet (-1)) table;
        bit ← shl1u vertexIdx;
        mset table1 vertexIdx (N.to_nat bit)
             (getEdgeParameter g (nVertex - 1) vertexIdx))
      (repeat (repeat 0 (N.to_nat pathSetCount)) nVertex)
  end.

(** [dynamicProgrammingHeldKarp], returning the final cache state next to the
    result. *)
Definition heldKarpRun (fuel : nat) (g : IGraph) : outcome (Z * DPState) :=
  let nVertex := getVertexCount g in
  table ← dpInitTable g;
  top ← shl1u (nVertex - 1);
  let fullPathSet := (top - 1)%N in
  for_range 0 (nVertex - 1) (fun endVertexIdx '(bestPathCost, st) =>
      sub ← dpGetPartialPathCost fuel g fullPathSet endVertexIdx st;
      let pathCost := int_add sub.1 (getEdgeParameter g endVertexIdx (nVertex - 1)) in
      Done (if pathCost <? bestPathCost then pathCost else bestPathCost, sub.2))
    (INT_MAX, {| partialPathCostTable := table; writes := [] |}).

Definition dynamicProgrammingHeldKarp (fuel : nat) (g : IGraph) : outcome Z :=
  r ← heldKarpRun fuel g; Done r.1.

(** ** branchAndBound *)

Record EdgeCities : Type := { edge_i : nat; edge_j : nat }.
Record Penalties : Type := { penalty_row : Z; penalty_column : Z }.

Record BBNodeData : Type := {
  distances : matrix;
  lowerBound : Z;
  edgesOnPath : Z;
  highestZeroPenaltiesIndexes : EdgeCities;
  highestZeroPenalties : Penalties
}.

(** Modelled from the spec: the constructor [BBNodeData(instanceSize, 0)],
    declared outside the source file. The specification gives a node a full
    n by n working matrix, a lower bound and a count of the edges fixed so
    far; a fresh node has bound 0 and no fixed edge. *)
Definition newBBNodeData (instanceSize : nat) (bound : Z) : BBNodeData :=
  {| distances := repeat (repeat 0 instanceSize) instanceSize;
     lowerBound := bound;
     edgesOnPath := 0;
     highestZeroPenaltiesIndexes := {| edge_i := 0; edge_j := 0 |};
     highestZeroPenalties := {| penalty_row := 0; penalty_column := 0 |} |}.

(** [*std::min_element(v.begin(), v.end())] *)
Definition min_element (v : list Z) : outcome Z :=
  match v with
  | [] => Undefined
  | x :: v' => Done (fold_left Z.min v' x)
  end.

Abbreviation ZeroList := (list (EdgeCities * Penalties)).

(** Working state of the two reduction loops. *)
Record Reduction : Type := {
  red_distances : matrix;
  red_lowerBound : Z;
  matrixZeroes : ZeroList
}.

(** Body of the inner loop of both reduction loops: cell (i, j) loses
    [minimum] unless it is infinite, and is recorded when it becomes zero. *)
Definition bbReduceCell (minimum : Z) (i j : nat) (r : Reduction) : outcome Reduction :=
  x ← mget (red_distances r) i j;
  if x =? INT_MAX then Done r
  else
    d ← mset (red_distances r) i j (int_sub x minimum);
    y ← mget d i j;
    Done {| red_distances := d;
            red_lowerBound := red_lowerBound r;
            matrixZeroes :=
              if y =? 0
              then matrixZeroes r ++
                   [({| edge_i := i; edge_j := j |},
                     {| penalty_row := 0; penalty_column := 0 |})]
              else matrixZeroes r |}.

Definition bbAddToBound (minimum : Z) (r : Reduction) : Reduction :=
  {| red_distances := red_distances r;
     red_lowerBound := int_add (red_lowerBound r) minimum;
     matrixZeroes := matrixZeroes r |}.

(** Body of the first loop: reduction of row [i]. *)
Definition bbReduceRow (size : nat) (i : nat) (r : Reduction) : outcome Reduction :=
  row ← vget (red_distances r) i;
  rowMinimum ← min_element row;
  if rowMinimum =? INT_MAX then Done r
  else
    r' ← for_range 0 size (fun j r => bbReduceCell rowMinimum i j r) r;
    Done (bbAddToBound rowMinimum r').

(** The minimum of column [j], as the second loop computes it. *)
Definition bbColumnMinimum (size : nat) (d : matrix) (j : nat) : outcome Z :=
  first ← mget d 0 j;
  for_range 1 (size - 1) (fun i columnMinimum =>
      x ← mget d i j;
      Done (if x <? columnMinimum then x else columnMinimum)) first.

(** Body of the second loop: reduction of column [j]. *)
Definition bbReduceColumn (size : nat) (j : nat) (r : Reduction) : outcome Reduction :=
  columnMinimum ← bbColumnMinimum size (red_distances r) j;
  if (columnMinimum =? INT_MAX) || (columnMinimum =? 0) then Done r
  else
    r' ← for_range 0 size (fun i r => bbReduceCell columnMinimum i j r) r;
    Done (bbAddToBound columnMinimum r').

(** Body of the third loop: the penalties of one recorded zero. *)
Definition bbPenalties (size : nat) (d : matrix) (zero : EdgeCities)
  : outcome Penalties :=
  rowMinimum ← for_range 0 size (fun j rowMinimum =>
      x ← mget d (edge_i zero) j;
      Done (if (x <? rowMinimum) && negb (j =? edge_j zero)%nat
            then x else rowMinimum)) INT_MAX;
  columnMinimum ← for_range 0 size (fun i columnMinimum =>
      x ← mget d i (edge_j zero);
      Done (if (x <? columnMinimum) && negb (i =? edge_i zero)%nat
            then x else columnMinimum)) INT_MAX;
  Done {| penalty_row := rowMinimum; penalty_column := columnMinimum |}.

Definition bbAllPenalties (size : nat) (d : matrix) (zeroes : ZeroList)
  : outcome ZeroList :=
  for_each zeroes (fun zero done =>
      p ← bbPenalties size d zero.1;
      Done (done ++ [(zero.1, p)])) [].

(** The comparison given to [std::max_element]. *)
Definition penaltyLess (lhs rhs : EdgeCities * Penalties) : bool :=
  int_add (penalty_row lhs.2) (penalty_column lhs.2)
  <? int_add (penalty_row rhs.2) (penalty_column rhs.2).

(** [*std::max_element(l.begin(), l.end(), less)]: the first greatest
    element; on an empty list the end iterator is dereferenced. *)
Definition max_element {A : Type} (less : A -> A -> bool) (l : list A) : outcome A :=
  match l with
  | [] => Undefined
  | x :: l' => Done (fold_left (fun largest y => if less largest y then y else largest) l' x)
  end.

(** The two reduction loops. *)
Definition bbReduce (nodeData : BBNodeData) : outcome Reduction :=
  let size := length (distances nodeData) in
  r1 ← for_range 0 size (bbReduceRow size)
         {| red_distances := distances nodeData;
            red_lowerBound := lowerBound nodeData;
            matrixZeroes := [] |};
  for_range 0 size (bbReduceColumn size) r1.

Definition bbCalculateLowerBoundAndDesignateHighestZeroPenalty (nodeData : BBNodeData)
  : outcome BBNodeData :=
  let size := length (distances nodeData) in
  r ← bbReduce nodeData;
  zeroes ← bbAllPenalties size (red_distances r) (matrixZeroes r);
  highestPenaltyZeroData ← max_element penaltyLess zeroes;
  Done {| distances := red_distances r;
          lowerBound := red_lowerBound r;
          edgesOnPath := edgesOnPath nodeData;
          highestZeroPenaltiesIndexes := highestPenaltyZeroData.1;
          highestZeroPenalties := highestPenaltyZeroData.2 |}.

Definition bbCreateLeftNodeData (nodeData : BBNodeData) : BBNodeData := nodeData.

Definition bbCreateRightNodeData (nodeData : BBNodeData) : BBNodeData := nodeData.

Definition bbGetCycleCost (nodeData : BBNodeData) : Z := 0.

(** Body of the root construction loop for cell (i, j): the two assignments
    in the order of the source. *)
Definition bbInitCell (g : IGraph) (i j : nat) (d : matrix) : outcome matrix :=
  d1 ← (if (i =? j)%nat then mset d i j INT_MAX else Done d);
  mset d1 i j (getEdgeParameter g i j).

(** The working matrix after the root construction loops. *)
Definition bbRootDistances (g : IGraph) : outcome matrix :=
  let instanceSize := getVertexCount g in
  for_range 0 instanceSize (fun i d =>
      for_range 0 instanceSize (fun j d => bbInitCell g i j d) d)
    (distances (newBBNodeData instanceSize 0)).

(** [initNode] after the root construction loops. *)
Definition bbInitNode (g : IGraph) : outcome BBNodeData :=
  let initNode := newBBNodeData (getVertexCount g) 0 in
  d ← bbRootDistances g;
  Done {| distances := d;
          lowerBound := lowerBound initNode;
          edgesOnPath := edgesOnPath initNode;
          highestZeroPenaltiesIndexes := highestZeroPenaltiesIndexes initNode;
          highestZeroPenalties := highestZeroPenalties initNode |}.

(** The root node as it is pushed on the queue. *)
Definition bbRootNode (g : IGraph) : outcome BBNodeData :=
  initNode ← bbInitNode g;
  bbCalculateLowerBoundAndDesignateHighestZeroPenalty initNode.

(** The comparison of the priority queue: [lhs] comes out after [rhs]. *)
Definition bbNodeComparator (lhs rhs : BBNodeData) : bool :=
  if lowerBound lhs =? lowerBound rhs then edgesOnPath lhs <? edgesOnPath rhs
  else lowerBound lhs >? lowerBound rhs.

(** The priority queue, as the list of its elements in the order they were
    pushed. Its top is a greatest element of the comparison; among several
    the model takes the one pushed first. *)
Fixpoint pq_top_index (best : BBNodeData) (bestIdx idx : nat) (q : list BBNodeData)
  : nat :=
  match q with
  | [] => bestIdx
  | x :: q' =>
    if bbNodeComparator best x then pq_top_index x idx (S idx) q'
    else pq_top_index best bestIdx (S idx) q'
  end.

Definition pq_top (q : list BBNodeData) : outcome BBNodeData :=
  match q with
  | [] => Undefined
  | x :: q' => vget q (pq_top_index x 0 1 q')
  end.

Definition pq_pop (q : list BBNodeData) : outcome (list BBNodeData) :=
  match q with
  | [] => Undefined
  | x :: q' => Done (delete (pq_top_index x 0 1 q') q)
  end.

Definition pq_push (q : list BBNodeData) (x : BBNodeData) : list BBNodeData := q ++ [x].

Record BBState : Type := {
  leafs : list BBNodeData;
  upperBound : Z
}.

(** What one pass of the search loop does to the incumbent: [Some c] when
    the assignment [upperBound = bbGetCycleCost(rightNode)] runs. *)
Definition bbIncumbentUpdate (instanceSize : nat) (rightNode : BBNodeData) : option Z :=
  if edgesOnPath rightNode =? Z.of_nat instanceSize - 2
  then Some (bbGetCycleCost rightNode) else None.

(** One test of the loop condition followed, when it holds, by the loop
    body; [None] when the condition is false. *)
Definition bbIteration (instanceSize : nat) (st : BBState) : outcome (option BBState) :=
  top ← pq_top (leafs st);
  if lowerBound top <? upperBound st then
    let leftNode := top in
    let rightNode := top in
    leafs1 ← pq_pop (leafs st);
    let leftNode := bbCreateLeftNodeData leftNode in
    let leafs2 :=
      if lowerBound leftNode <? upperBound st then pq_push leafs1 leftNode else leafs1 in
    let rightNode := bbCreateRightNodeData rightNode in
    let leafs3 :=
      if lowerBound rightNode <? upperBound st then pq_push leafs2 rightNode else leafs2 in
    Done (Some {| leafs := leafs3;
                  upperBound :=
                    match bbIncumbentUpdate instanceSize rightNode with
                    | Some c => c
                    | None => upperBound st
                    end |})
  else Done None.

Fixpoint bbLoop (fuel : nat) (instanceSize : nat) (st : BBState) : outcome Z :=
  match fuel with
  | O => Timeout
  | S fuel' =>
    next ← bbIteration instanceSize st;
    match next with
    | Some st' => bbLoop fuel' instanceSize st'
    | None => Done (upperBound st)
    end
  end.

(** The state in which the search loop is entered. *)
Definition bbInitialState (g : IGraph) : outcome BBState :=
  let instanceSize := getVertexCount g in
  let naturalPermutation := seq 0 instanceSize in
  let upperBound := calculateTargetFunctionValueAll g naturalPermutation in
  initNode ← bbRootNode g;
  Done {| leafs := pq_push [] initNode; upperBound := upperBound |}.

Definition branchAndBound (fuel : nat) (g : IGraph) : outcome Z :=
  st ← bbInitialState g;
  bbLoop fuel (getVertexCount g) st.

(** The incumbent at each test of the loop condition, in order. *)
Fixpoint bbIncumbents (fuel : nat) (instanceSize : nat) (st : BBState) : list Z :=
  match fuel with
  | O => []
  | S fuel' =>
    upperBound st ::
    match bbIteration instanceSize st with
    | Done (Some st') => bbIncumbents fuel' instanceSize st'
    | _ => []
    end
  end.

(** ** Example instances *)

Definition matrix_graph (m : matrix) : IGraph :=
  {| getVertexCount := length m;
     getEdgeParameter := fun i j => nth j (nth i m []) 0 |}.

(** The instance of the specification's concrete scenario, with a zero
    diagonal. *)
Definition scenario : IGraph :=
  matrix_graph [[0; 10; 15; 20]; [10; 0; 35; 25]; [15; 35; 0; 30]; [20; 25; 30; 0]].

(** A two-vertex instance with weight 1 in both directions and a zero
    diagonal. *)
Definition two_cities : IGraph := matrix_graph [[0; 1]; [1; 0]].

(** The same instance with -1 on the diagonal, the way instance files often
    mark the absent self-loops. *)
Definition two_cities_marked : IGraph := matrix_graph [[-1; 1]; [1; -1]].

(** ** Notions of the specification *)

(** A well-formed instance: at least two vertices, and a non-negative
    weight on every edge between distinct vertices. *)
Definition well_formed (g : IGraph) : Prop :=
  (2 <= getVertexCount g)%nat /\
  forall i j : nat, (i < getVertexCount g)%nat -> (j < getVertexCount g)%nat ->
    i <> j -> 0 <= getEdgeParameter g i j.

(** [W] bounds the weights of the edges between distinct vertices, and
    [n * W] fits in an [int]. *)
Definition bounded_by (g : IGraph) (W : Z) : Prop :=
  (forall i j : nat, (i < getVertexCount g)%nat -> (j < getVertexCount g)%nat ->
     i <> j -> getEdgeParameter g i j <= W) /\
  Z.of_nat (getVertexCount g) * W <= INT_MAX.

(** The arithmetic precondition of the specification: [n * max(weight)]
    fits in an [int]. *)
Definition cost_fits (g : IGraph) : Prop := exists W : Z, bounded_by g W.

(** A diagonal entry is an [int] not below [- W]: a marker such as -1, 0 or
    a large value, the infinity sentinel included. *)
Definition diagonal_fits (g : IGraph) (W : Z) : Prop :=
  forall i : nat, (i < getVertexCount g)%nat ->
    - W <= getEdgeParameter g i i <= INT_MAX.

(** The arithmetic precondition extended to every entry that the root
    construction of [branchAndBound] reads. *)
Definition matrix_fits (g : IGraph) : Prop :=
  exists W : Z, bounded_by g W /\ diagonal_fits g W.

(** A tour: an ordering of the non-origin vertices. *)
Definition is_tour (g : IGraph) (perm : list nat) : Prop :=
  Permutation perm (seq 0 (getVertexCount g - 1)).

(** [v] is the minimum Hamiltonian cycle cost of [g]. *)
Definition is_optimum (g : IGraph) (v : Z) : Prop :=
  (exists perm, is_tour g perm /\ tour_cost g perm = v) /\
  (forall perm, is_tour g perm -> v <= tour_cost g perm).

(** *** Vertex subsets as bit masks *)

Definition mem (s : N) (v : nat) : bool := N.testbit s (N.of_nat v).

(** The members of [s] below [k], in increasing order. *)
Definition members (k : nat) (s : N) : list nat := List.filter (mem s) (seq 0 k).

Definition card (k : nat) (s : N) : nat := length (members k s).

(** The minimum of [f] over a non-empty list. *)
Definition min_over (l : list nat) (f : nat -> Z) : Z :=
  match l with
  | [] => 0
  | k :: l' => fold_left (fun a k' => Z.min a (f k')) l' (f k)
  end.

(** *** The Held-Karp recurrence, as the specification writes it

    [dp_rec g k j s] is [dp[j][s]] for a subset [s] of [k + 1] vertices that
    contains [j]: the base case for a singleton, the minimum over the
    predecessors otherwise. *)
Fixpoint dp_rec (g : IGraph) (k : nat) (j : nat) (s : N) : Z :=
  match k with
  | O => getEdgeParameter g (origin g) j
  | S k' =>
    let s' := N.clearbit s (N.of_nat j) in
    min_over (members (getVertexCount g - 1) s')
      (fun q => dp_rec g k' q s' + getEdgeParameter g q j)
  end.

Definition dp (g : IGraph) (j : nat) (s : N) : Z :=
  dp_rec g (card (getVertexCount g - 1) s - 1) j s.

(** The set of all the non-origin vertices. *)
Definition Full (g : IGraph) : N := N.ones (N.of_nat (getVertexCount g - 1)).

(** The answer of the recurrence. *)
Definition heldKarp_answer (g : IGraph) : Z :=
  min_over (seq 0 (getVertexCount g - 1))
    (fun j => dp g j (Full g) + getEdgeParameter g j (origin g)).

(** *** Matrices *)

(** The content of cell (i, j), when it exists. *)
Definition cell (d : matrix) (i j : nat) : option Z :=
  match d !! i with
  | Some row => row !! j
  | None => None
  end.

(** [d] has [r] rows of [c] cells. *)
Definition rect (r c : nat) (d : matrix) : Prop :=
  length d = r /\ forall i row, d !! i = Some row -> length row = c.

(** The matrix of all the edge parameters of [g], diagonal included. *)
Definition weight_matrix (g : IGraph) : matrix :=
  map (fun i => map (fun j => getEdgeParameter g i j) (seq 0 (getVertexCount g)))
      (seq 0 (getVertexCount g)).

(** The scenario with an infinite diagonal. *)
Definition scenario_inf : IGraph :=
  matrix_graph [[INT_MAX; 10; 15; 20]; [10; INT_MAX; 35; 25];
                [15; 35; INT_MAX; 30]; [20; 25; 30; INT_MAX]].

(** *** Matrix reduction *)

(** What a reduction by [minimum] makes of a cell holding [x]. *)
Definition reduced (minimum x : Z) : Z :=
  if x =? INT_MAX then x else int_sub x minimum.

(** A recorded zero lies inside an [n] by [n] matrix. *)
Definition zero_in_range (n : nat) (zero : EdgeCities * Penalties) : Prop :=
  (edge_i zero.1 < n)%nat /\ (edge_j zero.1 < n)%nat.

(** A finite weight: an [int] other than the infinity sentinel. *)
Definition finite_weight (z : Z) : Prop := INT_MIN <= z < INT_MAX.

(** Sum of [f] over the vertices of [l]. *)
Definition sum_over (l : list nat) (f : nat -> Z) : Z :=
  fold_right (fun k acc => f k + acc) 0 l.

(** [f] with the value at [i] replaced by [x]. *)
Definition update (f : nat -> Z) (i : nat) (x : Z) : nat -> Z :=
  fun k => if (k =? i)%nat then x else f k.

(** The working matrix [d] is the weight matrix of [g] reduced by the row
    potentials [rv] and the column potentials [cv], infinite entries left
    as they are. *)
Definition reduced_by (g : IGraph) (rv cv : nat -> Z) (d : matrix) : Prop :=
  forall a b : nat, (a < getVertexCount g)%nat -> (b < getVertexCount g)%nat ->
    cell d a b = Some (if getEdgeParameter g a b =? INT_MAX then INT_MAX
                       else getEdgeParameter g a b - rv a - cv b).

(** The potentials leave every finite entry non-negative and finite, on the
    rows below [i]. *)
Definition feasible_below (g : IGraph) (i : nat) (rv cv : nat -> Z) : Prop :=
  forall a b : nat, (a < i)%nat -> (b < getVertexCount g)%nat ->
    getEdgeParameter g a b <> INT_MAX ->
    0 <= getEdgeParameter g a b - rv a - cv b < INT_MAX.

(** State of the row loop before row [i]. *)
Definition row_invariant (g : IGraph) (W : Z) (i : nat) (r : Reduction) : Prop :=
  rect (getVertexCount g) (getVertexCount g) (red_distances r) /\
  Forall (zero_in_range (getVertexCount g)) (matrixZeroes r) /\
  ((1 <= i)%nat -> matrixZeroes r <> []) /\
  exists rv : nat -> Z,
    (forall k, (i <= k)%nat -> rv k = 0) /\
    (forall k, - W <= rv k <= W) /\
    red_lowerBound r = sum_over (seq 0 (getVertexCount g)) rv /\
    - (Z.of_nat i * W) <= red_lowerBound r <= Z.of_nat i * W /\
    reduced_by g rv (fun _ => 0) (red_distances r) /\
    feasible_below g i rv (fun _ => 0).

(** State of the column loop before column [j], the row potentials being
    [rv]. *)
Definition column_invariant (g : IGraph) (rv : nat -> Z) (j : nat) (r : Reduction) : Prop :=
  rect (getVertexCount g) (getVertexCount g) (red_distances r) /\
  Forall (zero_in_range (getVertexCount g)) (matrixZeroes r) /\
  matrixZeroes r <> [] /\
  exists cv : nat -> Z,
    (forall k, (j <= k)%nat -> cv k = 0) /\
    (forall k, 0 <= cv k) /\
    red_lowerBound r =
      sum_over (seq 0 (getVertexCount g)) rv + sum_over (seq 0 (getVertexCount g)) cv /\
    reduced_by g rv cv (red_distances r) /\
    feasible_below g (getVertexCount g) rv cv.

(** *** Invariants of the Held-Karp cache *)

Definition write_key (wr : CellWrite) : nat * N := (write_end wr, write_set wr).

(** The shape and the content of the cache: every cell of a state
    [(e, s)] holds the sentinel or the value [dp[e][s]] of a set that
    contains [e], and the singletons are cached. *)
Definition cache_ok (g : IGraph) (t : matrix) : Prop :=
  rect (getVertexCount g) (N.to_nat (2 ^ N.of_nat (getVertexCount g - 1))) t /\
  (forall (e : nat) (s : N) (v : Z),
     (e < getVertexCount g - 1)%nat -> (s < 2 ^ N.of_nat (getVertexCount g - 1))%N ->
     cell t e (N.to_nat s) = Some v -> v <> -1 -> mem s e = true /\ v = dp g e s) /\
  (forall e : nat, (e < getVertexCount g - 1)%nat ->
     cell t e (N.to_nat (2 ^ N.of_nat e)) = Some (getEdgeParameter g (origin g) e)).

(** The history of the saves: no state saved twice, every save made into a
    cell that held the sentinel, and the saved value still in its cell. *)
Definition log_ok (g : IGraph) (st : DPState) : Prop :=
  NoDup (map write_key (writes st)) /\
  Forall (fun wr =>
            (write_end wr < getVertexCount g - 1)%nat /\
            (write_set wr < 2 ^ N.of_nat (getVertexCount g - 1))%N /\
            write_old wr = -1 /\ write_new wr <> -1 /\
            cell (partialPathCostTable st) (write_end wr) (N.to_nat (write_set wr))
              = Some (write_new wr))
         (writes st).

Definition state_ok (g : IGraph) (st : DPState) : Prop :=
  cache_ok g (partialPathCostTable st) /\ log_ok g st.

(** What a call on the set [s] may change: cached values stay, the cells of
    the sets above [s] stay, and the history grows. *)
Definition extends (s : N) (st st' : DPState) : Prop :=
  (forall (e k : nat) (v : Z),
     cell (partialPathCostTable st) e k = Some v -> v <> -1 ->
     cell (partialPathCostTable st') e k = Some v) /\
  (forall e k : nat, (N.to_nat s < k)%nat ->
     cell (partialPathCostTable st') e k = cell (partialPathCostTable st) e k) /\
  exists new, writes st' = new ++ writes st.

(** [p] visits exactly the vertices of [s], each once, and ends at [j]. *)
Definition is_path (g : IGraph) (s : N) (j : nat) (p : list nat) : Prop :=
  NoDup p /\
  (forall v, In v p <-> (v < getVertexCount g - 1)%nat /\ mem s v = true) /\
  exists q, p = q ++ [j].

(** A well-formed instance of 33 vertices, every weight 0. *)
Definition oversized : IGraph :=
  {| getVertexCount := 33; getEdgeParameter := fun _ _ => 0 |}.

(** The entry that the reduction loops record for a zero at (i, j). *)
Definition zero_entry (i j : nat) : EdgeCities * Penalties :=
  ({| edge_i := i; edge_j := j |}, {| penalty_row := 0; penalty_column := 0 |}).

(** *** The permutations that bruteForce evaluates *)

(** Whether the pass of the loop that starts in [st] takes the branch that
    swaps and evaluates a permutation. *)
Definition bfEvaluates (st : BFState) : bool :=
  match stackCounters st !! stackSlotIndex st with
  | Some c => c <=? Z.of_nat (stackSlotIndex st)
  | None => false
  end.

(** The do-while loop of [bruteForce], returning next to its result the
    permutations on which the loop body calls
    [calculateTargetFunctionValue], in order. *)
Fixpoint bfTrace (fuel : nat) (g : IGraph) (permutationSize : nat) (st : BFState)
  : outcome (Z * list (list nat)) :=
  match fuel with
  | O => Timeout
  | S fuel' =>
    st' ← bfBody g permutationSize st;
    let evaluated := if bfEvaluates st then [permutation st'] else [] in
    if (stackSlotIndex st' + 1 <=? permutationSize)%nat
    then r ← bfTrace fuel' g permutationSize st'; Done (r.1, evaluated ++ r.2)
    else Done (bestPathTargetFunctionValue st', evaluated)
  end.

(** [bruteForce] with the permutations it evaluates, the natural one first. *)
Definition bruteForceTrace (fuel : nat) (g : IGraph) : outcome (Z * list (list nat)) :=
  match getVertexCount g with
  | O => Undefined
  | S permutationSize =>
    let permutation := seq 0 permutationSize in
    r ← bfTrace fuel g permutationSize
      {| permutation := permutation;
         stackSlotIndex := 1;
         stackCounters := repeat 1 permutationSize;
         bestPathTargetFunctionValue :=
           calculateTargetFunctionValue g permutationSize permutation |};
    Done (r.1, permutation :: r.2)
  end.

(** The array [l] with the elements at [i] and [j] exchanged. *)
Definition lswap (l : list nat) (i j : nat) : list nat :=
  match l !! i, l !! j with
  | Some x, Some y => <[j := x]> (<[i := y]> l)
  | _, _ => l
  end.

(** The index that Heap's rule exchanges with the last index [k] of a
    sub-permutation, at its swap number [c]. *)
Definition heapIndex (k c : nat) : nat :=
  if ((k + 1) mod 2 =? 1)%nat then 0%nat else c.

(** The swaps number [c], [c + 1], ... of the sub-permutation that ends at
    index [k], [cnt] of them, each followed by the permutations [sub] of the
    shorter sub-permutation: the arrays produced, and the array left. *)
Fixpoint heapLoop (sub : list nat -> list (list nat) * list nat) (k c cnt : nat)
  (l : list nat) : list (list nat) * list nat :=
  match cnt with
  | O => ([], l)
  | S cnt' =>
    let l1 := lswap l k (heapIndex k c) in
    let r1 := sub l1 in
    let r2 := heapLoop sub k (S c) cnt' r1.2 in
    (l1 :: r1.1 ++ r2.1, r2.2)
  end.

(** Heap's algorithm on the sub-permutation that ends at index [k]: the
    arrays produced after [l], and the array left. *)
Fixpoint heapPermutations (k : nat) (l : list nat) : list (list nat) * list nat :=
  match k with
  | O => ([], l)
  | S k' =>
    let r0 := heapPermutations k' l in
    let r1 := heapLoop (heapPermutations k') k 0 k r0.2 in
    (r0.1 ++ r1.1, r1.2)
  end.

(** The number of passes of the loop that take the slot index from 1 to
    [k + 1]. *)
Fixpoint heapSteps (k : nat) : nat :=
  match k with
  | O => 0
  | S k' => heapSteps k' + k * S (heapSteps k') + 1
  end.

(** *** Heap's algorithm as maps of positions *)

(** The transposition of the positions [i] and [j]. *)
Definition transp (i j p : nat) : nat :=
  if decide (p = i) then j else if decide (p = j) then i else p.

(** The array whose position [p] holds the element of [l] at position
    [f p]. *)
Definition rearrange (f : nat -> nat) (l : list nat) : list nat :=
  (fun p => nth (f p) l 0%nat) <$> seq 0 (length l).

(** Where the element that Heap's algorithm leaves at position [p] of the
    sub-permutation ending at index [k] comes from: positions 0 and [k]
    exchanged when [k] is even, and for an odd [k] the arrangement
    [k-2, k-1, 1, ..., k-3, k, 0]. *)
Definition heapFinal (k p : nat) : nat :=
  if Nat.even k then transp 0 k p
  else if decide (k = 1%nat) then transp 0 1 p
  else if decide (p = 0%nat) then (k - 2)%nat
  else if decide (p = 1%nat) then (k - 1)%nat
  else if decide (p <= k - 2)%nat then (p - 1)%nat
  else if decide (p = (k - 1)%nat) then k
  else if decide (p = k) then 0%nat
  else p.

(** Where the element at position [p] comes from before swap number [c] of
    the sub-permutation ending at index [k + 1], once the shorter
    sub-permutation has been permuted [c] times. *)
Fixpoint heapRoundMap (k c : nat) (p : nat) : nat :=
  match c with
  | O => p
  | S c' => heapRoundMap k c' (heapFinal k (transp (S k) (heapIndex (S k) c') p))
  end.

(** The same for an odd index [K = k + 1], in closed form. *)
Definition oddRound (K c p : nat) : nat :=
  if decide (c = 0%nat) then p
  else if decide (K < p)%nat then p
  else if decide (p = K) then
    (if decide (c = 1%nat) then (K - 1)%nat
     else if decide (c = K) then 0%nat else (c - 1)%nat)
  else if decide (p = 0%nat) then (if Nat.even c then 0%nat else K)
  else if decide (p = (K - 1)%nat) then
    (if decide (c = K) then (K - 2)%nat else if Nat.even c then K else 0%nat)
  else if decide (c = 1%nat) then p
  else if decide (p = 1%nat) then (K - 1)%nat
  else if decide (p <= c - 1)%nat then (p - 1)%nat
  else p.

(** The position of the original array whose element is at index [K] before
    swap number [c]. *)
Definition heapLast (K c : nat) : nat :=
  if Nat.even K then
    (if decide (K = 2%nat) then (2 - c)%nat
     else if decide (c = 0%nat) then K
     else if decide (c <= K - 3)%nat then (K - 2 - c)%nat
     else if decide (c = K) then 0%nat else c)
  else
    (if decide (c = 0%nat) then K
     else if decide (c = 1%nat) then (K - 1)%nat
     else if decide (c = K) then 0%nat else (c - 1)%nat).

(** The array before swap number [c] of the sub-permutation ending at index
    [k + 1]. *)
Fixpoint heapRound (k c : nat) (l : list nat) : list nat :=
  match c with
  | O => l
  | S c' =>
    lswap (heapPermutations k (heapRound k c' l)).2 (S k) (heapIndex (S k) c')
  end.

(** That array and the arrays that the shorter sub-permutation produces
    from it. *)
Definition heapBlock (k : nat) (l : list nat) (c : nat) : list (list nat) :=
  heapRound k c l :: (heapPermutations k (heapRound k c l)).1.

(** The loop of [bruteForce] entered at the test of its condition. *)
Definition bfResume (fuel : nat) (g : IGraph) (permutationSize : nat) (st : BFState)
  : outcome (Z * list (list nat)) :=
  if (stackSlotIndex st + 1 <=? permutationSize)%nat
  then bfTrace fuel g permutationSize st
  else Done (bestPathTargetFunctionValue st, []).

(** The best value after the evaluation of the permutations [visited]. *)
Definition bfBest (g : IGraph) (permutationSize : nat) (best : Z)
  (visited : list (list nat)) : Z :=
  fold_left (fun best p =>
               let current := calculateTargetFunctionValue g permutationSize p in
               if current <? best then current else best)
            visited best.

(** *** A further example instance *)

(** A three-vertex instance with an infinite diagonal whose cheapest tour
    is the natural one, 0, 1, 2 and back, of cost 3. *)
Definition three_cycle : IGraph :=
  matrix_graph [[INT_MAX; 1; 5]; [5; INT_MAX; 1]; [1; 5; INT_MAX]].


(** A well-formed instance of three vertices with weight 1 between distinct
    vertices and [-2^30] on the diagonal. *)
Definition deep_diagonal : IGraph :=
  matrix_graph [[-1073741824; 1; 1]; [1; -1073741824; 1]; [1; 1; -1073741824]].


(** The weights of [deep_diagonal] with an infinite diagonal. *)
Definition deep_diagonal_inf : IGraph :=
  matrix_graph [[INT_MAX; 1; 1]; [1; INT_MAX; 1]; [1; 1; INT_MAX]].

(** ** Properties *)

(** *** Machine integers *)

Lemma to_int_id (z : Z) : is_int z -> to_int z = z.
Proof.
  unfold is_int, to_int, INT_MIN, INT_MAX. intros H.
  rewrite Z.mod_small; lia.
Qed.

(** *** Outcomes and loops *)


Lemma for_range_total {S : Type} (P : nat -> S -> Prop) (body : nat -> S -> outcome S)
  (cnt lo : nat) (s : S) :
  P lo s ->
  (forall k s, (lo <= k < lo + cnt)%nat -> P k s ->
     exists s', body k s = Done s' /\ P (Datatypes.S k) s') ->
  exists s', for_range lo cnt body s = Done s' /\ P (lo + cnt)%nat s'.
Proof.
  revert lo s. induction cnt as [|cnt IH]; intros lo s H0 Hstep; simpl.
  - exists s. rewrite Nat.add_0_r. auto.
  - destruct (Hstep lo s) as (s1 & E1 & H1); [lia | assumption |].
    rewrite E1. cbn.
    destruct (IH (Datatypes.S lo) s1) as (s2 & E2 & H2); [assumption | |].
    + intros k s' Hk. apply Hstep. lia.
    + exists s2. split; [assumption |].
      replace (lo + Datatypes.S cnt)%nat with (Datatypes.S lo + cnt)%nat by lia. assumption.
Qed.

(** *** Vectors and matrices *)

Lemma vget_Done {A : Type} (v : list A) (i : nat) (x : A) :
  vget v i = Done x <-> v !! i = Some x.
Proof.
  unfold vget. destruct (v !! i); split; intros H; inversion H; reflexivity.
Qed.

Lemma vset_Done {A : Type} (v : list A) (i : nat) (x : A) :
  (i < length v)%nat -> vset v i x = Done (<[i := x]> v).
Proof.
  intros H. unfold vset. destruct (Nat.ltb_spec i (length v)); [reflexivity | lia].
Qed.

Lemma mget_cell (d : matrix) (i j : nat) (x : Z) :
  mget d i j = Done x <-> cell d i j = Some x.
Proof.
  unfold mget, cell, vget. destruct (d !! i) as [row|]; cbn.
  - destruct (row !! j); split; intros H; inversion H; reflexivity.
  - split; intros H; inversion H.
Qed.

Lemma cell_rect (r c : nat) (d : matrix) (i j : nat) :
  rect r c d -> (i < r)%nat -> (j < c)%nat -> exists x, cell d i j = Some x.
Proof.
  intros [Hr Hc] Hi Hj. unfold cell.
  destruct (lookup_lt_is_Some_2 d i) as [row Hrow]; [lia |].
  rewrite Hrow. apply lookup_lt_is_Some_2. rewrite (Hc i row Hrow). assumption.
Qed.

Lemma mget_rect (r c : nat) (d : matrix) (i j : nat) :
  rect r c d -> (i < r)%nat -> (j < c)%nat -> exists x, mget d i j = Done x.
Proof.
  intros H Hi Hj. destruct (cell_rect r c d i j H Hi Hj) as [x Hx].
  exists x. apply mget_cell. assumption.
Qed.

Lemma mset_rect (r c : nat) (d : matrix) (i j : nat) (x : Z) :
  rect r c d -> (i < r)%nat -> (j < c)%nat ->
  exists d', mset d i j x = Done d' /\ rect r c d' /\ cell d' i j = Some x /\
    forall i' j', (i', j') <> (i, j) -> cell d' i' j' = cell d i' j'.
Proof.
  intros [Hr Hc] Hi Hj. unfold mset, vget.
  destruct (lookup_lt_is_Some_2 d i) as [row Hrow]; [lia |].
  rewrite Hrow. cbn.
  pose proof (Hc i row Hrow) as Hlen.
  rewrite vset_Done by lia. cbn. rewrite vset_Done by lia.
  eexists. split; [reflexivity |]. split; [| split].
  - split; [rewrite length_insert; assumption |].
    intros i' row' H'. destruct (decide (i = i')) as [<- | Hne].
    + rewrite list_lookup_insert_eq in H' by lia. inversion H' as [E].
      rewrite length_insert. assumption.
    + rewrite list_lookup_insert_ne in H' by assumption. eauto.
  - unfold cell. rewrite list_lookup_insert_eq by lia.
    apply list_lookup_insert_eq. lia.
  - intros i' j' Hne. unfold cell.
    destruct (decide (i = i')) as [<- | Hi'].
    + rewrite list_lookup_insert_eq by lia. rewrite Hrow.
      apply list_lookup_insert_ne. congruence.
    + rewrite list_lookup_insert_ne by assumption. reflexivity.
Qed.

Lemma rect_repeat (r c : nat) (x : Z) : rect r c (repeat (repeat x c) r).
Proof.
  split; [apply repeat_length |].
  intros i row H. apply list_elem_of_lookup_2 in H.
  apply list_elem_of_In, repeat_spec in H. subst. apply repeat_length.
Qed.

Lemma cell_weight_matrix (g : IGraph) (i j : nat) :
  (i < getVertexCount g)%nat -> (j < getVertexCount g)%nat ->
  cell (weight_matrix g) i j = Some (getEdgeParameter g i j).
Proof.
  intros Hi Hj. unfold cell, weight_matrix.
  rewrite list_lookup_fmap, lookup_seq_lt by assumption. simpl.
  rewrite list_lookup_fmap, lookup_seq_lt by assumption. reflexivity.
Qed.

Lemma rect_weight_matrix (g : IGraph) :
  rect (getVertexCount g) (getVertexCount g) (weight_matrix g).
Proof.
  unfold weight_matrix. split.
  - rewrite length_map, length_seq. reflexivity.
  - intros i row H. rewrite list_lookup_fmap in H.
    destruct (seq 0 (getVertexCount g) !! i); inversion H.
    rewrite length_map, length_seq. reflexivity.
Qed.

(** Two matrices of the same shape with the same cells are equal. *)
Lemma matrix_ext (r c : nat) (d d' : matrix) :
  rect r c d -> rect r c d' ->
  (forall i j, (i < r)%nat -> (j < c)%nat -> cell d i j = cell d' i j) ->
  d = d'.
Proof.
  intros [Hr Hc] [Hr' Hc'] H. apply list_eq. intros i.
  destruct (Nat.lt_ge_cases i r) as [Hi | Hi].
  - destruct (lookup_lt_is_Some_2 d i) as [row Hrow]; [lia |].
    destruct (lookup_lt_is_Some_2 d' i) as [row' Hrow']; [lia |].
    rewrite Hrow, Hrow'. f_equal. apply list_eq. intros j.
    destruct (Nat.lt_ge_cases j c) as [Hj | Hj].
    + specialize (H i j Hi Hj). unfold cell in H. rewrite Hrow, Hrow' in H. assumption.
    + rewrite !lookup_ge_None_2; [reflexivity | |].
      * rewrite (Hc' i row' Hrow'). assumption.
      * rewrite (Hc i row Hrow). assumption.
  - rewrite !lookup_ge_None_2; [reflexivity | lia | lia].
Qed.

(** *** Minima *)

Lemma fold_left_min_le (l : list Z) (x0 : Z) :
  fold_left Z.min l x0 <= x0 /\ forall y, In y l -> fold_left Z.min l x0 <= y.
Proof.
  revert x0. induction l as [|y l IH]; intros x0; simpl.
  - split; [lia | intros y []].
  - destruct (IH (Z.min x0 y)) as [H1 H2]. split; [lia |].
    intros z [<- | Hz]; [lia | auto].
Qed.

Lemma fold_left_min_in (l : list Z) (x0 : Z) :
  fold_left Z.min l x0 = x0 \/ In (fold_left Z.min l x0) l.
Proof.
  revert x0. induction l as [|y l IH]; intros x0; simpl; [auto |].
  destruct (IH (Z.min x0 y)) as [H | H]; [| auto].
  rewrite H. destruct (Z.min_spec x0 y) as [[_ ->] | [_ ->]]; auto.
Qed.

Lemma min_element_spec (v : list Z) :
  v <> [] ->
  exists m, min_element v = Done m /\ In m v /\ forall y, In y v -> m <= y.
Proof.
  destruct v as [|x v]; [congruence |]. intros _. simpl.
  eexists. split; [reflexivity |].
  destruct (fold_left_min_le v x) as [H1 H2].
  split.
  - destruct (fold_left_min_in v x) as [-> | H]; auto.
  - intros y [<- | Hy]; auto.
Qed.

Lemma int_sub_diag (x : Z) : int_sub x x = 0.
Proof. unfold int_sub. rewrite Z.sub_diag. reflexivity. Qed.

(** *** Minimum over a list of vertices *)

Lemma fold_min_le (f : nat -> Z) (l : list nat) (a0 : Z) :
  fold_left (fun a k => Z.min a (f k)) l a0 <= a0 /\
  forall k, In k l -> fold_left (fun a k => Z.min a (f k)) l a0 <= f k.
Proof.
  revert a0. induction l as [|x l IH]; intros a0; simpl.
  - split; [lia | intros k []].
  - destruct (IH (Z.min a0 (f x))) as [H1 H2]. split; [lia |].
    intros k [<- | Hk]; [lia | auto].
Qed.

Lemma fold_min_attained (f : nat -> Z) (l : list nat) (a0 : Z) :
  fold_left (fun a k => Z.min a (f k)) l a0 = a0 \/
  exists k, In k l /\ fold_left (fun a k => Z.min a (f k)) l a0 = f k.
Proof.
  revert a0. induction l as [|x l IH]; intros a0; simpl; [auto |].
  destruct (IH (Z.min a0 (f x))) as [H | (k & Hk & H)].
  - rewrite H. destruct (Z.min_spec a0 (f x)) as [[_ ->] | [_ ->]]; eauto.
  - right. eauto.
Qed.

Lemma fold_min_init (f : nat -> Z) (l : list nat) (a b : Z) :
  fold_left (fun a k => Z.min a (f k)) l (Z.min a b) =
  Z.min a (fold_left (fun a k => Z.min a (f k)) l b).
Proof.
  revert b. induction l as [|x l IH]; intros b; simpl; [reflexivity |].
  rewrite <- IH. f_equal. lia.
Qed.

Lemma min_over_le (f : nat -> Z) (l : list nat) (k : nat) :
  In k l -> min_over l f <= f k.
Proof.
  destruct l as [|x l]; [intros [] |]. simpl.
  destruct (fold_min_le f l (f x)) as [H1 H2]. intros [<- | Hk]; auto.
Qed.

Lemma min_over_attained (f : nat -> Z) (l : list nat) :
  l <> [] -> exists k, In k l /\ min_over l f = f k.
Proof.
  destruct l as [|x l]; [congruence |]. intros _. simpl.
  destruct (fold_min_attained f l (f x)) as [H | (k & Hk & H)]; eauto.
Qed.


Lemma min_over_bounds (f : nat -> Z) (l : list nat) (lo hi : Z) :
  l <> [] -> (forall k, In k l -> lo <= f k <= hi) -> lo <= min_over l f <= hi.
Proof.
  intros Hne H. destruct (min_over_attained f l Hne) as (k & Hk & ->). auto.
Qed.

(** The running minimum that the loops keep, started at infinity. *)
Lemma fold_min_INT_MAX (f : nat -> Z) (l : list nat) :
  l <> [] -> (forall k, In k l -> f k <= INT_MAX) ->
  fold_left (fun a k => Z.min a (f k)) l INT_MAX = min_over l f.
Proof.
  destruct l as [|x l]; [congruence |]. intros _ H. simpl.
  rewrite fold_min_init.
  pose proof (min_over_bounds f (x :: l) (min_over (x :: l) f) INT_MAX ltac:(discriminate)) as Hb.
  simpl in Hb. apply Z.min_r, Hb. intros k Hk. split; [| auto].
  apply (min_over_le f (x :: l) k Hk).
Qed.

Lemma ltb_min (c b : Z) : (if c <? b then c else b) = Z.min b c.
Proof. destruct (Z.ltb_spec c b); lia. Qed.

(** *** Potentials bound every tour from below *)

Lemma sum_over_app (l1 l2 : list nat) (f : nat -> Z) :
  sum_over (l1 ++ l2) f = sum_over l1 f + sum_over l2 f.
Proof. induction l1 as [|k l1 IH]; simpl; [reflexivity | rewrite IH; lia]. Qed.

Lemma sum_over_perm (l1 l2 : list nat) (f : nat -> Z) :
  Permutation l1 l2 -> sum_over l1 f = sum_over l2 f.
Proof. intros H. induction H; simpl; lia. Qed.

Lemma sum_over_update_notin (l : list nat) (f : nat -> Z) (i : nat) (x : Z) :
  ~ In i l -> sum_over l (update f i x) = sum_over l f.
Proof.
  induction l as [|k l IH]; simpl; intros Hn; [reflexivity |].
  unfold update at 1. destruct (Nat.eqb_spec k i) as [-> | _]; [tauto |].
  rewrite IH by tauto. reflexivity.
Qed.

Lemma sum_over_update_seq (n : nat) (f : nat -> Z) (i : nat) (x : Z) :
  (i < n)%nat -> sum_over (seq 0 n) (update f i x) = sum_over (seq 0 n) f - f i + x.
Proof.
  intros Hi.
  assert (Hsplit : seq 0 n = seq 0 i ++ i :: seq (S i) (n - S i)).
  { replace n with (i + S (n - S i))%nat at 1 by lia. rewrite seq_app. reflexivity. }
  rewrite Hsplit, !sum_over_app. simpl.
  rewrite !sum_over_update_notin.
  - unfold update. rewrite Nat.eqb_refl. lia.
  - rewrite in_seq. lia.
  - rewrite in_seq. lia.
Qed.

Lemma sum_over_bounds (l : list nat) (f : nat -> Z) (lo hi : Z) :
  (forall k, In k l -> lo <= f k <= hi) ->
  Z.of_nat (length l) * lo <= sum_over l f <= Z.of_nat (length l) * hi.
Proof.
  induction l as [|k l IH]; intros H; [simpl; lia |].
  cbn [sum_over fold_right length].
  specialize (IH (fun k' Hk' => H k' (or_intror Hk'))).
  specialize (H k (or_introl eq_refl)). fold (sum_over l f). lia.
Qed.

Lemma tour_vertices (g : IGraph) (perm : list nat) :
  (1 <= getVertexCount g)%nat -> is_tour g perm ->
  Permutation (origin g :: perm) (seq 0 (getVertexCount g)).
Proof.
  intros Hn Hp. unfold is_tour, origin in *.
  destruct (getVertexCount g) as [|m]; [lia |].
  replace (S m - 1)%nat with m in * by lia.
  rewrite seq_S. simpl. rewrite Hp. apply Permutation_cons_append.
Qed.

(** A closed chain through distinct vertices costs at least the potentials
    of its vertices. *)
Lemma chain_cost_potentials (g : IGraph) (rv cv : nat -> Z) (z : nat) (l : list nat) :
  (forall a b, (a < getVertexCount g)%nat -> (b < getVertexCount g)%nat -> a <> b ->
     rv a + cv b <= getEdgeParameter g a b) ->
  NoDup l -> (forall k, In k l -> (k < getVertexCount g)%nat) ->
  (z < getVertexCount g)%nat -> l <> [] -> List.last l z <> z ->
  sum_over l rv + sum_over (tl l ++ [z]) cv <= chain_cost g (l ++ [z]).
Proof.
  intros Hpot. induction l as [|u l IH]; intros Hnd Hlt Hz Hne Hlast; [congruence |].
  destruct l as [|v l].
  - simpl in *. specialize (Hpot u z (Hlt u (or_introl eq_refl)) Hz Hlast). lia.
  - inversion Hnd as [|? ? Hu Hnd']; subst.
    assert (Huv : u <> v) by (intros ->; apply Hu; left; reflexivity).
    specialize (IH Hnd' (fun k Hk => Hlt k (or_intror Hk)) Hz ltac:(discriminate) Hlast).
    specialize (Hpot u v (Hlt u (or_introl eq_refl))
                  (Hlt v (or_intror (or_introl eq_refl))) Huv).
    change (chain_cost g ((u :: v :: l) ++ [z]))
      with (getEdgeParameter g u v + chain_cost g ((v :: l) ++ [z])).
    change (sum_over (u :: v :: l) rv) with (rv u + sum_over (v :: l) rv).
    change (sum_over (tl (u :: v :: l) ++ [z]) cv)
      with (cv v + sum_over (tl (v :: l) ++ [z]) cv).
    lia.
Qed.

Lemma chain_cost_le (g : IGraph) (W : Z) (z : nat) (l : list nat) :
  (forall a b, (a < getVertexCount g)%nat -> (b < getVertexCount g)%nat -> a <> b ->
     getEdgeParameter g a b <= W) ->
  NoDup l -> (forall k, In k l -> (k < getVertexCount g)%nat) ->
  (z < getVertexCount g)%nat -> l <> [] -> List.last l z <> z ->
  chain_cost g (l ++ [z]) <= Z.of_nat (length l) * W.
Proof.
  intros Hw. induction l as [|u l IH]; intros Hnd Hlt Hz Hne Hlast; [congruence |].
  destruct l as [|v l].
  - simpl in *. specialize (Hw u z (Hlt u (or_introl eq_refl)) Hz Hlast). lia.
  - inversion Hnd as [|? ? Hu Hnd']; subst.
    assert (Huv : u <> v) by (intros ->; apply Hu; left; reflexivity).
    specialize (IH Hnd' (fun k Hk => Hlt k (or_intror Hk)) Hz ltac:(discriminate) Hlast).
    specialize (Hw u v (Hlt u (or_introl eq_refl))
                  (Hlt v (or_intror (or_introl eq_refl))) Huv).
    change (chain_cost g ((u :: v :: l) ++ [z]))
      with (getEdgeParameter g u v + chain_cost g ((v :: l) ++ [z])).
    change (length (u :: v :: l)) with (S (length (v :: l))). lia.
Qed.

Lemma chain_cost_ge0 (g : IGraph) (z : nat) (l : list nat) :
  (forall a b, (a < getVertexCount g)%nat -> (b < getVertexCount g)%nat -> a <> b ->
     0 <= getEdgeParameter g a b) ->
  NoDup l -> (forall k, In k l -> (k < getVertexCount g)%nat) ->
  (z < getVertexCount g)%nat -> l <> [] -> List.last l z <> z ->
  0 <= chain_cost g (l ++ [z]).
Proof.
  intros Hw Hnd Hlt Hz Hne Hlast.
  pose proof (chain_cost_potentials g (fun _ => 0) (fun _ => 0) z l) as H.
  assert (E : forall l', sum_over l' (fun _ => 0) = 0).
  { induction l' as [|k l' IH']; simpl; lia. }
  rewrite !E in H. apply H; auto.
Qed.

(** The vertex sequence of a tour, as the chain lemmas want it. *)
Lemma tour_chain (g : IGraph) (perm : list nat) :
  (2 <= getVertexCount g)%nat -> is_tour g perm ->
  let l := origin g :: perm in
  NoDup l /\ (forall k, In k l -> (k < getVertexCount g)%nat) /\
  (origin g < getVertexCount g)%nat /\ l <> [] /\ List.last l (origin g) <> origin g /\
  length l = getVertexCount g.
Proof.
  intros Hn Hp l.
  pose proof (tour_vertices g perm ltac:(lia) Hp) as Hperm. fold l in Hperm.
  assert (Hnd : NoDup l).
  { rewrite Hperm. apply NoDup_seq. }
  assert (Hin : forall k, In k l -> (k < getVertexCount g)%nat).
  { intros k Hk. apply (Permutation_in _ Hperm), in_seq in Hk. lia. }
  split; [assumption |]. split; [assumption |].
  split; [unfold origin; lia |]. split; [discriminate |]. split.
  - destruct perm as [|v perm].
    + apply Permutation_length in Hp. rewrite length_seq in Hp. simpl in Hp. lia.
    + subst l. change (List.last (origin g :: v :: perm) (origin g))
        with (List.last (v :: perm) (origin g)).
      intros Heq. inversion Hnd as [|? ? Ho _]; subst. apply Ho.
      apply list_elem_of_In. rewrite <- Heq at 1. destruct (exists_last (l := v :: perm)) as (l' & a & E);
        [discriminate |].
      rewrite E, last_last, <- E in *. rewrite E. apply in_or_app. right. left. reflexivity.
  - apply Permutation_length in Hperm. rewrite length_seq in Hperm. assumption.
Qed.

Lemma tour_cost_potentials (g : IGraph) (rv cv : nat -> Z) (perm : list nat) :
  (2 <= getVertexCount g)%nat ->
  (forall a b, (a < getVertexCount g)%nat -> (b < getVertexCount g)%nat -> a <> b ->
     rv a + cv b <= getEdgeParameter g a b) ->
  is_tour g perm ->
  sum_over (seq 0 (getVertexCount g)) rv + sum_over (seq 0 (getVertexCount g)) cv
  <= tour_cost g perm.
Proof.
  intros Hn Hpot Hp.
  destruct (tour_chain g perm Hn Hp) as (Hnd & Hin & Ho & Hne & Hlast & _).
  pose proof (chain_cost_potentials g rv cv (origin g) (origin g :: perm)
                Hpot Hnd Hin Ho Hne Hlast) as H.
  pose proof (tour_vertices g perm ltac:(lia) Hp) as Hperm.
  rewrite <- (sum_over_perm _ _ rv Hperm).
  rewrite <- (sum_over_perm (perm ++ [origin g]) _ cv).
  - exact H.
  - rewrite <- Hperm. symmetry. apply Permutation_cons_append.
Qed.

Lemma tour_cost_bounds (g : IGraph) (W : Z) (perm : list nat) :
  well_formed g -> bounded_by g W -> is_tour g perm ->
  0 <= tour_cost g perm <= INT_MAX.
Proof.
  intros [Hn Hpos] [Hw Hfit] Hp.
  destruct (tour_chain g perm Hn Hp) as (Hnd & Hin & Ho & Hne & Hlast & Hlen).
  split.
  - apply (chain_cost_ge0 g (origin g) (origin g :: perm)); auto.
  - pose proof (chain_cost_le g W (origin g) (origin g :: perm) Hw Hnd Hin Ho Hne Hlast) as H.
    rewrite Hlen in H. unfold tour_cost.
    change (origin g :: perm ++ [origin g]) with ((origin g :: perm) ++ [origin g]). lia.
Qed.

(** ** dynamicProgrammingHeldKarp: lemmas *)

(** *** Bit masks *)

Lemma shl1u_Done (k : nat) : (k < 32)%nat -> shl1u k = Done (2 ^ N.of_nat k)%N.
Proof.
  intros H. unfold shl1u. destruct (Nat.ltb_spec k 32); [| lia].
  rewrite N.shiftl_1_l. reflexivity.
Qed.

Lemma testbit_high (s : N) (m k : N) : (s < 2 ^ m)%N -> (m <= k)%N -> N.testbit s k = false.
Proof.
  intros Hs Hk. rewrite <- (N.mod_small s (2 ^ m)) by assumption.
  apply N.mod_pow2_bits_high. assumption.
Qed.

Lemma pow2_le_32 (m : nat) : (m <= 32)%nat -> (2 ^ N.of_nat m <= 2 ^ 32)%N.
Proof. intros H. apply N.pow_le_mono_r; lia. Qed.

(** The subset computed by [partialPathSet & ~(1u << endVertexIdx)]. *)
Lemma land_not_u_clearbit (s : N) (e : nat) :
  (s < 2 ^ 32)%N ->
  N.land s (not_u (2 ^ N.of_nat e)) = N.clearbit s (N.of_nat e).
Proof.
  intros Hs. apply N.bits_inj. intros k. unfold not_u.
  rewrite N.land_spec, N.lxor_spec, N.clearbit_eqb, N.pow2_bits_eqb.
  change 4294967295%N with (N.ones 32).
  destruct (N.lt_ge_cases k 32) as [Hk | Hk].
  - rewrite N.ones_spec_low by assumption.
    destruct (N.testbit s k), (N.eqb_spec (N.of_nat e) k); reflexivity.
  - rewrite (testbit_high s 32 k) by assumption. reflexivity.
Qed.

(** The membership test [subset & (1u << vertexIdx)]. *)
Lemma land_bit_mem (s : N) (v : nat) :
  (N.land s (2 ^ N.of_nat v) =? 0)%N = negb (mem s v).
Proof.
  unfold mem. destruct (N.testbit s (N.of_nat v)) eqn:Hbit; simpl.
  - apply N.eqb_neq. intros H0.
    assert (Hb : N.testbit (N.land s (2 ^ N.of_nat v)) (N.of_nat v) = true).
    { rewrite N.land_spec, Hbit, N.pow2_bits_true. reflexivity. }
    rewrite H0 in Hb. rewrite N.bits_0 in Hb. discriminate.
  - apply N.eqb_eq, N.bits_inj. intros k.
    rewrite N.land_spec, N.pow2_bits_eqb, N.bits_0.
    destruct (N.eqb_spec (N.of_nat v) k) as [<- | _].
    + rewrite Hbit. reflexivity.
    + apply andb_false_r.
Qed.

Lemma mem_clearbit (s : N) (e v : nat) :
  mem (N.clearbit s (N.of_nat e)) v = mem s v && negb (e =? v)%nat.
Proof.
  unfold mem. rewrite N.clearbit_eqb. f_equal. f_equal.
  destruct (Nat.eqb_spec e v) as [-> | Hne].
  - apply N.eqb_refl.
  - apply N.eqb_neq. lia.
Qed.

Lemma mem_pow2 (e v : nat) : mem (2 ^ N.of_nat e) v = (e =? v)%nat.
Proof.
  unfold mem. rewrite N.pow2_bits_eqb.
  destruct (Nat.eqb_spec e v) as [-> | Hne].
  - apply N.eqb_refl.
  - apply N.eqb_neq. lia.
Qed.

Lemma clearbit_le (s : N) (e : nat) : (N.clearbit s (N.of_nat e) <= s)%N.
Proof.
  rewrite N.clearbit_spec'. apply N.ldiff_le_l.
Qed.

Lemma clearbit_lt (s : N) (e : nat) :
  mem s e = true -> (N.clearbit s (N.of_nat e) < s)%N.
Proof.
  intros He. pose proof (clearbit_le s e) as Hle.
  assert (N.clearbit s (N.of_nat e) <> s); [| lia].
  intros Heq. pose proof (mem_clearbit s e e) as H.
  rewrite Heq, He, Nat.eqb_refl in H. discriminate.
Qed.

Lemma members_spec (k : nat) (s : N) (v : nat) :
  In v (members k s) <-> (v < k)%nat /\ mem s v = true.
Proof.
  unfold members. rewrite filter_In, in_seq. split; intros [H1 H2]; split; auto; lia.
Qed.

Lemma members_NoDup (k : nat) (s : N) : NoDup (members k s).
Proof.
  unfold members. apply NoDup_ListNoDup, List.NoDup_filter, NoDup_ListNoDup, NoDup_seq.
Qed.

Lemma members_S (k : nat) (s : N) :
  members (S k) s = members k s ++ (if mem s k then [k] else []).
Proof.
  unfold members. rewrite seq_S, List.filter_app. simpl.
  destruct (mem s k); reflexivity.
Qed.

Lemma members_clearbit_spec (m : nat) (s : N) (e v : nat) :
  In v (members m (N.clearbit s (N.of_nat e))) <-> In v (members m s) /\ v <> e.
Proof.
  rewrite !members_spec, mem_clearbit, andb_true_iff, negb_true_iff, Nat.eqb_neq.
  intuition congruence.
Qed.

Lemma members_clearbit_perm (m : nat) (s : N) (e : nat) :
  (e < m)%nat -> mem s e = true ->
  Permutation (members m s) (e :: members m (N.clearbit s (N.of_nat e))).
Proof.
  intros He Hmem. apply NoDup_Permutation.
  - apply members_NoDup.
  - constructor; [| apply members_NoDup].
    rewrite list_elem_of_In, members_clearbit_spec. tauto.
  - intros v. rewrite elem_of_cons, !list_elem_of_In, members_clearbit_spec.
    rewrite members_spec. destruct (decide (v = e)) as [-> | Hne]; [tauto |].
    intuition congruence.
Qed.

Lemma card_clearbit (m : nat) (s : N) (e : nat) :
  (e < m)%nat -> mem s e = true ->
  card m s = S (card m (N.clearbit s (N.of_nat e))).
Proof.
  intros He Hmem. unfold card.
  rewrite (Permutation_length (members_clearbit_perm m s e He Hmem)). reflexivity.
Qed.

Lemma members_nil_zero (m : nat) (s : N) :
  (s < 2 ^ N.of_nat m)%N -> members m s = [] -> s = 0%N.
Proof.
  intros Hs Hnil. apply N.bits_inj. intros k. rewrite N.bits_0.
  destruct (N.lt_ge_cases k (N.of_nat m)) as [Hk | Hk].
  - destruct (N.testbit s k) eqn:Hbit; [| reflexivity].
    assert (Hin : In (N.to_nat k) (members m s)).
    { apply members_spec. split; [lia |]. unfold mem. rewrite N2Nat.id. assumption. }
    rewrite Hnil in Hin. destruct Hin.
  - apply (testbit_high s (N.of_nat m)); assumption.
Qed.

Lemma clearbit_lt_pow2 (m : nat) (s : N) (e : nat) :
  (s < 2 ^ N.of_nat m)%N -> (N.clearbit s (N.of_nat e) < 2 ^ N.of_nat m)%N.
Proof. intros Hs. pose proof (clearbit_le s e). lia. Qed.

(** A set with a member [e] that is not the singleton of [e] has another
    member. *)
Lemma members_clearbit_nonempty (m : nat) (s : N) (e : nat) :
  (s < 2 ^ N.of_nat m)%N -> mem s e = true -> s <> (2 ^ N.of_nat e)%N ->
  members m (N.clearbit s (N.of_nat e)) <> [].
Proof.
  intros Hs Hmem Hne Hnil. apply Hne.
  apply members_nil_zero in Hnil; [| apply clearbit_lt_pow2; assumption].
  apply N.bits_inj. intros k. rewrite N.pow2_bits_eqb.
  destruct (N.eqb_spec (N.of_nat e) k) as [<- | Hk]; [exact Hmem |].
  rewrite <- (N.clearbit_neq s (N.of_nat e) k Hk), Hnil. apply N.bits_0.
Qed.

Lemma card_pow2 (m e : nat) : (e < m)%nat -> card m (2 ^ N.of_nat e) = 1%nat.
Proof.
  intros He. rewrite (card_clearbit m _ e He) by (rewrite mem_pow2; apply Nat.eqb_refl).
  f_equal. unfold card.
  assert (Hz : N.clearbit (2 ^ N.of_nat e) (N.of_nat e) = 0%N).
  { apply N.bits_inj. intros k. rewrite N.clearbit_eqb, N.pow2_bits_eqb, N.bits_0.
    destruct (N.of_nat e =? k)%N; reflexivity. }
  rewrite Hz. unfold members.
  assert (H : forall l, List.filter (mem 0) l = []).
  { induction l as [|x l IH]; simpl; [reflexivity | assumption]. }
  rewrite H. reflexivity.
Qed.

Lemma pow2_lt_pow2 (m e : nat) : (e < m)%nat -> (2 ^ N.of_nat e < 2 ^ N.of_nat m)%N.
Proof. intros H. apply N.pow_lt_mono_r; lia. Qed.

Lemma mem_Full (g : IGraph) (v : nat) :
  mem (Full g) v = (v <? getVertexCount g - 1)%nat.
Proof.
  unfold mem, Full. destruct (Nat.ltb_spec v (getVertexCount g - 1)).
  - apply N.ones_spec_low. lia.
  - apply N.ones_spec_high. lia.
Qed.

Lemma Full_lt (g : IGraph) : (Full g < 2 ^ N.of_nat (getVertexCount g - 1))%N.
Proof.
  unfold Full. rewrite N.ones_equiv. apply N.lt_pred_l.
  apply N.pow_nonzero. discriminate.
Qed.

Lemma Full_eq (g : IGraph) : (2 ^ N.of_nat (getVertexCount g - 1) - 1)%N = Full g.
Proof. unfold Full. rewrite N.ones_equiv, N.sub_1_r. reflexivity. Qed.

Lemma members_Full (g : IGraph) :
  members (getVertexCount g - 1) (Full g) = seq 0 (getVertexCount g - 1).
Proof.
  unfold members.
  assert (H : forall l, (forall v, In v l -> (v < getVertexCount g - 1)%nat) ->
                        List.filter (mem (Full g)) l = l).
  { induction l as [|x l IH]; intros Hl; simpl; [reflexivity |].
    rewrite mem_Full. destruct (Nat.ltb_spec x (getVertexCount g - 1)).
    - f_equal. apply IH. intros v Hv. apply Hl. right. assumption.
    - specialize (Hl x (or_introl eq_refl)). lia. }
  apply H. intros v Hv. apply in_seq in Hv. lia.
Qed.

Lemma card_Full (g : IGraph) :
  card (getVertexCount g - 1) (Full g) = (getVertexCount g - 1)%nat.
Proof. unfold card. rewrite members_Full. apply length_seq. Qed.

(** *** The recurrence *)

Lemma dp_singleton (g : IGraph) (j : nat) (s : N) :
  card (getVertexCount g - 1) s = 1%nat -> dp g j s = getEdgeParameter g (origin g) j.
Proof. intros H. unfold dp. rewrite H. reflexivity. Qed.

Lemma dp_step (g : IGraph) (j : nat) (s : N) :
  (j < getVertexCount g - 1)%nat -> mem s j = true ->
  (2 <= card (getVertexCount g - 1) s)%nat ->
  dp g j s =
  min_over (members (getVertexCount g - 1) (N.clearbit s (N.of_nat j)))
    (fun q => dp g q (N.clearbit s (N.of_nat j)) + getEdgeParameter g q j).
Proof.
  intros Hj Hmem Hcard. unfold dp.
  rewrite (card_clearbit _ s j Hj Hmem) in *.
  destruct (card (getVertexCount g - 1) (N.clearbit s (N.of_nat j))) as [|c]; [lia |].
  simpl. rewrite Nat.sub_0_r. reflexivity.
Qed.

Lemma card_le (m : nat) (s : N) : (card m s <= m)%nat.
Proof.
  unfold card, members. etransitivity; [apply List.filter_length_le |].
  rewrite length_seq. reflexivity.
Qed.

Lemma card_pos (m : nat) (s : N) (e : nat) :
  (e < m)%nat -> mem s e = true -> (1 <= card m s)%nat.
Proof. intros He Hmem. rewrite (card_clearbit m s e He Hmem). lia. Qed.

Lemma extends_refl (s : N) (st : DPState) : extends s st st.
Proof. split; [auto |]. split; [auto |]. exists []. reflexivity. Qed.

Lemma extends_trans (s1 s2 s : N) (st st1 st2 : DPState) :
  (s1 <= s)%N -> (s2 <= s)%N ->
  extends s1 st st1 -> extends s2 st1 st2 -> extends s st st2.
Proof.
  intros H1 H2 (Hm1 & Hf1 & new1 & Hw1) (Hm2 & Hf2 & new2 & Hw2).
  split; [| split].
  - intros e k v Hv Hne. apply Hm2; [| assumption]. apply Hm1; assumption.
  - intros e k Hk. rewrite Hf2, Hf1 by lia. reflexivity.
  - exists (new2 ++ new1). rewrite Hw2, Hw1, app_assoc. reflexivity.
Qed.

Section HeldKarp.

Variable g : IGraph.
Variable W : Z.
Hypothesis Hwf : well_formed g.
Hypothesis Hbound : bounded_by g W.

Local Abbreviation n := (getVertexCount g).
Local Abbreviation m := (getVertexCount g - 1)%nat.

Lemma weight_range (a b : nat) :
  (a < n)%nat -> (b < n)%nat -> a <> b -> 0 <= getEdgeParameter g a b <= W.
Proof using Hwf Hbound.
  intros Ha Hb Hne. destruct Hwf as [_ Hpos]. destruct Hbound as [Hw _].
  split; [apply Hpos | apply Hw]; assumption.
Qed.

Lemma dp_bounds (c : nat) :
  forall (j : nat) (s : N),
    (j < m)%nat -> mem s j = true -> card m s = S c ->
    0 <= dp g j s <= Z.of_nat (card m s) * W.
Proof using Hwf Hbound.
  induction c as [|c IH]; intros j s Hj Hmem Hcard.
  - rewrite dp_singleton, Hcard by assumption.
    pose proof (weight_range (origin g) j) as H. unfold origin in H.
    destruct Hwf as [Hn _]. specialize (H ltac:(lia) ltac:(lia) ltac:(lia)).
    unfold origin. lia.
  - rewrite dp_step by (try assumption; lia).
    pose proof (card_clearbit m s j Hj Hmem) as Hc.
    assert (Hc' : card m (N.clearbit s (N.of_nat j)) = S c) by lia.
    apply min_over_bounds.
    + intros Hnil. unfold card in Hc'. rewrite Hnil in Hc'. discriminate.
    + intros q Hq. apply members_clearbit_spec in Hq as [Hq Hqj].
      apply members_spec in Hq as [Hqm Hqs].
      assert (Hqs' : mem (N.clearbit s (N.of_nat j)) q = true).
      { rewrite mem_clearbit, Hqs. simpl. apply negb_true_iff, Nat.eqb_neq. congruence. }
      pose proof (IH q _ Hqm Hqs' Hc') as Hdp. rewrite Hc' in Hdp.
      pose proof (weight_range q j ltac:(lia) ltac:(lia) Hqj).
      rewrite Hcard. nia.
Qed.

Lemma index_lt (s : N) :
  (s < 2 ^ N.of_nat m)%N -> (N.to_nat s < N.to_nat (2 ^ N.of_nat m))%nat.
Proof using Type. lia. Qed.

(** The save at the end of the [if] of [dpGetPartialPathCost]. *)
Lemma save_ok (st : DPState) (e : nat) (s : N) :
  state_ok g st -> (e < m)%nat -> (s < 2 ^ N.of_nat m)%N -> mem s e = true ->
  cell (partialPathCostTable st) e (N.to_nat s) = Some (-1) ->
  exists table',
    mset (partialPathCostTable st) e (N.to_nat s) (dp g e s) = Done table' /\
    cell table' e (N.to_nat s) = Some (dp g e s) /\
    let st' := {| partialPathCostTable := table';
                  writes := {| write_end := e; write_set := s;
                               write_old := -1; write_new := dp g e s |} :: writes st |} in
    state_ok g st' /\ extends s st st'.
Proof using Hwf Hbound.
  intros [(Hrect & Hval & Hsingle) (Hnd & Hlog)] He Hs Hmem Hcell.
  destruct Hwf as [Hn _].
  destruct (mset_rect n _ (partialPathCostTable st) e (N.to_nat s) (dp g e s) Hrect)
    as (table' & E & Hrect' & Hnew & Hother); [lia | apply index_lt; assumption |].
  exists table'. split; [assumption |]. split; [assumption |].
  assert (Hdp : dp g e s <> -1).
  { pose proof (card_pos m s e He Hmem) as Hc.
    pose proof (dp_bounds (card m s - 1) e s He Hmem ltac:(lia)) as Hb.
    pose proof (weight_range 0 1 ltac:(lia) ltac:(lia) ltac:(lia)). nia. }
  assert (Hsame : forall e' s', (e', N.to_nat s') = (e, N.to_nat s) -> e' = e /\ s' = s).
  { intros e' s' Heq. inversion Heq as [[He' Hs']]. split; [reflexivity |].
    apply N2Nat.inj. assumption. }
  cbn zeta. split; [split; [split; [| split] | split] | split; [| split]];
    cbn [partialPathCostTable writes].
  - assumption.
  - intros e' s' v He' Hs' Hv Hne.
    destruct (decide ((e', N.to_nat s') = (e, N.to_nat s))) as [Heq | Hneq].
    + apply Hsame in Heq as [-> ->]. rewrite Hnew in Hv. inversion Hv. auto.
    + rewrite Hother in Hv by assumption. apply Hval; assumption.
  - intros e' He'.
    destruct (decide ((e', N.to_nat (2 ^ N.of_nat e')) = (e, N.to_nat s))) as [Heq | Hneq].
    + apply Hsame in Heq as [-> <-]. rewrite (Hsingle e He) in Hcell. inversion Hcell as [Hw].
      pose proof (weight_range (origin g) e) as H. unfold origin in *.
      specialize (H ltac:(lia) ltac:(lia) ltac:(lia)). lia.
    + rewrite Hother by assumption. apply Hsingle. assumption.
  - simpl. constructor; [| assumption].
    intros Hin. apply list_elem_of_In, in_map_iff in Hin as (wr & Hkey & Hwr).
    rewrite Forall_forall in Hlog. apply list_elem_of_In in Hwr.
    destruct (Hlog wr Hwr) as (_ & _ & _ & Hne & Hc).
    unfold write_key in Hkey. inversion Hkey as [[Hke Hks]].
    rewrite Hke, Hks, Hcell in Hc. inversion Hc. congruence.
  - constructor; cbn [write_end write_set write_old write_new].
    + do 4 (split; [auto |]). assumption.
    + rewrite Forall_forall in Hlog |- *. intros wr Hwr.
      destruct (Hlog wr Hwr) as (H1 & H2 & H3 & H4 & H5).
      do 4 (split; [assumption |]). rewrite Hother; [assumption |].
      intros Heq. apply Hsame in Heq as [Hke Hks].
      rewrite Hke, Hks, Hcell in H5. inversion H5. congruence.
  - intros e' k v Hv Hne.
    destruct (decide ((e', k) = (e, N.to_nat s))) as [Heq | Hneq].
    + inversion Heq; subst. rewrite Hcell in Hv. inversion Hv. congruence.
    + rewrite Hother by assumption. assumption.
  - intros e' k Hk. apply Hother. intros Heq. inversion Heq. lia.
  - eexists [_]. reflexivity.
Qed.

Hypothesis Hsize : (getVertexCount g <= 32)%nat.

(** A cost that the loops add up: the value of a state plus one edge. *)
Lemma cost_range (q e : nat) (s : N) :
  (q < m)%nat -> mem s q = true -> (e < n)%nat -> q <> e ->
  0 <= dp g q s + getEdgeParameter g q e <= INT_MAX.
Proof using Hwf Hbound.
  clear Hsize. intros Hq Hmem He Hne.
  pose proof (card_pos m s q Hq Hmem) as Hc. pose proof (card_le m s) as Hc'.
  pose proof (dp_bounds (card m s - 1) q s Hq Hmem ltac:(lia)) as Hb.
  pose proof (weight_range q e ltac:(lia) He Hne) as Hw.
  destruct Hbound as [_ Hfit]. nia.
Qed.

Lemma cost_int_add (q e : nat) (s : N) :
  (q < m)%nat -> mem s q = true -> (e < n)%nat -> q <> e ->
  int_add (dp g q s) (getEdgeParameter g q e) = dp g q s + getEdgeParameter g q e.
Proof using Hwf Hbound.
  clear Hsize. intros Hq Hmem He Hne. apply to_int_id.
  pose proof (cost_range q e s Hq Hmem He Hne). unfold is_int, INT_MIN, INT_MAX in *. lia.
Qed.

(** A call of [dpGetPartialPathCost] on a state [(e, s)] with [e] in [s]
    returns [dp[e][s]] with fuel [|s|], and keeps the cache and its history
    in order. *)
Lemma dp_call (fuel : nat) :
  forall (s : N) (e : nat) (st : DPState),
    state_ok g st -> (e < m)%nat -> (s < 2 ^ N.of_nat m)%N -> mem s e = true ->
    (card m s <= fuel)%nat ->
    exists st', dpGetPartialPathCost fuel g s e st = Done (dp g e s, st') /\
      state_ok g st' /\ extends s st st'.
Proof using Hwf Hbound Hsize.
  induction fuel as [|fuel IH]; intros s e st Hok He Hs Hmem Hfuel.
  { pose proof (card_pos m s e He Hmem). lia. }
  pose proof Hwf as [Hn _].
  pose proof Hok as [(Hrect & Hval & Hsingle) _].
  destruct (cell_rect _ _ _ e (N.to_nat s) Hrect) as [v Hv];
    [lia | apply index_lt; assumption |].
  cbn [dpGetPartialPathCost].
  rewrite (proj2 (mget_cell _ _ _ _) Hv). cbn [mbind outcome_bind].
  destruct (Z.eqb_spec v (-1)) as [-> | Hcached].
  2: { exists st. destruct (Hval e s v He Hs Hv Hcached) as [_ ->].
       split; [reflexivity |]. split; [assumption | apply extends_refl]. }
  rewrite shl1u_Done by lia. cbn [mbind outcome_bind].
  rewrite land_not_u_clearbit by (pose proof (pow2_le_32 m ltac:(lia)); lia).
  set (s' := N.clearbit s (N.of_nat e)).
  assert (Hs' : (s' < 2 ^ N.of_nat m)%N) by (apply clearbit_lt_pow2; assumption).
  assert (Hs's : (s' < s)%N) by (apply clearbit_lt; assumption).
  assert (Hne : s <> (2 ^ N.of_nat e)%N).
  { intros ->. rewrite (Hsingle e He) in Hv. inversion Hv as [Hw].
    pose proof (weight_range (origin g) e) as H. unfold origin in *.
    specialize (H ltac:(lia) ltac:(lia) ltac:(lia)). lia. }
  assert (Hmem' : members m s' <> []) by (apply members_clearbit_nonempty; assumption).
  assert (Hcard : card m s = S (card m s')) by (apply card_clearbit; assumption).
  assert (Hin' : forall q, In q (members m s') -> (q < m)%nat /\ mem s' q = true /\ q <> e).
  { intros q Hq. pose proof Hq as Hq'. apply members_clearbit_spec in Hq' as [_ Hqe].
    apply members_spec in Hq as [Hq1 Hq2]. auto. }
  set (f := fun q => dp g q s' + getEdgeParameter g q e).
  match goal with |- context [for_range 0 ?c ?body ?s0] =>
    destruct (for_range_total
      (fun k (acc : Z * DPState) =>
         state_ok g acc.2 /\ extends s' st acc.2 /\
         acc.1 = fold_left (fun a q => Z.min a (f q)) (members k s') INT_MAX)
      body c 0%nat s0) as ([best st2] & E & Hok2 & Hext2 & Hbest)
  end.
  - split; [assumption |]. split; [apply extends_refl | reflexivity].
  - intros k [best st1] [_ Hk] (Hok1 & Hext1 & Hbest1). cbn [fst snd] in *. simpl in Hk.
    rewrite shl1u_Done by lia. cbn [mbind outcome_bind].
    rewrite land_bit_mem, members_S.
    destruct (mem s' k) eqn:Hmk; cbn [negb].
    + destruct (IH s' k st1 Hok1 Hk Hs' Hmk ltac:(lia)) as (st2 & E2 & Hok2 & Hext2).
      rewrite E2. cbn [mbind outcome_bind fst snd].
      eexists. split; [reflexivity |]. cbn [fst snd].
      split; [assumption |].
      split; [apply (extends_trans s' s' s' st st1 st2); auto; lia |].
      rewrite fold_left_app. cbn [fold_left]. rewrite <- Hbest1, ltb_min. f_equal.
      apply cost_int_add; try assumption; [lia |].
      intros ->. subst s'. rewrite mem_clearbit, Nat.eqb_refl, andb_false_r in Hmk.
      discriminate.
    + eexists. split; [reflexivity |]. rewrite app_nil_r. auto.
  - rewrite E. cbn [mbind outcome_bind]. cbn [fst snd] in *.
    assert (Hbest' : best = dp g e s).
    { rewrite Hbest. cbn [Nat.add]. rewrite fold_min_INT_MAX; [| assumption |].
      - symmetry. apply dp_step; [assumption | assumption |].
        assert (1 <= card m s')%nat; [| lia].
        unfold card. destruct (members m s'); [congruence | simpl; lia].
      - intros q Hq. destruct (Hin' q Hq) as (Hq1 & Hq2 & Hq3).
        apply (cost_range q e s' Hq1 Hq2); [lia | assumption]. }
    clear Hbest. subst best.
    assert (Hcell2 : cell (partialPathCostTable st2) e (N.to_nat s) = Some (-1)).
    { destruct Hext2 as (_ & Hframe & _). rewrite Hframe by lia. exact Hv. }
    destruct (save_ok st2 e s Hok2 He Hs Hmem Hcell2) as (table' & Eset & Hread & Hok3 & Hext3).
    rewrite (proj2 (mget_cell _ _ _ _) Hcell2). cbn [mbind outcome_bind].
    rewrite Eset. cbn [mbind outcome_bind].
    rewrite (proj2 (mget_cell _ _ _ _) Hread). cbn [mbind outcome_bind].
    eexists. split; [reflexivity |]. split; [exact Hok3 |].
    apply (extends_trans s' s s st st2 _); [lia | lia | assumption | exact Hext3].
Qed.

End HeldKarp.

(** *** Initialisation of the cache *)

Lemma dpInitTable_spec (g : IGraph) :
  (1 <= getVertexCount g <= 32)%nat ->
  exists t0, dpInitTable g = Done t0 /\
    rect (getVertexCount g) (N.to_nat (2 ^ N.of_nat (getVertexCount g - 1))) t0 /\
    forall e k, (e < getVertexCount g - 1)%nat ->
      (k < N.to_nat (2 ^ N.of_nat (getVertexCount g - 1)))%nat ->
      cell t0 e k = Some (if (k =? N.to_nat (2 ^ N.of_nat e))%nat
                          then getEdgeParameter g (getVertexCount g - 1) e else -1).
Proof.
  intros Hn. unfold dpInitTable.
  destruct (getVertexCount g) as [|n'] eqn:En; [lia |]. rewrite <- En in *.
  set (n := getVertexCount g) in *. set (m := (n - 1)%nat).
  rewrite shl1u_Done by lia. cbn [mbind outcome_bind].
  set (cols := N.to_nat (2 ^ N.of_nat m)).
  set (init := fun e k => if (k =? N.to_nat (2 ^ N.of_nat e))%nat
                          then getEdgeParameter g m e else -1).
  match goal with |- context [for_range 0 ?c ?body ?s0] =>
    destruct (for_range_total
      (fun v t => rect n cols t /\
         forall e k, (e < v)%nat -> (k < cols)%nat -> cell t e k = Some (init e k))
      body c 0%nat s0) as (t0 & E & Hrect & Hinit)
  end.
  - split; [apply rect_repeat | intros; lia].
  - intros v t [_ Hv] [Hrect Hdone]. simpl in Hv.
    destruct (for_range_total
      (fun k t' => rect n cols t' /\
         (forall e k', (e < v)%nat -> (k' < cols)%nat -> cell t' e k' = Some (init e k')) /\
         forall k', (k' < k)%nat -> cell t' v k' = Some (-1))
      (fun pathSet t => mset t v pathSet (-1)) cols 0%nat t)
      as (t1 & E1 & Hrect1 & Hdone1 & Hrow1).
    + split; [assumption |]. split; [assumption | intros; lia].
    + intros k t' [_ Hk] (Hr' & Hd' & Hrow'). simpl in Hk.
      destruct (mset_rect n cols t' v k (-1) Hr') as (t'' & E'' & Hr'' & Hc'' & Ho'');
        [lia | assumption |].
      exists t''. split; [assumption |]. split; [assumption |]. split.
      * intros e k' He Hk'. rewrite Ho''; [auto |]. intros Heq. inversion Heq. lia.
      * intros k' Hk'. destruct (decide (k' = k)) as [-> | Hne]; [assumption |].
        rewrite Ho''; [apply Hrow'; lia |]. intros Heq. inversion Heq. lia.
    + rewrite E1. cbn [mbind outcome_bind]. rewrite shl1u_Done by lia.
      cbn [mbind outcome_bind].
      assert (Hbit : (N.to_nat (2 ^ N.of_nat v) < cols)%nat).
      { subst cols. pose proof (pow2_lt_pow2 m v Hv). lia. }
      destruct (mset_rect n cols t1 v (N.to_nat (2 ^ N.of_nat v))
                  (getEdgeParameter g m v) Hrect1) as (t2 & E2 & Hr2 & Hc2 & Ho2);
        [lia | assumption |].
      exists t2. split; [assumption |]. split; [assumption |].
      intros e k He Hk. destruct (decide (e = v)) as [-> | Hev].
      * unfold init. destruct (Nat.eqb_spec k (N.to_nat (2 ^ N.of_nat v))) as [-> | Hkv].
        -- assumption.
        -- rewrite Ho2; [apply Hrow1; assumption |]. intros Heq. inversion Heq. lia.
      * rewrite Ho2; [apply Hdone1; [lia | assumption] |]. intros Heq. inversion Heq. lia.
  - exists t0. split; [assumption |]. split; [assumption |]. exact Hinit.
Qed.

Lemma dpInitTable_state_ok (g : IGraph) (t0 : matrix) :
  (1 <= getVertexCount g <= 32)%nat -> dpInitTable g = Done t0 ->
  state_ok g {| partialPathCostTable := t0; writes := [] |}.
Proof.
  intros Hn E. destruct (dpInitTable_spec g Hn) as (t & E' & Hrect & Hinit).
  rewrite E in E'. inversion E'; subst t. clear E'.
  assert (Hidx : forall s : N, (s < 2 ^ N.of_nat (getVertexCount g - 1))%N ->
            (N.to_nat s < N.to_nat (2 ^ N.of_nat (getVertexCount g - 1)))%nat) by lia.
  split; [split; [| split] | split]; cbn [partialPathCostTable writes].
  - assumption.
  - intros e s v He Hs Hv Hne. rewrite Hinit in Hv by auto.
    destruct (Nat.eqb_spec (N.to_nat s) (N.to_nat (2 ^ N.of_nat e))) as [Heq | _];
      [| inversion Hv; congruence].
    apply N2Nat.inj in Heq. subst s. inversion Hv; subst v.
    split; [rewrite mem_pow2; apply Nat.eqb_refl |].
    rewrite dp_singleton by (apply card_pow2; assumption). reflexivity.
  - intros e He. rewrite Hinit; [| assumption | apply Hidx, pow2_lt_pow2; assumption].
    rewrite Nat.eqb_refl. reflexivity.
  - simpl. constructor.
  - constructor.
Qed.

(** *** The run of dynamicProgrammingHeldKarp *)

Lemma heldKarpRun_spec (g : IGraph) (W : Z) (fuel : nat) :
  well_formed g -> bounded_by g W -> (getVertexCount g <= 32)%nat ->
  (getVertexCount g - 1 <= fuel)%nat ->
  exists st, heldKarpRun fuel g = Done (heldKarp_answer g, st) /\ state_ok g st.
Proof.
  intros Hwf Hbound Hsize Hfuel. pose proof Hwf as [Hn _].
  destruct (dpInitTable_spec g ltac:(lia)) as (t0 & E0 & _).
  pose proof (dpInitTable_state_ok g t0 ltac:(lia) E0) as Hok0.
  unfold heldKarpRun. rewrite E0. cbn [mbind outcome_bind].
  rewrite shl1u_Done by lia. cbn [mbind outcome_bind]. rewrite Full_eq.
  set (F := fun j => dp g j (Full g) + getEdgeParameter g j (origin g)).
  assert (HF : forall j, (j < getVertexCount g - 1)%nat ->
            mem (Full g) j = true /\ j <> origin g /\ (origin g < getVertexCount g)%nat).
  { intros j Hj. rewrite mem_Full. unfold origin.
    split; [apply Nat.ltb_lt; assumption | lia]. }
  match goal with |- context [for_range 0 ?c ?body ?s0] =>
    destruct (for_range_total
      (fun k (acc : Z * DPState) =>
         state_ok g acc.2 /\
         acc.1 = fold_left (fun a j => Z.min a (F j)) (seq 0 k) INT_MAX)
      body c 0%nat s0) as ([best st] & E & Hok & Hbest)
  end.
  - split; [assumption | reflexivity].
  - intros k [best st] [_ Hk] [Hok Hbest]. cbn [fst snd] in *. simpl in Hk.
    destruct (HF k Hk) as (Hmem & Hne & Ho).
    destruct (dp_call g W Hwf Hbound Hsize fuel (Full g) k st Hok Hk (Full_lt g) Hmem)
      as (st' & E' & Hok' & _); [rewrite card_Full; assumption |].
    rewrite E'. cbn [mbind outcome_bind fst snd].
    eexists. split; [reflexivity |]. cbn [fst snd]. split; [assumption |].
    rewrite seq_S, fold_left_app. cbn [fold_left Nat.add]. rewrite <- Hbest, ltb_min.
    f_equal. apply (cost_int_add g W Hwf Hbound); assumption.
  - cbn [fst snd Nat.add] in *. exists st. split; [| assumption].
    rewrite E. do 2 f_equal. rewrite Hbest. unfold heldKarp_answer.
    apply fold_min_INT_MAX.
    + intros Hnil. apply (f_equal (@length nat)) in Hnil.
      rewrite length_seq in Hnil. simpl in Hnil. lia.
    + intros j Hj. apply in_seq in Hj. destruct (HF j ltac:(lia)) as (Hmem & Hne & Ho).
      apply (cost_range g W Hwf Hbound); [lia | assumption | assumption | assumption].
Qed.

(** *** The recurrence computes the cheapest path *)

Lemma chain_cost_snoc (g : IGraph) (l : list nat) (a b : nat) :
  chain_cost g (l ++ [a; b]) = chain_cost g (l ++ [a]) + getEdgeParameter g a b.
Proof.
  induction l as [|x l IH]; [simpl; lia |].
  destruct l as [|y l]; [simpl; lia |].
  change (chain_cost g ((x :: y :: l) ++ [a; b]))
    with (getEdgeParameter g x y + chain_cost g ((y :: l) ++ [a; b])).
  change (chain_cost g ((x :: y :: l) ++ [a]))
    with (getEdgeParameter g x y + chain_cost g ((y :: l) ++ [a])).
  rewrite IH. lia.
Qed.

Lemma path_length (g : IGraph) (s : N) (j : nat) (p : list nat) :
  is_path g s j p -> length p = card (getVertexCount g - 1) s.
Proof.
  intros (Hnd & Hin & _). unfold card. apply Permutation_length, NoDup_Permutation.
  - assumption.
  - apply members_NoDup.
  - intros v. rewrite !list_elem_of_In, members_spec. apply Hin.
Qed.

(** Removing the end vertex of a path leaves a path of the smaller set. *)
Lemma path_init (g : IGraph) (s : N) (j k : nat) (q : list nat) :
  is_path g s j ((q ++ [k]) ++ [j]) ->
  is_path g (N.clearbit s (N.of_nat j)) k (q ++ [k]) /\
  (k < getVertexCount g - 1)%nat /\ mem (N.clearbit s (N.of_nat j)) k = true /\ k <> j.
Proof.
  intros (Hnd & Hin & _).
  apply NoDup_app in Hnd as (Hnd1 & Hdisj & _).
  assert (Hj : forall v, In v (q ++ [k]) -> v <> j).
  { intros v Hv ->. apply (Hdisj j); [apply list_elem_of_In; assumption | left]. }
  assert (Hin' : forall v, In v (q ++ [k]) <->
            (v < getVertexCount g - 1)%nat /\ mem (N.clearbit s (N.of_nat j)) v = true).
  { intros v. rewrite mem_clearbit, andb_true_iff, negb_true_iff, Nat.eqb_neq.
    split.
    - intros Hv. pose proof (Hj v Hv).
      destruct (proj1 (Hin v)) as [H1 H2]; [apply in_or_app; left; assumption |].
      repeat split; auto.
    - intros (H1 & H2 & H3). pose proof (proj2 (Hin v) (conj H1 H2)) as Hv.
      apply in_app_or in Hv as [Hv | [<- | []]]; [assumption | congruence]. }
  assert (Hk : In k (q ++ [k])) by (apply in_or_app; right; left; reflexivity).
  split; [split; [assumption | split; [assumption | eauto]] |].
  destruct (proj1 (Hin' k) Hk) as [H1 H2]. auto.
Qed.

Lemma dp_attained (g : IGraph) (c : nat) :
  forall (j : nat) (s : N),
    (j < getVertexCount g - 1)%nat -> mem s j = true ->
    card (getVertexCount g - 1) s = S c ->
    exists p, is_path g s j p /\ chain_cost g (origin g :: p) = dp g j s.
Proof.
  induction c as [|c IH]; intros j s Hj Hmem Hcard.
  - exists [j]. split; [| rewrite dp_singleton by assumption; simpl; lia].
    split; [apply NoDup_singleton |]. split; [| exists []; reflexivity].
    intros v. split.
    + intros [<- | []]. auto.
    + intros [Hv Hvs]. left.
      assert (Hjm : In j (members (getVertexCount g - 1) s)) by (apply members_spec; auto).
      assert (Hvm : In v (members (getVertexCount g - 1) s)) by (apply members_spec; auto).
      unfold card in Hcard.
      destruct (members (getVertexCount g - 1) s) as [|x [|y l]]; try discriminate.
      destruct Hjm as [<- | []], Hvm as [<- | []]. reflexivity.
  - rewrite dp_step by (try assumption; lia).
    pose proof (card_clearbit _ s j Hj Hmem) as Hc.
    set (s' := N.clearbit s (N.of_nat j)) in *.
    assert (Hc' : card (getVertexCount g - 1) s' = S c) by lia.
    destruct (min_over_attained
                (fun q => dp g q s' + getEdgeParameter g q j)
                (members (getVertexCount g - 1) s')) as (k & Hk & ->).
    { intros Hnil. unfold card in Hc'. rewrite Hnil in Hc'. discriminate. }
    apply members_spec in Hk as [Hk Hks].
    destruct (IH k s' Hk Hks Hc') as (p & (Hnd & Hin & q & ->) & Hcost).
    exists ((q ++ [k]) ++ [j]). split.
    + assert (Hjp : ~ In j (q ++ [k])).
      { intros Hjp. apply Hin in Hjp as [_ Hjs]. subst s'.
        rewrite mem_clearbit, Nat.eqb_refl, andb_false_r in Hjs. discriminate. }
      split; [| split; [| eauto]].
      * apply NoDup_app. split; [assumption |]. split; [| apply NoDup_singleton].
        intros v Hv Hvj. apply list_elem_of_singleton in Hvj. subst v.
        apply Hjp, list_elem_of_In. assumption.
      * intros v. rewrite in_app_iff, Hin. subst s'.
        rewrite mem_clearbit, andb_true_iff, negb_true_iff, Nat.eqb_neq. simpl.
        split.
        -- intros [(H1 & H2 & _) | [<- | []]]; auto.
        -- intros [H1 H2]. destruct (decide (v = j)) as [-> | Hne]; [auto |].
           left. repeat split; auto.
    + rewrite <- Hcost, <- app_assoc. cbn [app].
      apply (chain_cost_snoc g (origin g :: q) k j).
Qed.

Lemma dp_lower (g : IGraph) (c : nat) :
  forall (j : nat) (s : N) (p : list nat),
    (j < getVertexCount g - 1)%nat -> mem s j = true ->
    card (getVertexCount g - 1) s = S c ->
    is_path g s j p ->
    dp g j s <= chain_cost g (origin g :: p).
Proof.
  induction c as [|c IH]; intros j s p Hj Hmem Hcard Hp.
  - pose proof (path_length g s j p Hp) as Hlen. rewrite Hcard in Hlen.
    destruct Hp as (_ & _ & q & ->). rewrite length_app in Hlen. simpl in Hlen.
    destruct q; [| simpl in Hlen; lia].
    rewrite dp_singleton by assumption. simpl. lia.
  - pose proof (path_length g s j p Hp) as Hlen. rewrite Hcard in Hlen.
    pose proof Hp as (_ & _ & q & ->). rewrite length_app in Hlen. simpl in Hlen.
    destruct (exists_last (l := q)) as (q' & k & ->).
    { intros ->. simpl in Hlen. lia. }
    destruct (path_init g s j k q' Hp) as (Hp' & Hk & Hks & Hkj).
    pose proof (card_clearbit _ s j Hj Hmem) as Hc.
    specialize (IH k _ _ Hk Hks ltac:(lia) Hp').
    rewrite dp_step by (try assumption; lia).
    etransitivity.
    + apply (min_over_le _ _ k). apply members_spec. auto.
    + cbn beta. rewrite <- app_assoc. cbn [app].
      change (origin g :: q' ++ [k; j]) with ((origin g :: q') ++ [k; j]).
      rewrite chain_cost_snoc.
      change ((origin g :: q') ++ [k]) with (origin g :: q' ++ [k]). lia.
Qed.

Lemma tour_is_path (g : IGraph) (q : list nat) (j : nat) :
  is_tour g (q ++ [j]) <-> is_path g (Full g) j (q ++ [j]).
Proof.
  unfold is_tour, is_path. split.
  - intros Hp. split; [rewrite Hp; apply NoDup_seq |]. split; [| eauto].
    intros v. rewrite mem_Full, Nat.ltb_lt. split.
    + intros Hv. apply (Permutation_in _ Hp), in_seq in Hv. lia.
    + intros [Hv _]. apply (Permutation_in _ (Permutation_sym Hp)), in_seq. lia.
  - intros (Hnd & Hin & _). apply NoDup_Permutation; [assumption | apply NoDup_seq |].
    intros v. rewrite !list_elem_of_In, Hin, mem_Full, Nat.ltb_lt, in_seq. lia.
Qed.

Lemma tour_cost_snoc (g : IGraph) (q : list nat) (j : nat) :
  tour_cost g (q ++ [j]) =
  chain_cost g (origin g :: q ++ [j]) + getEdgeParameter g j (origin g).
Proof.
  unfold tour_cost. rewrite <- app_assoc. cbn [app].
  apply (chain_cost_snoc g (origin g :: q) j (origin g)).
Qed.

(** The answer of the recurrence is the minimum Hamiltonian cycle cost. *)
Lemma heldKarp_answer_optimum (g : IGraph) :
  (2 <= getVertexCount g)%nat -> is_optimum g (heldKarp_answer g).
Proof.
  intros Hn. unfold heldKarp_answer.
  set (m := (getVertexCount g - 1)%nat).
  set (F := fun j => dp g j (Full g) + getEdgeParameter g j (origin g)).
  assert (Hcard : card m (Full g) = S (m - 1)) by (subst m; rewrite card_Full; lia).
  assert (Hmem : forall j, (j < m)%nat -> mem (Full g) j = true).
  { intros j Hj. rewrite mem_Full. apply Nat.ltb_lt. assumption. }
  split.
  - destruct (min_over_attained F (seq 0 m)) as (j & Hj & ->).
    { intros Hnil. apply (f_equal (@length nat)) in Hnil.
      rewrite length_seq in Hnil. simpl in Hnil. lia. }
    apply in_seq in Hj.
    destruct (dp_attained g (m - 1) j (Full g) ltac:(lia) (Hmem j ltac:(lia)) Hcard)
      as (p & Hp & Hcost).
    pose proof Hp as (_ & _ & q & ->).
    exists (q ++ [j]). split; [apply tour_is_path; assumption |].
    rewrite tour_cost_snoc, Hcost. reflexivity.
  - intros perm Hperm.
    destruct (exists_last (l := perm)) as (q & j & ->).
    { intros ->. apply Permutation_length in Hperm.
      rewrite length_seq in Hperm. simpl in Hperm. lia. }
    assert (Hj : (j < m)%nat).
    { assert (Hin : In j (q ++ [j])) by (apply in_or_app; right; left; reflexivity).
      apply (Permutation_in _ Hperm), in_seq in Hin. lia. }
    apply tour_is_path in Hperm.
    pose proof (dp_lower g (m - 1) j (Full g) _ Hj (Hmem j Hj) Hcard Hperm) as Hlow.
    rewrite tour_cost_snoc.
    pose proof (min_over_le F (seq 0 m) j) as Hmin.
    specialize (Hmin ltac:(apply in_seq; lia)). unfold F in Hmin at 2. lia.
Qed.

(** *** Termination of the recursion, whatever the weights *)

Lemma dp_terminates (g : IGraph) (fuel : nat) :
  (getVertexCount g <= 32)%nat ->
  forall (s : N) (e : nat) (st : DPState),
    rect (getVertexCount g) (N.to_nat (2 ^ N.of_nat (getVertexCount g - 1)))
         (partialPathCostTable st) ->
    (e < getVertexCount g - 1)%nat -> (s < 2 ^ N.of_nat (getVertexCount g - 1))%N ->
    mem s e = true -> (card (getVertexCount g - 1) s <= fuel)%nat ->
    exists r, dpGetPartialPathCost fuel g s e st = Done r /\
      rect (getVertexCount g) (N.to_nat (2 ^ N.of_nat (getVertexCount g - 1)))
           (partialPathCostTable r.2).
Proof.
  intros Hsize. set (m := (getVertexCount g - 1)%nat).
  induction fuel as [|fuel IH]; intros s e st Hrect He Hs Hmem Hfuel.
  { pose proof (card_pos m s e He Hmem). lia. }
  assert (Hidx : (N.to_nat s < N.to_nat (2 ^ N.of_nat m))%nat) by lia.
  destruct (mget_rect _ _ _ e (N.to_nat s) Hrect) as [v Hv]; [lia | assumption |].
  cbn [dpGetPartialPathCost]. rewrite Hv. cbn [mbind outcome_bind].
  destruct (v =? -1); [| eexists; split; [reflexivity | assumption]].
  rewrite shl1u_Done by lia. cbn [mbind outcome_bind].
  rewrite land_not_u_clearbit by (pose proof (pow2_le_32 m ltac:(lia)); lia).
  set (s' := N.clearbit s (N.of_nat e)).
  assert (Hs' : (s' < 2 ^ N.of_nat m)%N) by (apply clearbit_lt_pow2; assumption).
  pose proof (card_clearbit m s e He Hmem) as Hcard. fold s' in Hcard.
  match goal with |- context [for_range 0 ?c ?body ?s0] =>
    destruct (for_range_total
      (fun (_ : nat) (acc : Z * DPState) =>
         rect (getVertexCount g) (N.to_nat (2 ^ N.of_nat m)) (partialPathCostTable acc.2))
      body c 0%nat s0) as ([best st2] & E & Hrect2)
  end.
  - assumption.
  - intros k [best st1] [_ Hk] Hrect1. cbn [fst snd] in *. simpl in Hk.
    rewrite shl1u_Done by lia. cbn [mbind outcome_bind]. rewrite land_bit_mem.
    destruct (mem s' k) eqn:Hmk; cbn [negb].
    + destruct (IH s' k st1 Hrect1 Hk Hs' Hmk ltac:(lia)) as (r & Er & Hr).
      rewrite Er. cbn [mbind outcome_bind]. eexists. split; [reflexivity | assumption].
    + eexists. split; [reflexivity | assumption].
  - rewrite E. cbn [mbind outcome_bind]. cbn [fst snd] in *.
    destruct (mget_rect _ _ _ e (N.to_nat s) Hrect2) as [old Hold]; [lia | assumption |].
    rewrite Hold. cbn [mbind outcome_bind].
    destruct (mset_rect _ _ (partialPathCostTable st2) e (N.to_nat s) best Hrect2)
      as (table' & Eset & Hrect' & Hread & _); [lia | assumption |].
    rewrite Eset. cbn [mbind outcome_bind].
    rewrite (proj2 (mget_cell _ _ _ _) Hread). cbn [mbind outcome_bind].
    eexists. split; [reflexivity | assumption].
Qed.

Lemma heldKarpRun_terminates (g : IGraph) (fuel : nat) :
  (1 <= getVertexCount g <= 32)%nat -> (getVertexCount g - 1 <= fuel)%nat ->
  exists r, heldKarpRun fuel g = Done r.
Proof.
  intros Hn Hfuel.
  destruct (dpInitTable_spec g Hn) as (t0 & E0 & Hrect0 & _).
  unfold heldKarpRun. rewrite E0. cbn [mbind outcome_bind].
  rewrite shl1u_Done by lia. cbn [mbind outcome_bind]. rewrite Full_eq.
  match goal with |- context [for_range 0 ?c ?body ?s0] =>
    destruct (for_range_total
      (fun (_ : nat) (acc : Z * DPState) =>
         rect (getVertexCount g) (N.to_nat (2 ^ N.of_nat (getVertexCount g - 1)))
              (partialPathCostTable acc.2))
      body c 0%nat s0) as (r & E & _)
  end.
  - assumption.
  - intros k [best st] [_ Hk] Hrect. cbn [fst snd] in *. simpl in Hk.
    destruct (dp_terminates g fuel ltac:(lia) (Full g) k st Hrect Hk (Full_lt g))
      as (r & Er & Hr).
    { rewrite mem_Full. apply Nat.ltb_lt. assumption. }
    { rewrite card_Full. assumption. }
    rewrite Er. cbn [mbind outcome_bind]. eexists. split; [reflexivity | assumption].
  - exists r. assumption.
Qed.

Lemma heldKarpRun_oversized (g : IGraph) (fuel : nat) :
  (32 < getVertexCount g)%nat -> heldKarpRun fuel g = Undefined.
Proof.
  intros Hn. unfold heldKarpRun, dpInitTable.
  destruct (getVertexCount g) as [|n'] eqn:En; [lia |].
  unfold shl1u. destruct (Nat.ltb_spec (S n' - 1) 32); [lia |]. reflexivity.
Qed.

(** ** branchAndBound: lemmas *)

(** *** Root construction of branchAndBound *)

Lemma bbInitCell_spec (g : IGraph) (n : nat) (d : matrix) (i j : nat) :
  rect n n d -> (i < n)%nat -> (j < n)%nat ->
  exists d', bbInitCell g i j d = Done d' /\ rect n n d' /\
    cell d' i j = Some (getEdgeParameter g i j) /\
    forall i' j', (i', j') <> (i, j) -> cell d' i' j' = cell d i' j'.
Proof.
  intros Hd Hi Hj. unfold bbInitCell.
  destruct (i =? j)%nat.
  - destruct (mset_rect n n d i j INT_MAX Hd Hi Hj) as (d1 & E1 & R1 & _ & O1).
    rewrite E1. cbn.
    destruct (mset_rect n n d1 i j (getEdgeParameter g i j) R1 Hi Hj)
      as (d2 & E2 & R2 & C2 & O2).
    exists d2. do 3 (split; [assumption |]).
    intros i' j' Hne. rewrite O2, O1 by assumption. reflexivity.
  - cbn. apply mset_rect; assumption.
Qed.

Lemma bbRootDistances_weight_matrix (g : IGraph) :
  bbRootDistances g = Done (weight_matrix g).
Proof.
  unfold bbRootDistances. set (n := getVertexCount g).
  destruct (for_range_total
    (fun i d => rect n n d /\
       forall i' j, (i' < i)%nat -> (j < n)%nat ->
         cell d i' j = Some (getEdgeParameter g i' j))
    (fun i d => for_range 0 n (fun j d => bbInitCell g i j d) d)
    n 0 (distances (newBBNodeData n 0))) as (d & E & Hd & Hcells).
  - split; [apply rect_repeat | intros; lia].
  - intros i d [_ Hi] [Hd Hrows].
    destruct (for_range_total
      (fun j d => rect n n d /\
         (forall i' j', (i' < i)%nat -> (j' < n)%nat ->
            cell d i' j' = Some (getEdgeParameter g i' j')) /\
         forall j', (j' < j)%nat -> cell d i j' = Some (getEdgeParameter g i j'))
      (fun j d => bbInitCell g i j d) n 0 d) as (d' & E' & Hd' & Hrows' & Hrow').
    + split; [assumption |]. split; [assumption | intros; lia].
    + intros j d1 [_ Hj] (Hd1 & Hrows1 & Hrow1).
      destruct (bbInitCell_spec g n d1 i j Hd1) as (d2 & E2 & R2 & C2 & O2); [lia | lia |].
      exists d2. do 2 (split; [assumption |]). split.
      * intros i' j' Hi' Hj'. rewrite O2; [auto |]. intros Heq. inversion Heq. lia.
      * intros j' Hj'. destruct (decide (j' = j)) as [-> | Hne]; [assumption |].
        rewrite O2; [apply Hrow1; lia |]. intros Heq. inversion Heq. lia.
    + exists d'. split; [assumption |]. split; [assumption |].
      intros i' j Hi' Hj. destruct (decide (i' = i)) as [-> | Hne].
      * apply Hrow'. assumption.
      * apply Hrows'; [lia | assumption].
  - rewrite E. f_equal. apply (matrix_ext n n); [assumption | apply rect_weight_matrix |].
    intros i j Hi Hj. rewrite Hcells by lia. symmetry. apply cell_weight_matrix; assumption.
Qed.

(** *** Reduction of one cell and of one line of the matrix *)

Lemma bbReduceCell_spec (n : nat) (minimum : Z) (i j : nat) (r : Reduction) (x : Z) :
  rect n n (red_distances r) -> (i < n)%nat -> (j < n)%nat ->
  cell (red_distances r) i j = Some x ->
  exists r', bbReduceCell minimum i j r = Done r' /\
    rect n n (red_distances r') /\
    red_lowerBound r' = red_lowerBound r /\
    cell (red_distances r') i j = Some (reduced minimum x) /\
    (forall i' j', (i', j') <> (i, j) ->
       cell (red_distances r') i' j' = cell (red_distances r) i' j') /\
    exists extra, matrixZeroes r' = matrixZeroes r ++ extra /\
      Forall (zero_in_range n) extra /\
      (x <> INT_MAX -> int_sub x minimum = 0 -> In (zero_entry i j) extra).
Proof.
  intros Hd Hi Hj Hx. unfold bbReduceCell, reduced.
  apply mget_cell in Hx as Hget. rewrite Hget. cbn [mbind outcome_bind].
  destruct (Z.eqb_spec x INT_MAX) as [-> | Hfin].
  - exists r. do 3 (split; [auto |]). split; [assumption |]. split; [auto |].
    exists []. rewrite app_nil_r. split; [reflexivity |].
    split; [constructor | congruence].
  - destruct (mset_rect n n (red_distances r) i j (int_sub x minimum) Hd Hi Hj)
      as (d' & E & Hd' & Hc & Ho).
    rewrite E. cbn [mbind outcome_bind].
    apply mget_cell in Hc as Hget'. rewrite Hget'. cbn [mbind outcome_bind].
    eexists. split; [reflexivity |]. cbn [red_distances red_lowerBound matrixZeroes].
    do 4 (split; [auto |]).
    destruct (Z.eqb_spec (int_sub x minimum) 0) as [E0 | N0].
    + eexists. split; [reflexivity |]. split; [| intros _ _; left; reflexivity].
      constructor; [split; assumption | constructor].
    + exists []. rewrite app_nil_r. split; [reflexivity |].
      split; [constructor | intros _ H0; contradiction].
Qed.

(** A loop that reduces the cells [(a k, b k)] for [k] below [n]: a row or a
    column. *)
Lemma reduce_line (n : nat) (minimum : Z) (a b : nat -> nat) (r : Reduction) :
  rect n n (red_distances r) ->
  (forall k, (k < n)%nat -> (a k < n)%nat /\ (b k < n)%nat) ->
  (forall k k', (k < n)%nat -> (k' < n)%nat -> (a k, b k) = (a k', b k') -> k = k') ->
  exists r', for_range 0 n (fun k r => bbReduceCell minimum (a k) (b k) r) r = Done r' /\
    rect n n (red_distances r') /\
    red_lowerBound r' = red_lowerBound r /\
    (forall k x, (k < n)%nat -> cell (red_distances r) (a k) (b k) = Some x ->
       cell (red_distances r') (a k) (b k) = Some (reduced minimum x)) /\
    (forall i' j', (forall k, (k < n)%nat -> (i', j') <> (a k, b k)) ->
       cell (red_distances r') i' j' = cell (red_distances r) i' j') /\
    exists extra, matrixZeroes r' = matrixZeroes r ++ extra /\
      Forall (zero_in_range n) extra /\
      (forall k x, (k < n)%nat -> cell (red_distances r) (a k) (b k) = Some x ->
         x <> INT_MAX -> int_sub x minimum = 0 -> In (zero_entry (a k) (b k)) extra).
Proof.
  intros Hd Hrange Hinj.
  destruct (for_range_total
    (fun m r' =>
       rect n n (red_distances r') /\
       red_lowerBound r' = red_lowerBound r /\
       (forall k x, (k < m)%nat -> cell (red_distances r) (a k) (b k) = Some x ->
          cell (red_distances r') (a k) (b k) = Some (reduced minimum x)) /\
       (forall i' j', (forall k, (k < m)%nat -> (i', j') <> (a k, b k)) ->
          cell (red_distances r') i' j' = cell (red_distances r) i' j') /\
       exists extra, matrixZeroes r' = matrixZeroes r ++ extra /\
         Forall (zero_in_range n) extra /\
         (forall k x, (k < m)%nat -> cell (red_distances r) (a k) (b k) = Some x ->
            x <> INT_MAX -> int_sub x minimum = 0 -> In (zero_entry (a k) (b k)) extra))
    (fun k r => bbReduceCell minimum (a k) (b k) r) n 0 r) as (r' & E & H).
  - split; [assumption |]. split; [reflexivity |]. split; [intros; lia |].
    split; [reflexivity |]. exists []. rewrite app_nil_r. split; [reflexivity |].
    split; [constructor |]. intros k x Hk. lia.
  - intros m r1 [_ Hm] (Hd1 & Hlb1 & Hdone1 & Hrest1 & extra1 & Hz1 & Hin1 & Hne1).
    simpl in Hm. destruct (Hrange m Hm) as [Ha Hb].
    destruct (cell_rect n n (red_distances r) (a m) (b m) Hd Ha Hb) as [x Hx].
    assert (Hx1 : cell (red_distances r1) (a m) (b m) = Some x).
    { rewrite Hrest1; [assumption |]. intros k Hk Heq. apply Hinj in Heq; lia. }
    destruct (bbReduceCell_spec n minimum (a m) (b m) r1 x Hd1 Ha Hb Hx1)
      as (r2 & E2 & Hd2 & Hlb2 & Hc2 & Ho2 & extra2 & Hz2 & Hin2 & Hne2).
    exists r2. split; [assumption |]. split; [assumption |].
    split; [congruence |]. split; [| split].
    + intros k y Hk Hy. destruct (decide (k = m)) as [-> | Hkm].
      * rewrite Hx in Hy. inversion Hy; subst. assumption.
      * rewrite Ho2; [apply Hdone1; [lia | assumption] |].
        intros Heq. apply Hinj in Heq; lia.
    + intros i' j' Hout. rewrite Ho2; [apply Hrest1 |].
      * intros k Hk. apply Hout. lia.
      * apply Hout. lia.
    + exists (extra1 ++ extra2). split; [rewrite Hz2, Hz1, app_assoc; reflexivity |].
      split; [apply Forall_app; split; assumption |].
      intros k y Hk Hy Hfin H0. apply in_or_app.
      destruct (decide (k = m)) as [-> | Hkm].
      * rewrite Hx in Hy. inversion Hy; subst. right. apply Hne2; assumption.
      * left. apply (Hne1 k y); [lia | assumption | assumption | assumption].
  - exists r'. split; [assumption |]. simpl in H. exact H.
Qed.

(** *** Reduction of a row *)

Lemma bbReduceRow_spec (n i : nat) (r : Reduction) :
  rect n n (red_distances r) -> (i < n)%nat ->
  exists m r',
    (exists j0, (j0 < n)%nat /\ cell (red_distances r) i j0 = Some m) /\
    (forall j x, cell (red_distances r) i j = Some x -> m <= x) /\
    bbReduceRow n i r = Done r' /\
    rect n n (red_distances r') /\
    (m = INT_MAX -> r' = r) /\
    (m <> INT_MAX ->
       red_lowerBound r' = int_add (red_lowerBound r) m /\
       (forall j x, cell (red_distances r) i j = Some x ->
          cell (red_distances r') i j = Some (reduced m x)) /\
       matrixZeroes r' <> [] /\
       exists j0, (j0 < n)%nat /\ In (zero_entry i j0) (matrixZeroes r')) /\
    (forall i' j', i' <> i -> cell (red_distances r') i' j' = cell (red_distances r) i' j') /\
    exists extra, matrixZeroes r' = matrixZeroes r ++ extra /\ Forall (zero_in_range n) extra.
Proof.
  intros Hd Hi. pose proof Hd as [Hrows Hcols].
  destruct (lookup_lt_is_Some_2 (red_distances r) i) as [row Hrow]; [lia |].
  pose proof (Hcols i row Hrow) as Hlen.
  destruct (min_element_spec row) as (m & Em & Hin & Hle).
  { intros ->. simpl in Hlen. lia. }
  assert (Hcell : forall j, cell (red_distances r) i j = row !! j).
  { intros j. unfold cell. rewrite Hrow. reflexivity. }
  assert (Hj0 : exists j0, (j0 < n)%nat /\ cell (red_distances r) i j0 = Some m).
  { apply list_elem_of_In, list_elem_of_lookup in Hin as [j0 Hj0].
    exists j0. split; [| rewrite Hcell; assumption].
    apply lookup_lt_Some in Hj0. lia. }
  assert (Hmin : forall j x, cell (red_distances r) i j = Some x -> m <= x).
  { intros j x Hx. rewrite Hcell in Hx. apply Hle.
    apply list_elem_of_In, list_elem_of_lookup. eauto. }
  exists m. unfold bbReduceRow.
  assert (Hget : vget (red_distances r) i = Done row) by (apply vget_Done; assumption).
  rewrite Hget. cbn [mbind outcome_bind]. rewrite Em. cbn [mbind outcome_bind].
  destruct (Z.eqb_spec m INT_MAX) as [Hinf | Hfin].
  - exists r. do 5 (split; [auto |]). split; [intros; contradiction |].
    split; [auto |]. exists []. rewrite app_nil_r. split; [reflexivity | constructor].
  - destruct (reduce_line n m (fun _ => i) (fun j => j) r Hd)
      as (r' & E & Hd' & Hlb & Hline & Hrest & extra & Hz & Hin' & Hne).
    { intros k Hk. split; assumption. }
    { intros k k' _ _ Heq. inversion Heq. reflexivity. }
    rewrite E. cbn [mbind outcome_bind].
    exists (bbAddToBound m r'). cbn [bbAddToBound red_distances red_lowerBound matrixZeroes].
    do 4 (split; [auto |]). split; [intros; contradiction |].
    split; [| split].
    + intros _. split; [rewrite Hlb; reflexivity |]. split.
      * intros j x Hx. apply Hline; [| assumption].
        rewrite Hcell in Hx. apply lookup_lt_Some in Hx. lia.
      * destruct Hj0 as (j0 & Hj0 & Hc0).
        assert (Hrec : In (zero_entry i j0) extra).
        { apply (Hne j0 m); auto. apply int_sub_diag. }
        split; [| exists j0; split; [assumption |]; rewrite Hz; apply in_or_app; auto].
        rewrite Hz. destruct (matrixZeroes r), extra; simpl; try congruence.
        destruct Hrec.
    + intros i' j' Hne'. apply Hrest. intros k _ Heq. inversion Heq. contradiction.
    + exists extra. split; assumption.
Qed.

(** *** Reduction of a column *)

Lemma cell_Some_lt (n : nat) (d : matrix) (i j : nat) (x : Z) :
  rect n n d -> cell d i j = Some x -> (i < n)%nat /\ (j < n)%nat.
Proof.
  intros [Hr Hc] H. unfold cell in H.
  destruct (d !! i) as [row|] eqn:Hrow; [| discriminate].
  apply lookup_lt_Some in Hrow as Hi. apply lookup_lt_Some in H.
  rewrite (Hc i row Hrow) in H. lia.
Qed.

Lemma bbColumnMinimum_spec (n : nat) (d : matrix) (j : nat) :
  rect n n d -> (j < n)%nat ->
  exists m, bbColumnMinimum n d j = Done m /\
    (exists i0, (i0 < n)%nat /\ cell d i0 j = Some m) /\
    (forall i x, cell d i j = Some x -> m <= x).
Proof.
  intros Hd Hj. unfold bbColumnMinimum.
  destruct (cell_rect n n d 0 j Hd) as [x0 Hx0]; [lia | assumption |].
  apply mget_cell in Hx0 as Hget. rewrite Hget. cbn [mbind outcome_bind].
  destruct (for_range_total
    (fun i m => (exists i0, (i0 < i)%nat /\ cell d i0 j = Some m) /\
                forall i' x, (i' < i)%nat -> cell d i' j = Some x -> m <= x)
    (fun i columnMinimum =>
       x ← mget d i j; Done (if x <? columnMinimum then x else columnMinimum))
    (n - 1) 1 x0) as (m & E & (i0 & Hi0 & Hm) & Hle).
  - split; [exists 0%nat; split; [lia | assumption] |].
    intros i' x Hi' Hx. assert (i' = 0%nat) as -> by lia.
    rewrite Hx0 in Hx. inversion Hx. lia.
  - intros i m [Hi1 Hi2] [(i0 & Hi0 & Hm) Hle].
    destruct (cell_rect n n d i j Hd) as [x Hx]; [lia | assumption |].
    apply mget_cell in Hx as Hgetx. rewrite Hgetx. cbn [mbind outcome_bind].
    eexists. split; [reflexivity |].
    destruct (Z.ltb_spec x m) as [Hlt | Hge].
    + split; [exists i; split; [lia | assumption] |].
      intros i' y Hi' Hy. destruct (decide (i' = i)) as [-> | Hne].
      * rewrite Hx in Hy. inversion Hy. lia.
      * specialize (Hle i' y ltac:(lia) Hy). lia.
    + split; [exists i0; split; [lia | assumption] |].
      intros i' y Hi' Hy. destruct (decide (i' = i)) as [-> | Hne].
      * rewrite Hx in Hy. inversion Hy. lia.
      * apply (Hle i' y); [lia | assumption].
  - exists m. split; [assumption |].
    replace (1 + (n - 1))%nat with n in * by lia.
    split; [eauto |]. intros i x Hx. apply (Hle i x); [| assumption].
    apply (cell_Some_lt n d i j x Hd Hx).
Qed.

Lemma bbReduceColumn_spec (n j : nat) (r : Reduction) :
  rect n n (red_distances r) -> (j < n)%nat ->
  exists m r',
    (exists i0, (i0 < n)%nat /\ cell (red_distances r) i0 j = Some m) /\
    (forall i x, cell (red_distances r) i j = Some x -> m <= x) /\
    bbReduceColumn n j r = Done r' /\
    rect n n (red_distances r') /\
    (m = INT_MAX \/ m = 0 -> r' = r) /\
    (m <> INT_MAX -> m <> 0 ->
       red_lowerBound r' = int_add (red_lowerBound r) m /\
       (forall i x, cell (red_distances r) i j = Some x ->
          cell (red_distances r') i j = Some (reduced m x))) /\
    (forall i' j', j' <> j -> cell (red_distances r') i' j' = cell (red_distances r) i' j') /\
    exists extra, matrixZeroes r' = matrixZeroes r ++ extra /\ Forall (zero_in_range n) extra.
Proof.
  intros Hd Hj.
  destruct (bbColumnMinimum_spec n (red_distances r) j Hd Hj) as (m & Em & Hi0 & Hmin).
  exists m. unfold bbReduceColumn. rewrite Em. cbn [mbind outcome_bind].
  destruct (Z.eqb_spec m INT_MAX) as [Hinf | Hfin]; cbn [orb].
  - exists r. do 5 (split; [auto |]). split; [intros; contradiction |].
    split; [auto |]. exists []. rewrite app_nil_r. split; [reflexivity | constructor].
  - destruct (Z.eqb_spec m 0) as [H0 | Hn0].
    + exists r. do 5 (split; [auto |]). split; [intros; contradiction |].
      split; [auto |]. exists []. rewrite app_nil_r. split; [reflexivity | constructor].
    + destruct (reduce_line n m (fun i => i) (fun _ => j) r Hd)
        as (r' & E & Hd' & Hlb & Hline & Hrest & extra & Hz & Hin' & Hne).
      { intros k Hk. split; assumption. }
      { intros k k' _ _ Heq. inversion Heq. reflexivity. }
      rewrite E. cbn [mbind outcome_bind].
      exists (bbAddToBound m r').
      cbn [bbAddToBound red_distances red_lowerBound matrixZeroes].
      do 4 (split; [auto |]). split; [intros [|]; contradiction |].
      split; [| split].
      * intros _ _. split; [rewrite Hlb; reflexivity |].
        intros i x Hx. apply Hline; [| assumption].
        apply (cell_Some_lt n _ i j x Hd Hx).
      * intros i' j' Hne'. apply Hrest. intros k _ Heq. inversion Heq. contradiction.
      * exists extra. split; assumption.
Qed.

(** *** Penalties and the choice of the branching cell *)

Lemma bbPenalties_total (n : nat) (d : matrix) (zero : EdgeCities) :
  rect n n d -> (edge_i zero < n)%nat -> (edge_j zero < n)%nat ->
  exists p, bbPenalties n d zero = Done p.
Proof.
  intros Hd Hi Hj. unfold bbPenalties.
  destruct (for_range_total (fun _ (_ : Z) => True)
    (fun j rowMinimum =>
       x ← mget d (edge_i zero) j;
       Done (if (x <? rowMinimum) && negb (j =? edge_j zero)%nat then x else rowMinimum))
    n 0 INT_MAX) as (rm & Erm & _); [exact I | |].
  { intros j m [_ Hjn] _. simpl in Hjn.
    destruct (mget_rect n n d (edge_i zero) j Hd Hi Hjn) as [x Hx].
    rewrite Hx. cbn [mbind outcome_bind]. eauto. }
  rewrite Erm. cbn [mbind outcome_bind].
  destruct (for_range_total (fun _ (_ : Z) => True)
    (fun i columnMinimum =>
       x ← mget d i (edge_j zero);
       Done (if (x <? columnMinimum) && negb (i =? edge_i zero)%nat then x else columnMinimum))
    n 0 INT_MAX) as (cm & Ecm & _); [exact I | |].
  { intros i m [_ Hin] _. simpl in Hin.
    destruct (mget_rect n n d i (edge_j zero) Hd Hin Hj) as [x Hx].
    rewrite Hx. cbn [mbind outcome_bind]. eauto. }
  rewrite Ecm. cbn [mbind outcome_bind]. eauto.
Qed.

Lemma bbAllPenalties_total (n : nat) (d : matrix) (zeroes : ZeroList) :
  rect n n d -> Forall (zero_in_range n) zeroes ->
  exists out, bbAllPenalties n d zeroes = Done out /\ length out = length zeroes.
Proof.
  intros Hd Hz. unfold bbAllPenalties.
  enough (forall done : ZeroList, exists out,
    for_each zeroes (fun zero done => p ← bbPenalties n d zero.1; Done (done ++ [(zero.1, p)]))
      done = Done out /\ length out = (length done + length zeroes)%nat) as H.
  { destruct (H []) as (out & E & Hlen). exists out. split; assumption. }
  induction Hz as [|zero zeroes [Hi Hj] Hz IH]; intros done; simpl.
  - exists done. split; [reflexivity | lia].
  - destruct (bbPenalties_total n d zero.1 Hd Hi Hj) as [p Hp].
    rewrite Hp. cbn [mbind outcome_bind].
    destruct (IH (done ++ [(zero.1, p)])) as (out & E & Hlen).
    exists out. split; [assumption |]. rewrite Hlen, length_app. simpl. lia.
Qed.

Lemma max_element_total {A : Type} (less : A -> A -> bool) (l : list A) :
  l <> [] -> exists x, max_element less l = Done x.
Proof. destruct l; [congruence |]. intros _. simpl. eauto. Qed.

(** Once the two reduction loops have recorded a zero, the rest of
    [bbCalculateLowerBoundAndDesignateHighestZeroPenalty] is defined. *)
Lemma bbCalculate_after_reduce (n : nat) (nodeData : BBNodeData) (r : Reduction) :
  length (distances nodeData) = n ->
  bbReduce nodeData = Done r ->
  rect n n (red_distances r) ->
  Forall (zero_in_range n) (matrixZeroes r) ->
  matrixZeroes r <> [] ->
  exists node, bbCalculateLowerBoundAndDesignateHighestZeroPenalty nodeData = Done node /\
    lowerBound node = red_lowerBound r /\ distances node = red_distances r.
Proof.
  intros Hn Er Hd Hin Hne. unfold bbCalculateLowerBoundAndDesignateHighestZeroPenalty.
  rewrite Er, Hn. cbn [mbind outcome_bind].
  destruct (bbAllPenalties_total n (red_distances r) (matrixZeroes r) Hd Hin)
    as (zs & Ez & Hlen).
  rewrite Ez. cbn [mbind outcome_bind].
  destruct (max_element_total penaltyLess zs) as [z Hz].
  { intros ->. simpl in Hlen. destruct (matrixZeroes r); [congruence | discriminate]. }
  rewrite Hz. cbn [mbind outcome_bind]. eexists. split; [reflexivity |]. split; reflexivity.
Qed.

(** *** The reduction loops record a zero *)

Lemma app_not_nil {A : Type} (l extra : list A) : l <> [] -> l ++ extra <> [].
Proof. destruct l; [congruence | discriminate]. Qed.

Lemma bbReduce_records_zero (n : nat) (nodeData : BBNodeData) :
  rect n n (distances nodeData) -> (1 <= n)%nat ->
  (forall i, (i < n)%nat ->
     exists j x, cell (distances nodeData) i j = Some x /\ x < INT_MAX) ->
  exists r, bbReduce nodeData = Done r /\
    rect n n (red_distances r) /\
    Forall (zero_in_range n) (matrixZeroes r) /\
    matrixZeroes r <> [] /\
    forall i, (i < n)%nat -> exists j, (j < n)%nat /\ In (zero_entry i j) (matrixZeroes r).
Proof.
  intros Hd Hn Hfin. unfold bbReduce.
  pose proof Hd as [Hlen _]. rewrite Hlen.
  destruct (for_range_total
    (fun i r => rect n n (red_distances r) /\
                Forall (zero_in_range n) (matrixZeroes r) /\
                (forall i' j, (i <= i')%nat ->
                   cell (red_distances r) i' j = cell (distances nodeData) i' j) /\
                forall i', (i' < i)%nat ->
                  exists j, (j < n)%nat /\ In (zero_entry i' j) (matrixZeroes r))
    (bbReduceRow n) n 0
    {| red_distances := distances nodeData;
       red_lowerBound := lowerBound nodeData;
       matrixZeroes := [] |}) as (r1 & E1 & Hd1 & Hin1 & _ & Hrec1).
  - cbn [red_distances matrixZeroes]. split; [assumption |]. split; [constructor |].
    split; [reflexivity | intros; lia].
  - intros i r [_ Hi] (Hdr & Hinr & Hsame & Hrec). simpl in Hi.
    destruct (bbReduceRow_spec n i r Hdr Hi)
      as (m & r' & _ & Hmin & E & Hd' & _ & Hred & Hother & extra & Hz & Hex).
    exists r'. split; [assumption |]. split; [assumption |].
    split; [rewrite Hz; apply Forall_app; split; assumption |].
    split.
    + intros i' j Hi'. rewrite Hother by lia. apply Hsame. lia.
    + intros i' Hi'. destruct (decide (i' = i)) as [-> | Hne].
      * destruct (Hfin i Hi) as (j & x & Hx & Hlt).
        rewrite <- (Hsame i j (Nat.le_refl i)) in Hx. specialize (Hmin j x Hx).
        apply Hred. lia.
      * destruct (Hrec i' ltac:(lia)) as (j & Hj & Hin).
        exists j. split; [assumption |]. rewrite Hz. apply in_or_app. auto.
  - rewrite E1. cbn [mbind outcome_bind]. cbn [Nat.add] in Hrec1.
    destruct (for_range_total
      (fun (_ : nat) r => rect n n (red_distances r) /\
                  Forall (zero_in_range n) (matrixZeroes r) /\
                  forall i, (i < n)%nat ->
                    exists j, (j < n)%nat /\ In (zero_entry i j) (matrixZeroes r))
      (bbReduceColumn n) n 0 r1) as (r2 & E2 & Hd2 & Hin2 & Hrec2).
    + split; [assumption |]. split; assumption.
    + intros j r [_ Hj] (Hdr & Hinr & Hrec). simpl in Hj.
      destruct (bbReduceColumn_spec n j r Hdr Hj)
        as (m & r' & _ & _ & E & Hd' & _ & _ & _ & extra & Hz & Hex).
      exists r'. split; [assumption |]. split; [assumption |].
      rewrite Hz. split; [apply Forall_app; split; assumption |].
      intros i Hi. destruct (Hrec i Hi) as (j' & Hj' & Hin).
      exists j'. split; [assumption |]. apply in_or_app. auto.
    + exists r2. do 3 (split; [assumption |]). split; [| assumption].
      destruct (Hrec2 0%nat ltac:(lia)) as (j & _ & Hin). intros Hnil.
      rewrite Hnil in Hin. destruct Hin.
Qed.

Lemma bbInitNode_spec (g : IGraph) :
  exists initNode, bbInitNode g = Done initNode /\
    distances initNode = weight_matrix g /\ lowerBound initNode = 0.
Proof.
  unfold bbInitNode. rewrite bbRootDistances_weight_matrix. cbn [mbind outcome_bind].
  eexists. split; [reflexivity |]. split; reflexivity.
Qed.

(** *** The root bound of branchAndBound *)

Section RootBound.

Variable g : IGraph.
Variable W : Z.
Hypothesis Hwf : well_formed g.
Hypothesis Hbound : bounded_by g W.
Hypothesis Hdiag : diagonal_fits g W.

Local Abbreviation n := (getVertexCount g).

Lemma W_range : 0 <= W < INT_MAX.
Proof using Hwf Hbound.
  destruct Hwf as [Hn Hpos]. destruct Hbound as [Hw Hfit].
  assert (0 <= W).
  { specialize (Hpos 0%nat 1%nat). specialize (Hw 0%nat 1%nat). lia. }
  unfold INT_MAX in *. split; [assumption | nia].
Qed.

Lemma entry_range (a b : nat) :
  (a < n)%nat -> (b < n)%nat ->
  getEdgeParameter g a b = INT_MAX \/ - W <= getEdgeParameter g a b < INT_MAX.
Proof using Hwf Hbound Hdiag.
  intros Ha Hb. destruct (decide (a = b)) as [-> | Hne].
  - specialize (Hdiag b Hb). lia.
  - right. destruct Hwf as [Hn Hpos]. destruct Hbound as [Hw Hfit].
    specialize (Hpos a b Ha Hb Hne). specialize (Hw a b Ha Hb Hne).
    unfold INT_MAX in *. nia.
Qed.

Lemma off_diagonal_finite (a b : nat) :
  (a < n)%nat -> (b < n)%nat -> a <> b -> getEdgeParameter g a b <> INT_MAX.
Proof using Hwf Hbound.
  intros Ha Hb Hne. destruct Hbound as [Hw _]. specialize (Hw a b Ha Hb Hne).
  pose proof W_range. lia.
Qed.

Lemma nW_range : 2 * W <= Z.of_nat n * W /\ Z.of_nat n * W <= INT_MAX.
Proof using Hwf Hbound.
  pose proof W_range. destruct Hwf as [Hn _]. destruct Hbound as [_ Hfit]. nia.
Qed.

Lemma row_step (i : nat) (r : Reduction) :
  (i < n)%nat -> row_invariant g W i r ->
  exists r', bbReduceRow n i r = Done r' /\ row_invariant g W (S i) r'.
Proof using Hwf Hbound Hdiag.
  intros Hi (Hd & Hin & Hne & rv & Hrv0 & Hrvb & Hlb & Hlbb & Hred & Hfeas).
  pose proof W_range as HW. pose proof nW_range as HnW.
  destruct (bbReduceRow_spec n i r Hd Hi)
    as (m & r' & (j0 & Hj0 & Hm) & Hmin & E & Hd' & _ & Hfin & Hother & extra & Hz & Hex).
  assert (Hrow : forall b, (b < n)%nat -> cell (red_distances r) i b =
            Some (if getEdgeParameter g i b =? INT_MAX then INT_MAX
                  else getEdgeParameter g i b)).
  { intros b Hb. rewrite (Hred i b Hi Hb), (Hrv0 i) by lia.
    destruct (getEdgeParameter g i b =? INT_MAX); [reflexivity | f_equal; lia]. }
  assert (HmW : m <= W).
  { set (b0 := if decide (i = 0%nat) then 1%nat else 0%nat).
    assert (Hb0 : (b0 < n)%nat /\ i <> b0).
    { destruct Hwf as [Hn _]. subst b0. destruct (decide (i = 0%nat)); lia. }
    destruct Hb0 as [Hb0 Hib0].
    pose proof (Hrow b0 Hb0) as Hc.
    pose proof (off_diagonal_finite i b0 Hi Hb0 Hib0) as Hf.
    destruct (Z.eqb_spec (getEdgeParameter g i b0) INT_MAX); [contradiction |].
    apply Hmin in Hc. destruct Hbound as [Hw _]. specialize (Hw i b0 Hi Hb0 Hib0). lia. }
  assert (Hmfin : m <> INT_MAX) by lia.
  assert (HmW' : - W <= m).
  { rewrite (Hrow j0 Hj0) in Hm. inversion Hm as [Hm'].
    destruct (Z.eqb_spec (getEdgeParameter g i j0) INT_MAX); [lia |].
    destruct (entry_range i j0 Hi Hj0); lia. }
  assert (Hsub : forall b, (b < n)%nat -> getEdgeParameter g i b <> INT_MAX ->
            0 <= getEdgeParameter g i b - m < INT_MAX).
  { intros b Hb Hf. pose proof (Hmin b _ (Hrow b Hb)) as Hle.
    destruct (Z.eqb_spec (getEdgeParameter g i b) INT_MAX); [contradiction |].
    split; [lia |].
    destruct (entry_range i b Hi Hb) as [| Hrange]; [contradiction |].
    destruct (Z.le_gt_cases 0 m) as [Hm0 | Hm0]; [lia |].
    rewrite (Hrow j0 Hj0) in Hm. inversion Hm as [Hm'].
    destruct (Z.eqb_spec (getEdgeParameter g i j0) INT_MAX); [lia |].
    destruct (decide (b = i)) as [-> | Hbi].
    - destruct (decide (j0 = i)) as [-> | Hj0i]; [lia |].
      destruct Hwf as [_ Hpos]. specialize (Hpos i j0 Hi Hj0 ltac:(congruence)). lia.
    - destruct Hbound as [Hw _]. specialize (Hw i b Hi Hb ltac:(congruence)).
      unfold INT_MAX in *. lia. }
  destruct (Hfin Hmfin) as (Hlb' & Hline & Hne' & _).
  exists r'. split; [assumption |].
  split; [assumption |]. split; [rewrite Hz; apply Forall_app; split; assumption |].
  split; [intros _; assumption |].
  exists (update rv i m).
  assert (Hadd : int_add (red_lowerBound r) m = red_lowerBound r + m).
  { apply to_int_id. unfold is_int, INT_MIN, INT_MAX in *. nia. }
  split; [| split; [| split; [| split; [| split]]]].
  - intros k Hk. unfold update. destruct (Nat.eqb_spec k i); [lia | apply Hrv0; lia].
  - intros k. unfold update. destruct (Nat.eqb_spec k i); [lia | apply Hrvb].
  - rewrite Hlb', Hadd, sum_over_update_seq, Hlb, (Hrv0 i) by lia. lia.
  - rewrite Hlb', Hadd. nia.
  - intros a b Ha Hb. destruct (decide (a = i)) as [-> | Hai].
    + rewrite (Hline b _ (Hrow b Hb)). f_equal. unfold reduced, update.
      rewrite Nat.eqb_refl.
      destruct (Z.eqb_spec (getEdgeParameter g i b) INT_MAX) as [Hinf | Hf].
      * rewrite Z.eqb_refl. reflexivity.
      * destruct (Z.eqb_spec (getEdgeParameter g i b) INT_MAX); [contradiction |].
        pose proof (Hsub b Hb Hf) as Hrange.
        unfold int_sub. rewrite to_int_id; [lia |].
        unfold is_int, INT_MIN, INT_MAX in *. lia.
    + rewrite Hother by assumption. rewrite (Hred a b Ha Hb). unfold update.
      destruct (Nat.eqb_spec a i); [contradiction | reflexivity].
  - intros a b Ha Hb Hf. unfold update.
    destruct (Nat.eqb_spec a i) as [-> | Hai].
    + pose proof (Hsub b Hb Hf). lia.
    + apply Hfeas; [lia | assumption | assumption].
Qed.

Lemma potentials_le_INT_MAX (rv cv : nat -> Z) :
  feasible_below g n rv cv ->
  sum_over (seq 0 n) rv + sum_over (seq 0 n) cv <= INT_MAX.
Proof using Hwf Hbound.
  intros Hfeas. pose proof Hwf as [Hn _].
  assert (Htour : is_tour g (seq 0 (n - 1))) by (unfold is_tour; reflexivity).
  pose proof (tour_cost_bounds g W _ Hwf Hbound Htour) as [_ Hub].
  pose proof (tour_cost_potentials g rv cv (seq 0 (n - 1)) Hn) as Hlb.
  etransitivity; [apply Hlb | exact Hub]; [| assumption].
  intros a b Ha Hb Hne.
  pose proof (Hfeas a b Ha Hb (off_diagonal_finite a b Ha Hb Hne)). lia.
Qed.

Lemma column_step (rv : nat -> Z) (j : nat) (r : Reduction) :
  (forall k, - W <= rv k <= W) ->
  (j < n)%nat -> column_invariant g rv j r ->
  exists r', bbReduceColumn n j r = Done r' /\ column_invariant g rv (S j) r'.
Proof using Hwf Hbound Hdiag.
  intros Hrvb Hj (Hd & Hin & Hne & cv & Hcv0 & Hcvpos & Hlb & Hred & Hfeas).
  pose proof W_range as HW. pose proof nW_range as HnW.
  destruct (bbReduceColumn_spec n j r Hd Hj)
    as (m & r' & (i0 & Hi0 & Hm) & Hmin & E & Hd' & Hskip & Hfin & Hother & extra & Hz & Hex).
  exists r'. split; [assumption |].
  destruct (decide (m = INT_MAX \/ m = 0)) as [Hs | Hns].
  - rewrite (Hskip Hs). split; [assumption |]. split; [assumption |].
    split; [assumption |]. exists cv.
    split; [intros k Hk; apply Hcv0; lia |]. do 3 (split; [assumption |]). assumption.
  - assert (Hm1 : m <> INT_MAX) by tauto. assert (Hm2 : m <> 0) by tauto.
    destruct (Hfin Hm1 Hm2) as (Hlb' & Hline).
    assert (Hcol : forall a, (a < n)%nat -> cell (red_distances r) a j =
              Some (if getEdgeParameter g a j =? INT_MAX then INT_MAX
                    else getEdgeParameter g a j - rv a)).
    { intros a Ha. rewrite (Hred a j Ha Hj), (Hcv0 j) by lia.
      destruct (getEdgeParameter g a j =? INT_MAX); [reflexivity | f_equal; lia]. }
    assert (Hmpos : 0 < m).
    { rewrite (Hcol i0 Hi0) in Hm. inversion Hm as [Hm'].
      destruct (Z.eqb_spec (getEdgeParameter g i0 j) INT_MAX) as [| Hf]; [lia |].
      pose proof (Hfeas i0 j Hi0 Hj Hf) as H0. rewrite (Hcv0 j) in H0 by lia. lia. }
    assert (Hfeas' : feasible_below g n rv (update cv j m)).
    { intros a b Ha Hb Hf. unfold update.
      destruct (Nat.eqb_spec b j) as [-> | Hbj]; [| apply Hfeas; assumption].
      pose proof (Hmin a _ (Hcol a Ha)) as Hle.
      pose proof (Hfeas a j Ha Hj Hf) as Hold. rewrite (Hcv0 j) in Hold by lia.
      destruct (Z.eqb_spec (getEdgeParameter g a j) INT_MAX); [contradiction | lia]. }
    assert (Hsum : sum_over (seq 0 n) (update cv j m) = sum_over (seq 0 n) cv + m).
    { rewrite sum_over_update_seq, (Hcv0 j) by lia. lia. }
    assert (Hadd : int_add (red_lowerBound r) m = red_lowerBound r + m).
    { apply to_int_id. pose proof (potentials_le_INT_MAX rv (update cv j m) Hfeas') as Hub.
      rewrite Hsum in Hub.
      pose proof (sum_over_bounds (seq 0 n) rv (- W) W (fun k _ => Hrvb k)) as [Hlo _].
      pose proof (sum_over_bounds (seq 0 n) cv 0 (Z.of_nat n * W)) as [Hlo' _].
      { intros k _. split; [apply Hcvpos |].
        destruct (Nat.lt_ge_cases k n) as [Hk | Hk]; [| rewrite Hcv0; lia].
        destruct (decide (k = 0%nat)) as [-> | Hk0].
        - destruct Hwf as [Hn _].
          pose proof (Hfeas 1%nat 0%nat ltac:(lia) ltac:(lia)
                        (off_diagonal_finite 1 0 ltac:(lia) ltac:(lia) ltac:(lia))) as H1.
          destruct Hbound as [Hw _].
          specialize (Hw 1%nat 0%nat ltac:(lia) ltac:(lia) ltac:(lia)).
          specialize (Hrvb 1%nat). lia.
        - pose proof (Hfeas 0%nat k ltac:(lia) Hk
                        (off_diagonal_finite 0 k ltac:(lia) Hk ltac:(lia))) as H1.
          destruct Hbound as [Hw _].
          specialize (Hw 0%nat k ltac:(lia) Hk ltac:(lia)).
          specialize (Hrvb 0%nat). lia. }
      rewrite length_seq in Hlo, Hlo'.
      unfold is_int, INT_MIN, INT_MAX in *. lia. }
    split; [assumption |]. split; [rewrite Hz; apply Forall_app; split; assumption |].
    split; [rewrite Hz; apply app_not_nil; assumption |].
    exists (update cv j m).
    split; [| split; [| split; [| split]]].
    + intros k Hk. unfold update. destruct (Nat.eqb_spec k j); [lia | apply Hcv0; lia].
    + intros k. unfold update. destruct (Nat.eqb_spec k j); [lia | apply Hcvpos].
    + rewrite Hlb', Hadd, Hsum, Hlb. lia.
    + intros a b Ha Hb. destruct (decide (b = j)) as [-> | Hbj].
      * rewrite (Hline a _ (Hcol a Ha)). f_equal. unfold reduced, update.
        rewrite Nat.eqb_refl.
        destruct (Z.eqb_spec (getEdgeParameter g a j) INT_MAX) as [Hinf | Hf].
        -- rewrite Z.eqb_refl. reflexivity.
        -- pose proof (Hmin a _ (Hcol a Ha)) as Hle.
           destruct (Z.eqb_spec (getEdgeParameter g a j) INT_MAX); [contradiction |].
           pose proof (Hfeas a j Ha Hj Hf) as Hold. rewrite (Hcv0 j) in Hold by lia.
           destruct (Z.eqb_spec (getEdgeParameter g a j - rv a) INT_MAX); [lia |].
           unfold int_sub. rewrite to_int_id; [lia |].
           unfold is_int, INT_MIN, INT_MAX in *. lia.
      * rewrite Hother by assumption. rewrite (Hred a b Ha Hb). unfold update.
        destruct (Nat.eqb_spec b j); [contradiction | reflexivity].
    + assumption.
Qed.

Lemma sum_over_zero (l : list nat) : sum_over l (fun _ => 0) = 0.
Proof using Type. induction l as [|k l IH]; simpl; lia. Qed.

Lemma root_bound_below_tours :
  exists node, bbRootNode g = Done node /\
    forall perm, is_tour g perm -> lowerBound node <= tour_cost g perm.
Proof using Hwf Hbound Hdiag.
  pose proof Hwf as [Hn _]. pose proof W_range as HW.
  destruct (bbInitNode_spec g) as (initNode & Einit & Hdist & Hlb0).
  unfold bbRootNode. rewrite Einit. cbn [mbind outcome_bind].
  assert (Hlen : length (distances initNode) = n).
  { rewrite Hdist. apply rect_weight_matrix. }
  destruct (for_range_total (row_invariant g W) (bbReduceRow n) n 0
    {| red_distances := distances initNode;
       red_lowerBound := lowerBound initNode;
       matrixZeroes := [] |}) as (r1 & E1 & Hrows).
  { unfold row_invariant. cbn [red_distances red_lowerBound matrixZeroes].
    rewrite Hdist, Hlb0.
    split; [apply rect_weight_matrix |]. split; [constructor |]. split; [lia |].
    exists (fun _ => 0). split; [reflexivity |]. split; [intros; lia |].
    split; [rewrite sum_over_zero; reflexivity |]. split; [lia |].
    split; [| intros a b Ha; lia].
    intros a b Ha Hb. rewrite cell_weight_matrix by assumption.
    destruct (Z.eqb_spec (getEdgeParameter g a b) INT_MAX); f_equal; lia. }
  { intros i r [_ Hi]. apply row_step. exact Hi. }
  cbn [Nat.add] in Hrows.
  destruct Hrows as (Hd1 & Hin1 & Hne1 & rv & _ & Hrvb & Hlb1 & _ & Hred1 & Hfeas1).
  destruct (for_range_total (column_invariant g rv) (bbReduceColumn n) n 0 r1)
    as (r2 & E2 & Hcols).
  { split; [assumption |]. split; [assumption |]. split; [apply Hne1; lia |].
    exists (fun _ => 0). split; [reflexivity |]. split; [intros; lia |].
    split; [rewrite sum_over_zero; lia |]. split; assumption. }
  { intros j r [_ Hj]. apply column_step; [assumption | exact Hj]. }
  destruct Hcols as (Hd2 & Hin2 & Hne2 & cv & _ & _ & Hlb2 & _ & Hfeas2).
  assert (Er : bbReduce initNode = Done r2).
  { unfold bbReduce. rewrite Hlen, E1. cbn [mbind outcome_bind]. exact E2. }
  destruct (bbCalculate_after_reduce n initNode r2 Hlen Er Hd2 Hin2 Hne2)
    as (node & Enode & Hlbn & _).
  exists node. split; [assumption |].
  intros perm Hperm. rewrite Hlbn, Hlb2.
  apply tour_cost_potentials; [assumption | | assumption].
  intros a b Ha Hb Hne.
  pose proof (Hfeas2 a b Ha Hb (off_diagonal_finite a b Ha Hb Hne)). lia.
Qed.

End RootBound.

(** *** The search loop of branchAndBound on copies of one node

    [bbCreateLeftNodeData] and [bbCreateRightNodeData] leave their node as it
    is, so the queue only ever holds copies of the root. *)

Lemma bbNodeComparator_irrefl (x : BBNodeData) : bbNodeComparator x x = false.
Proof. unfold bbNodeComparator. rewrite Z.eqb_refl. apply Z.ltb_irrefl. Qed.

Lemma pq_top_index_repeat (x : BBNodeData) (k bestIdx idx : nat) :
  pq_top_index x bestIdx idx (repeat x k) = bestIdx.
Proof.
  revert idx. induction k as [|k IH]; intros idx; simpl; [reflexivity |].
  rewrite bbNodeComparator_irrefl. apply IH.
Qed.

Lemma pq_top_repeat (x : BBNodeData) (k : nat) : pq_top (repeat x (S k)) = Done x.
Proof. simpl. rewrite pq_top_index_repeat. reflexivity. Qed.

Lemma pq_pop_repeat (x : BBNodeData) (k : nat) :
  pq_pop (repeat x (S k)) = Done (repeat x k).
Proof. simpl. rewrite pq_top_index_repeat. reflexivity. Qed.

Lemma bbIteration_repeat (n : nat) (x : BBNodeData) (k : nat) (ub : Z) :
  lowerBound x < ub ->
  bbIteration n {| leafs := repeat x (S k); upperBound := ub |} =
  Done (Some {| leafs := repeat x (S (S k));
                upperBound := match bbIncumbentUpdate n x with
                              | Some c => c
                              | None => ub
                              end |}).
Proof.
  intros Hlt. unfold bbIteration. cbn [leafs upperBound].
  rewrite pq_top_repeat, pq_pop_repeat. cbn [mbind outcome_bind].
  unfold bbCreateLeftNodeData, bbCreateRightNodeData.
  destruct (Z.ltb_spec (lowerBound x) ub); [| lia].
  unfold pq_push. do 3 f_equal.
  rewrite <- app_assoc.
  change ([x] ++ [x]) with (repeat x 2). rewrite <- repeat_app.
  f_equal. lia.
Qed.

Lemma bbLoop_diverges (n : nat) (x : BBNodeData) (ub : Z) :
  lowerBound x < ub -> bbIncumbentUpdate n x = None ->
  forall fuel k, bbLoop fuel n {| leafs := repeat x (S k); upperBound := ub |} = Timeout.
Proof.
  intros Hlt Hup. induction fuel as [|fuel IH]; intros k; [reflexivity |].
  cbn [bbLoop]. rewrite bbIteration_repeat by assumption.
  cbn [mbind outcome_bind]. rewrite Hup. apply IH.
Qed.

(** *** What one pass of the search loop does to the incumbent *)

Lemma bbIteration_incumbent (n : nat) (st st' : BBState) :
  bbIteration n st = Done (Some st') ->
  exists top, pq_top (leafs st) = Done top /\
    upperBound st' = match bbIncumbentUpdate n top with
                     | Some c => c
                     | None => upperBound st
                     end.
Proof.
  unfold bbIteration. intros H.
  destruct (pq_top (leafs st)) as [top | |]; cbn [mbind outcome_bind] in H;
    try discriminate.
  destruct (lowerBound top <? upperBound st); [| discriminate].
  destruct (pq_pop (leafs st)) as [q | |]; cbn [mbind outcome_bind] in H;
    try discriminate.
  unfold bbCreateRightNodeData in H. inversion H. exists top. split; reflexivity.
Qed.

(** On a well-formed instance whose costs fit, the incumbent starts at the
    cost of a tour and is afterwards kept or set to the value 0 of
    [bbGetCycleCost]: it never increases. *)
Lemma initial_incumbent_nonneg (g : IGraph) (st0 : BBState) :
  well_formed g -> cost_fits g -> bbInitialState g = Done st0 -> 0 <= upperBound st0.
Proof.
  intros [Hn Hpos] [W [Hw Hfit]] E. unfold bbInitialState in E.
  destruct (bbRootNode g) as [root | |]; cbn [mbind outcome_bind] in E; try discriminate.
  inversion E; subst st0. cbn [upperBound]. clear E.
  unfold calculateTargetFunctionValueAll.
  set (l := seq 0 (getVertexCount g)).
  assert (Hcycle : cycle_cost g l = chain_cost g (l ++ [0%nat])).
  { subst l. destruct (getVertexCount g); [lia | reflexivity]. }
  assert (Hlast : List.last l 0%nat <> 0%nat).
  { subst l. destruct (getVertexCount g) as [|n']; [lia |].
    rewrite seq_S, last_last. simpl. lia. }
  assert (Hin : forall k, In k l -> (k < getVertexCount g)%nat).
  { intros k Hk. apply in_seq in Hk. lia. }
  assert (Hnd : NoDup l) by apply NoDup_seq.
  assert (Hne : l <> []).
  { subst l. destruct (getVertexCount g); [lia | discriminate]. }
  pose proof (chain_cost_ge0 g 0%nat l Hpos Hnd Hin ltac:(lia) Hne Hlast) as Hlo.
  pose proof (chain_cost_le g W 0%nat l Hw Hnd Hin ltac:(lia) Hne Hlast) as Hhi.
  subst l. rewrite length_seq in Hhi. rewrite Hcycle.
  rewrite to_int_id; [assumption |]. unfold is_int, INT_MIN, INT_MAX in *. lia.
Qed.

Lemma incumbents_never_increase (fuel n : nat) :
  forall st, 0 <= upperBound st -> Sorted Z.ge (bbIncumbents fuel n st).
Proof.
  induction fuel as [|fuel IH]; intros st Hpos; cbn [bbIncumbents]; [constructor |].
  destruct (bbIteration n st) as [[st' |] | |] eqn:E;
    [| repeat constructor | repeat constructor | repeat constructor].
  destruct (bbIteration_incumbent n st st' E) as (top & _ & Hub).
  assert (Hle : 0 <= upperBound st' <= upperBound st).
  { rewrite Hub. unfold bbIncumbentUpdate, bbGetCycleCost.
    destruct (edgesOnPath top =? Z.of_nat n - 2); lia. }
  constructor; [apply IH; lia |].
  destruct fuel; cbn [bbIncumbents]; constructor. lia.
Qed.

(** With two vertices the answer of the recurrence is the cost of the only
    tour. *)
Lemma heldKarp_answer_two (w : nat -> nat -> Z) :
  heldKarp_answer {| getVertexCount := 2; getEdgeParameter := w |} = w 1%nat 0%nat + w 0%nat 1%nat.
Proof. reflexivity. Qed.

(** ** Example instances: facts *)

Lemma scenario_well_formed : well_formed scenario.
Proof.
  split; [simpl; lia |]. intros i j Hi Hj Hne. simpl in Hi, Hj.
  do 4 (destruct i as [|i]; [do 4 (destruct j as [|j]; [simpl; lia |]); lia |]). lia.
Qed.

Lemma scenario_bounded : bounded_by scenario 35.
Proof.
  split; [| vm_compute; discriminate]. intros i j Hi Hj Hne. simpl in Hi, Hj.
  do 4 (destruct i as [|i]; [do 4 (destruct j as [|j]; [simpl; lia |]); lia |]). lia.
Qed.

Lemma scenario_diagonal : diagonal_fits scenario 35.
Proof.
  intros i Hi. simpl in Hi. unfold INT_MAX.
  do 4 (destruct i as [|i]; [simpl; lia |]). lia.
Qed.

Lemma scenario_finite (i j : nat) :
  (i < getVertexCount scenario)%nat -> (j < getVertexCount scenario)%nat ->
  finite_weight (getEdgeParameter scenario i j).
Proof.
  intros Hi Hj. simpl in Hi, Hj. unfold finite_weight, INT_MIN, INT_MAX.
  do 4 (destruct i as [|i]; [do 4 (destruct j as [|j]; [simpl; lia |]); lia |]). lia.
Qed.

Lemma chain_cost_oversized (l : list nat) : chain_cost oversized l = 0.
Proof.
  induction l as [|u l IH]; [reflexivity |].
  destruct l as [|v l]; [reflexivity |].
  change (chain_cost oversized (u :: v :: l)) with (0 + chain_cost oversized (v :: l)).
  rewrite IH. reflexivity.
Qed.

Lemma scenario_optimum : is_optimum scenario 80.
Proof.
  assert (H80 : heldKarp_answer scenario = 80) by (vm_compute; reflexivity).
  rewrite <- H80. apply heldKarp_answer_optimum. simpl. lia.
Qed.

(** *** The cache and the history of the saves *)








(** ** The claims of the specification *)

(** C1. On the scenario of the specification, whose optimum is 80,
    [bruteForce] and [dynamicProgrammingHeldKarp] return 80 and
    [branchAndBound] returns nothing: whatever the fuel, its search loop is
    still running, with a zero diagonal and with an infinite one. With the
    infinite diagonal the root bound is 70, and the loop runs forever from
    the root for every incumbent above 70, whichever feasible tour it was
    computed from. The three entry points do not agree. *)
Theorem scenario_branchAndBound_diverges :
  is_optimum scenario 80 /\
  bruteForce 100 scenario = Done 80 /\
  dynamicProgrammingHeldKarp 3 scenario = Done 80 /\
  (forall fuel, branchAndBound fuel scenario = Timeout) /\
  (forall fuel, branchAndBound fuel scenario_inf = Timeout) /\
  exists root,
    bbRootNode scenario_inf = Done root /\ lowerBound root = 70 /\
    forall ub fuel, 70 < ub ->
      bbLoop fuel 4 {| leafs := pq_push [] root; upperBound := ub |} = Timeout.
Proof.
  split; [exact scenario_optimum |].
  split; [vm_compute; reflexivity |].
  split; [vm_compute; reflexivity |].
  split; [| split].
  - intros fuel. unfold branchAndBound.
    set (st := bbInitialState scenario). vm_compute in st. subst st.
    cbn [mbind outcome_bind].
    apply (bbLoop_diverges 4 _ 95) with (k := 0%nat); reflexivity.
  - intros fuel. unfold branchAndBound.
    set (st := bbInitialState scenario_inf). vm_compute in st. subst st.
    cbn [mbind outcome_bind].
    apply (bbLoop_diverges 4 _ 95) with (k := 0%nat); reflexivity.
  - eexists. split; [vm_compute; reflexivity |]. split; [reflexivity |].
    intros ub fuel Hub.
    apply (bbLoop_diverges 4 _ ub) with (k := 0%nat); [exact Hub | reflexivity].
Qed.

(** C2, as stated, fails on an instance of 33 vertices: the instance is
    well-formed, its costs fit, its optimum is 0, and
    [dynamicProgrammingHeldKarp] has no defined result, because
    [1u << (nVertex - 1)] shifts a 32-bit value by 32 positions. *)
Lemma heldKarp_oversized_undefined :
  well_formed oversized /\ cost_fits oversized /\ is_optimum oversized 0 /\
  forall fuel, dynamicProgrammingHeldKarp fuel oversized = Undefined.
Proof.
  split; [| split; [| split]].
  - split; [simpl; lia |]. intros; simpl; lia.
  - exists 0. split; [intros; simpl; lia | vm_compute; discriminate].
  - split.
    + exists (seq 0 32). split; [apply Permutation_refl | apply chain_cost_oversized].
    + intros perm _. unfold tour_cost. rewrite chain_cost_oversized. lia.
  - intros fuel. unfold dynamicProgrammingHeldKarp.
    rewrite heldKarpRun_oversized by (simpl; lia). reflexivity.
Qed.

(** C2, amended. On a well-formed instance of at most 32 vertices whose
    costs fit in an [int], [dynamicProgrammingHeldKarp] returns the answer
    of the recurrence, the minimum over [j] of [dp[j][Full] + w(j, n-1)];
    the cache it leaves holds [dp[e][s]] in every cell that is not the
    sentinel; [dp] satisfies the base case and the recurrence; and the
    answer is the minimum Hamiltonian cycle cost. *)
Theorem heldKarp_correct (g : IGraph) (fuel : nat) :
  well_formed g -> cost_fits g -> (getVertexCount g <= 32)%nat ->
  (getVertexCount g - 1 <= fuel)%nat ->
  dynamicProgrammingHeldKarp fuel g = Done (heldKarp_answer g) /\
  (exists st, heldKarpRun fuel g = Done (heldKarp_answer g, st) /\
     cache_ok g (partialPathCostTable st)) /\
  (forall j, (j < getVertexCount g - 1)%nat ->
     dp g j (2 ^ N.of_nat j) = getEdgeParameter g (origin g) j) /\
  (forall j s, (j < getVertexCount g - 1)%nat -> mem s j = true ->
     (2 <= card (getVertexCount g - 1) s)%nat ->
     dp g j s =
     min_over (members (getVertexCount g - 1) (N.clearbit s (N.of_nat j)))
       (fun q => dp g q (N.clearbit s (N.of_nat j)) + getEdgeParameter g q j)) /\
  is_optimum g (heldKarp_answer g).
Proof.
  intros Hwf [W Hbound] Hsize Hfuel.
  destruct (heldKarpRun_spec g W fuel Hwf Hbound Hsize Hfuel) as (st & E & Hok & _).
  split; [unfold dynamicProgrammingHeldKarp; rewrite E; reflexivity |].
  split; [eauto |].
  split; [intros j Hj; apply dp_singleton, card_pow2; assumption |].
  split; [intros j s; apply dp_step |].
  apply heldKarp_answer_optimum. apply Hwf.
Qed.

(** The amended C2 on the scenario, with fuel 3. *)
Lemma heldKarp_correct_witness :
  well_formed scenario /\ cost_fits scenario /\
  dynamicProgrammingHeldKarp 3 scenario = Done (heldKarp_answer scenario) /\
  is_optimum scenario (heldKarp_answer scenario).
Proof.
  split; [exact scenario_well_formed |].
  split; [exists 35; exact scenario_bounded |].
  destruct (heldKarp_correct scenario 3 scenario_well_formed
              (ex_intro _ 35 scenario_bounded)) as (H1 & _ & _ & _ & H2).
  - simpl. lia.
  - simpl. lia.
  - split; assumption.
Defined.

(** C3. With two vertices the permutation has one element and so has the
    vector of counters; the first pass of the do-while loop of [bruteForce]
    reads [stackCounters[1]], outside the vector, whatever the weights. *)
Theorem bruteForce_two_vertices_undefined :
  forall (w : nat -> nat -> Z) (fuel : nat),
    bruteForce (S fuel) {| getVertexCount := 2; getEdgeParameter := w |} = Undefined.
Proof. intros w fuel. reflexivity. Qed.

(** C4. With two vertices [dynamicProgrammingHeldKarp] returns
    [w(0,1) + w(1,0)] on every well-formed instance whose costs fit. On
    [two_cities], where this value is 2, [bruteForce] has no defined result
    and [branchAndBound] returns 0. *)
Theorem two_cities_solvers :
  (forall (w : nat -> nat -> Z) (fuel : nat),
     well_formed {| getVertexCount := 2; getEdgeParameter := w |} ->
     cost_fits {| getVertexCount := 2; getEdgeParameter := w |} ->
     dynamicProgrammingHeldKarp (S fuel) {| getVertexCount := 2; getEdgeParameter := w |}
     = Done (w 0%nat 1%nat + w 1%nat 0%nat)) /\
  getEdgeParameter two_cities 0 1 + getEdgeParameter two_cities 1 0 = 2 /\
  dynamicProgrammingHeldKarp 1 two_cities = Done 2 /\
  (forall fuel, bruteForce (S fuel) two_cities = Undefined) /\
  (forall fuel, branchAndBound (S (S fuel)) two_cities = Done 0).
Proof.
  split.
  { intros w fuel Hwf [W Hbound].
    destruct (heldKarpRun_spec _ W (S fuel) Hwf Hbound) as (st & E & _);
      [simpl; lia | simpl; lia |].
    unfold dynamicProgrammingHeldKarp. rewrite E. cbn [mbind outcome_bind fst].
    rewrite heldKarp_answer_two. f_equal. lia. }
  split; [reflexivity |].
  split; [vm_compute; reflexivity |].
  split; intros fuel; reflexivity.
Qed.

(** C5. The root construction of [branchAndBound] leaves the graph's own
    diagonal in the working matrix: the assignment of the edge parameter
    follows the assignment of infinity for every cell. On [two_cities] the
    diagonal of the working matrix is 0. *)
Theorem root_construction_keeps_diagonal :
  (forall g, bbRootDistances g = Done (weight_matrix g)) /\
  bbRootDistances two_cities = Done [[0; 1]; [1; 0]].
Proof.
  split; [apply bbRootDistances_weight_matrix |].
  rewrite bbRootDistances_weight_matrix. reflexivity.
Qed.

(** C6, as stated, fails on [deep_diagonal]: the instance is well-formed,
    its costs fit and its optimum is 3, which [dynamicProgrammingHeldKarp]
    and [bruteForce] return. The root construction keeps the diagonal of
    the graph in the working matrix, so [-2^30] is the minimum of every
    row; the three additions of it to the bound leave the range of [int],
    and the root lower bound is 1073741824, above the optimum. With the
    same weights and an infinite diagonal the root lower bound is 3. The
    instance is outside [matrix_fits]; on the well-formed instances inside
    it, the root lower bound is at most the cost of every tour, hence at
    most the optimum. *)
Theorem root_lower_bound_exceeds_optimum :
  well_formed deep_diagonal /\ cost_fits deep_diagonal /\
  is_optimum deep_diagonal 3 /\
  dynamicProgrammingHeldKarp 2 deep_diagonal = Done 3 /\
  bruteForce 10 deep_diagonal = Done 3 /\
  bbRootDistances deep_diagonal
  = Done [[-1073741824; 1; 1]; [1; -1073741824; 1]; [1; 1; -1073741824]] /\
  (exists node, bbRootNode deep_diagonal = Done node /\
     lowerBound node = 1073741824 /\ 3 < lowerBound node) /\
  (exists node, bbRootNode deep_diagonal_inf = Done node /\ lowerBound node = 3) /\
  ~ matrix_fits deep_diagonal /\
  forall g, well_formed g -> matrix_fits g ->
    exists node, bbRootNode g = Done node /\
      (forall perm, is_tour g perm -> lowerBound node <= tour_cost g perm) /\
      (forall opt, is_optimum g opt -> lowerBound node <= opt).
Proof.
  split.
  { split; [simpl; lia |]. intros i j Hi Hj Hne. simpl in Hi, Hj.
    do 3 (destruct i as [|i]; [do 3 (destruct j as [|j]; [simpl; lia |]); lia |]). lia. }
  split.
  { exists 1. split; [| vm_compute; discriminate]. intros i j Hi Hj Hne. simpl in Hi, Hj.
    do 3 (destruct i as [|i]; [do 3 (destruct j as [|j]; [simpl; lia |]); lia |]). lia. }
  split.
  { assert (H3 : heldKarp_answer deep_diagonal = 3) by (vm_compute; reflexivity).
    rewrite <- H3. apply heldKarp_answer_optimum. simpl. lia. }
  split; [vm_compute; reflexivity |].
  split; [vm_compute; reflexivity |].
  split; [vm_compute; reflexivity |].
  split; [eexists; split; [vm_compute; reflexivity |]; split; [reflexivity | simpl; lia] |].
  split; [eexists; split; [vm_compute; reflexivity | reflexivity] |].
  split.
  - intros (W & [_ Hfit] & Hdiag).
    pose proof (Hdiag 0%nat) as H0. simpl in H0, Hfit. unfold INT_MAX in Hfit. lia.
  - intros g Hwf (W & Hbound & Hdiag).
    destruct (root_bound_below_tours g W Hwf Hbound Hdiag) as (node & E & Hle).
    exists node. split; [assumption |]. split; [assumption |].
    intros opt [(perm & Hperm & <-) _]. apply Hle. assumption.
Qed.

(** C7. A pass of the search loop leaves the incumbent as it is or assigns
    it [bbGetCycleCost(rightNode)], when the popped node has
    [instanceSize - 2] fixed edges; the cycle cost is not compared with the
    incumbent. On a well-formed instance whose costs fit the incumbent never
    increases. On [two_cities_marked] the incumbent is 2, then 0, then 0:
    the second pass assigns a cycle cost 0 that is not smaller than the
    incumbent 0. *)
Theorem incumbent_replaced_without_improvement :
  (forall n st st', bbIteration n st = Done (Some st') ->
     exists top, pq_top (leafs st) = Done top /\
       upperBound st' = match bbIncumbentUpdate n top with
                        | Some c => c
                        | None => upperBound st
                        end) /\
  (forall g fuel st0, well_formed g -> cost_fits g -> bbInitialState g = Done st0 ->
     Sorted Z.ge (bbIncumbents fuel (getVertexCount g) st0)) /\
  exists st0 st1 st2 top,
    bbInitialState two_cities_marked = Done st0 /\
    bbIncumbents 3 2 st0 = [2; 0; 0] /\
    bbIteration 2 st0 = Done (Some st1) /\
    upperBound st1 = 0 /\
    pq_top (leafs st1) = Done top /\
    bbIncumbentUpdate 2 top = Some 0 /\
    bbIteration 2 st1 = Done (Some st2) /\
    upperBound st2 = 0.
Proof.
  split; [exact bbIteration_incumbent |].
  split.
  { intros g fuel st0 Hwf Hfit E. apply incumbents_never_increase.
    apply (initial_incumbent_nonneg g st0 Hwf Hfit E). }
  do 4 eexists.
  split; [vm_compute; reflexivity |].
  split; [vm_compute; reflexivity |].
  split; [vm_compute; reflexivity |].
  split; [reflexivity |].
  split; [vm_compute; reflexivity |].
  split; [vm_compute; reflexivity |].
  split; [vm_compute; reflexivity |].
  reflexivity.
Qed.



(** C9. On a well-formed instance the run of [dynamicProgrammingHeldKarp]
    never exhausts a fuel of [n - 1], the size of the full set: with more
    than 32 vertices it is undefined before the first call, otherwise it
    returns, and so does every call on a state of a well-shaped cache with a
    fuel of the size of its set. The set of a recursive call is the current
    set without the end vertex, a strictly smaller number. A singleton is
    answered from the initialised cache with fuel 1, that is without a
    recursive call, and leaves the state as it is. *)
Theorem dp_recursion_terminates (g : IGraph) (fuel : nat) :
  well_formed g -> (getVertexCount g - 1 <= fuel)%nat ->
  (((32 < getVertexCount g)%nat /\ heldKarpRun fuel g = Undefined) \/
   ((getVertexCount g <= 32)%nat /\ exists r, heldKarpRun fuel g = Done r)) /\
  ((getVertexCount g <= 32)%nat ->
   forall (s : N) (e : nat) (st : DPState),
     rect (getVertexCount g) (N.to_nat (2 ^ N.of_nat (getVertexCount g - 1)))
          (partialPathCostTable st) ->
     (e < getVertexCount g - 1)%nat -> (s < 2 ^ N.of_nat (getVertexCount g - 1))%N ->
     mem s e = true ->
     exists r, dpGetPartialPathCost (card (getVertexCount g - 1) s) g s e st = Done r) /\
  (forall (s : N) (e : nat), (s < 2 ^ 32)%N -> mem s e = true ->
     N.land s (not_u (2 ^ N.of_nat e)) = N.clearbit s (N.of_nat e) /\
     (N.land s (not_u (2 ^ N.of_nat e)) < s)%N) /\
  (forall (t0 : matrix) (j : nat),
     dpInitTable g = Done t0 -> (j < getVertexCount g - 1)%nat ->
     dpGetPartialPathCost 1 g (2 ^ N.of_nat j) j
       {| partialPathCostTable := t0; writes := [] |} =
     Done (getEdgeParameter g (origin g) j,
           {| partialPathCostTable := t0; writes := [] |})).
Proof.
  intros Hwf Hfuel. pose proof Hwf as [Hn Hpos].
  split; [| split; [| split]].
  - destruct (Nat.lt_ge_cases 32 (getVertexCount g)) as [Hbig | Hsize].
    + left. split; [assumption | apply heldKarpRun_oversized; assumption].
    + right. split; [assumption |]. apply heldKarpRun_terminates; [lia | assumption].
  - intros Hsize s e st Hrect He Hs Hmem.
    destruct (dp_terminates g (card (getVertexCount g - 1) s) Hsize s e st
                Hrect He Hs Hmem (Nat.le_refl _)) as (r & Er & _).
    eauto.
  - intros s e Hs Hmem. rewrite land_not_u_clearbit by assumption.
    split; [reflexivity | apply clearbit_lt; assumption].
  - intros t0 j E0 Hj.
    assert (Hsize : (getVertexCount g <= 32)%nat).
    { destruct (Nat.lt_ge_cases 32 (getVertexCount g)) as [Hbig | Hsize]; [| assumption].
      unfold dpInitTable in E0. destruct (getVertexCount g) as [|n'] eqn:En; [lia |].
      unfold shl1u in E0. destruct (Nat.ltb_spec (S n' - 1) 32); [lia | discriminate]. }
    destruct (dpInitTable_spec g ltac:(lia)) as (t & E & _ & Hinit).
    rewrite E0 in E. inversion E; subst t. clear E.
    specialize (Hinit j (N.to_nat (2 ^ N.of_nat j)) Hj).
    rewrite Nat.eqb_refl in Hinit.
    pose proof (pow2_lt_pow2 (getVertexCount g - 1) j Hj).
    specialize (Hinit ltac:(lia)).
    cbn [dpGetPartialPathCost partialPathCostTable].
    rewrite (proj2 (mget_cell _ _ _ _) Hinit). cbn [mbind outcome_bind].
    specialize (Hpos (getVertexCount g - 1)%nat j ltac:(lia) ltac:(lia) ltac:(lia)).
    destruct (Z.eqb_spec (getEdgeParameter g (getVertexCount g - 1) j) (-1)); [lia |].
    reflexivity.
Qed.

(** C9 on the scenario, with fuel 3. *)
Lemma dp_recursion_terminates_witness :
  well_formed scenario /\ exists r, heldKarpRun 3 scenario = Done r.
Proof.
  split; [exact scenario_well_formed |].
  destruct (dp_recursion_terminates scenario 3 scenario_well_formed)
    as ([[Hbig _] | [_ Hdone]] & _).
  - simpl. lia.
  - simpl in Hbig. lia.
  - exact Hdone.
Defined.

(** C10. When every edge parameter read by the root construction is finite
    (with [n >= 2]), the reduction of each row of the root records a zero of
    that row, the list given to [std::max_element] is not empty, and
    [bbCalculateLowerBoundAndDesignateHighestZeroPenalty] is defined on the
    root: its undefined branch is not taken. *)
Theorem root_zero_list_nonempty (g : IGraph) :
  (2 <= getVertexCount g)%nat ->
  (forall i j : nat, (i < getVertexCount g)%nat -> (j < getVertexCount g)%nat ->
     finite_weight (getEdgeParameter g i j)) ->
  exists initNode r node,
    bbInitNode g = Done initNode /\
    bbReduce initNode = Done r /\
    (forall i, (i < getVertexCount g)%nat ->
       exists j, (j < getVertexCount g)%nat /\ In (zero_entry i j) (matrixZeroes r)) /\
    matrixZeroes r <> [] /\
    bbCalculateLowerBoundAndDesignateHighestZeroPenalty initNode = Done node /\
    bbRootNode g = Done node.
Proof.
  intros Hn Hfin.
  destruct (bbInitNode_spec g) as (initNode & Einit & Hdist & _).
  assert (Hd : rect (getVertexCount g) (getVertexCount g) (distances initNode)).
  { rewrite Hdist. apply rect_weight_matrix. }
  destruct (bbReduce_records_zero (getVertexCount g) initNode Hd)
    as (r & Er & Hdr & Hin & Hne & Hrec); [lia | |].
  { intros i Hi. exists 0%nat, (getEdgeParameter g i 0). rewrite Hdist.
    split; [apply cell_weight_matrix; lia |]. apply Hfin; lia. }
  destruct (bbCalculate_after_reduce (getVertexCount g) initNode r (proj1 Hd) Er Hdr Hin Hne)
    as (node & Enode & _).
  exists initNode, r, node. do 5 (split; [assumption |]).
  unfold bbRootNode. rewrite Einit. cbn [mbind outcome_bind]. assumption.
Qed.

(** C10 on the scenario. *)
Lemma root_zero_list_witness :
  (2 <= getVertexCount scenario)%nat /\
  exists initNode r node,
    bbInitNode scenario = Done initNode /\
    bbReduce initNode = Done r /\
    (forall i, (i < getVertexCount scenario)%nat ->
       exists j, (j < getVertexCount scenario)%nat /\ In (zero_entry i j) (matrixZeroes r)) /\
    matrixZeroes r <> [] /\
    bbCalculateLowerBoundAndDesignateHighestZeroPenalty initNode = Done node /\
    bbRootNode scenario = Done node.
Proof.
  split; [simpl; lia |].
  apply (root_zero_list_nonempty scenario); [simpl; lia | exact scenario_finite].
Defined.

(** ** Further properties of the code *)

Lemma for_range_fixed {S : Type} (body : nat -> S -> outcome S) (cnt lo : nat) (s : S) :
  (forall k, (lo <= k < lo + cnt)%nat -> body k s = Done s) ->
  for_range lo cnt body s = Done s.
Proof.
  revert lo. induction cnt as [|cnt IH]; intros lo H; simpl; [reflexivity |].
  rewrite H by lia. cbn [mbind outcome_bind]. apply IH. intros k Hk. apply H. lia.
Qed.

(** *** The comparison of the priority queue *)

Lemma bbNodeComparator_true (x y : BBNodeData) :
  bbNodeComparator x y = true <->
  lowerBound y < lowerBound x \/
  (lowerBound x = lowerBound y /\ edgesOnPath x < edgesOnPath y).
Proof.
  unfold bbNodeComparator.
  destruct (Z.eqb_spec (lowerBound x) (lowerBound y)) as [E | N].
  - rewrite Z.ltb_lt. lia.
  - rewrite Z.gtb_gt. lia.
Qed.

Lemma bbNodeComparator_false (x y : BBNodeData) :
  bbNodeComparator x y = false <->
  lowerBound x < lowerBound y \/
  (lowerBound x = lowerBound y /\ edgesOnPath y <= edgesOnPath x).
Proof.
  rewrite <- not_true_iff_false, bbNodeComparator_true. lia.
Qed.

Lemma pq_top_index_spec (q : list BBNodeData) :
  forall (pre : list BBNodeData) (best : BBNodeData) (bestIdx : nat),
    (pre ++ q) !! bestIdx = Some best ->
    (bestIdx < length pre)%nat ->
    (forall x, In x pre -> bbNodeComparator best x = false) ->
    exists top,
      (pre ++ q) !! pq_top_index best bestIdx (length pre) q = Some top /\
      forall x, In x (pre ++ q) -> bbNodeComparator top x = false.
Proof.
  induction q as [|y q IH]; intros pre best bestIdx Hbest Hlt Hmax; cbn [pq_top_index].
  - exists best. split; [assumption |]. rewrite app_nil_r. assumption.
  - replace (pre ++ y :: q) with ((pre ++ [y]) ++ q) in * by (rewrite <- app_assoc; reflexivity).
    replace (S (length pre)) with (length (pre ++ [y])) by (rewrite length_app; simpl; lia).
    destruct (bbNodeComparator best y) eqn:Ecmp.
    + apply IH.
      * rewrite lookup_app_l by (rewrite length_app; simpl; lia).
        rewrite lookup_app_r by lia. rewrite Nat.sub_diag. reflexivity.
      * rewrite length_app. simpl. lia.
      * intros x Hx. apply in_app_or in Hx as [Hx | [<- | []]].
        -- specialize (Hmax x Hx). apply bbNodeComparator_false.
           apply bbNodeComparator_false in Hmax. apply bbNodeComparator_true in Ecmp. lia.
        -- apply bbNodeComparator_irrefl.
    + apply IH.
      * assumption.
      * rewrite length_app. simpl. lia.
      * intros x Hx. apply in_app_or in Hx as [Hx | [<- | []]]; auto.
Qed.

(** X1. The comparison of the priority queue is a strict weak order:
    irreflexive, asymmetric and transitive, and so is the relation of two
    nodes neither of which comes out after the other, which holds exactly
    for two nodes with the same bound and the same number of fixed edges. *)
Theorem bbNodeComparator_strict_weak_order :
  (forall x, bbNodeComparator x x = false) /\
  (forall x y, bbNodeComparator x y = true -> bbNodeComparator y x = false) /\
  (forall x y z, bbNodeComparator x y = true -> bbNodeComparator y z = true ->
     bbNodeComparator x z = true) /\
  (forall x y, bbNodeComparator x y = false /\ bbNodeComparator y x = false <->
     lowerBound x = lowerBound y /\ edgesOnPath x = edgesOnPath y) /\
  (forall x y z,
     bbNodeComparator x y = false -> bbNodeComparator y x = false ->
     bbNodeComparator y z = false -> bbNodeComparator z y = false ->
     bbNodeComparator x z = false /\ bbNodeComparator z x = false).
Proof.
  split; [exact bbNodeComparator_irrefl |].
  split; [intros x y; rewrite bbNodeComparator_true, bbNodeComparator_false; lia |].
  split; [intros x y z; rewrite !bbNodeComparator_true; lia |].
  split; [intros x y; rewrite !bbNodeComparator_false; lia |].
  intros x y z. rewrite !bbNodeComparator_false. lia.
Qed.

(** X2. The node on top of a non-empty queue is one of its nodes, no node
    of the queue has a smaller lower bound, and among the nodes with the
    same bound none has more fixed edges: the search is best-first. *)
Theorem pq_top_least_bound (x : BBNodeData) (q : list BBNodeData) :
  exists top, pq_top (x :: q) = Done top /\ In top (x :: q) /\
    forall y, In y (x :: q) ->
      lowerBound top <= lowerBound y /\
      (lowerBound y = lowerBound top -> edgesOnPath y <= edgesOnPath top).
Proof.
  destruct (pq_top_index_spec q [x] x 0) as (top & Htop & Hmax).
  - reflexivity.
  - simpl. lia.
  - intros y [<- | []]. apply bbNodeComparator_irrefl.
  - exists top. unfold pq_top, vget. simpl in Htop. rewrite Htop.
    split; [reflexivity |]. split.
    + apply list_elem_of_In. eapply list_elem_of_lookup_2. exact Htop.
    + intros y Hy. specialize (Hmax y Hy). apply bbNodeComparator_false in Hmax. lia.
Qed.


(** *** When the root node exists *)

(** The reduction loops record a zero as soon as one cell of the matrix is
    finite, and change nothing when every cell is infinite. *)
Lemma bbReduce_zero_list (n : nat) (nodeData : BBNodeData) :
  rect n n (distances nodeData) ->
  exists r, bbReduce nodeData = Done r /\
    rect n n (red_distances r) /\
    Forall (zero_in_range n) (matrixZeroes r) /\
    ((exists i j x, cell (distances nodeData) i j = Some x /\ x < INT_MAX) ->
     matrixZeroes r <> []) /\
    ((forall i j x, cell (distances nodeData) i j = Some x -> x = INT_MAX) ->
     matrixZeroes r = []).
Proof.
  intros Hd. unfold bbReduce.
  pose proof Hd as [Hlen _]. rewrite Hlen.
  set (r0 := {| red_distances := distances nodeData;
                red_lowerBound := lowerBound nodeData;
                matrixZeroes := [] |}).
  destruct (for_range_total
    (fun i r => rect n n (red_distances r) /\
                Forall (zero_in_range n) (matrixZeroes r) /\
                (forall i' j, (i <= i')%nat ->
                   cell (red_distances r) i' j = cell (distances nodeData) i' j) /\
                ((exists i' j x, (i' < i)%nat /\
                    cell (distances nodeData) i' j = Some x /\ x < INT_MAX) ->
                 matrixZeroes r <> []) /\
                ((forall i j x, cell (distances nodeData) i j = Some x -> x = INT_MAX) ->
                 r = r0))
    (bbReduceRow n) n 0 r0) as (r1 & E1 & Hd1 & Hin1 & _ & Hsome1 & Hnone1).
  - cbn [red_distances matrixZeroes r0]. split; [assumption |]. split; [constructor |].
    split; [reflexivity |]. split; [| reflexivity].
    intros (i' & _ & _ & Hi' & _). lia.
  - intros i r [_ Hi] (Hdr & Hinr & Hsame & Hsome & Hnone). simpl in Hi.
    destruct (bbReduceRow_spec n i r Hdr Hi)
      as (m & r' & (j0 & Hj0 & Hm) & Hmin & E & Hd' & Hskip & Hred & Hother & extra & Hz & Hex).
    exists r'. split; [assumption |]. split; [assumption |].
    split; [rewrite Hz; apply Forall_app; split; assumption |].
    split; [intros i' j Hi'; rewrite Hother by lia; apply Hsame; lia |].
    split.
    + intros (i' & j & x & Hi' & Hx & Hlt).
      destruct (decide (i' = i)) as [-> | Hne].
      * rewrite <- (Hsame i j (Nat.le_refl i)) in Hx. specialize (Hmin j x Hx).
        apply Hred. lia.
      * rewrite Hz. apply app_not_nil. apply Hsome. exists i', j, x.
        split; [lia | split; assumption].
    + intros Hall. rewrite (Hsame i j0 (Nat.le_refl i)) in Hm.
      rewrite (Hskip (Hall i j0 m Hm)). apply Hnone. assumption.
  - rewrite E1. cbn [mbind outcome_bind]. cbn [Nat.add] in Hsome1.
    destruct (for_range_total
      (fun (j : nat) r => rect n n (red_distances r) /\
                  Forall (zero_in_range n) (matrixZeroes r) /\
                  ((exists i' j x, cell (distances nodeData) i' j = Some x /\ x < INT_MAX) ->
                   matrixZeroes r <> []) /\
                  ((forall i j x, cell (distances nodeData) i j = Some x -> x = INT_MAX) ->
                   r = r0))
      (bbReduceColumn n) n 0 r1) as (r2 & E2 & Hd2 & Hin2 & Hsome2 & Hnone2).
    + split; [assumption |]. split; [assumption |]. split; [| assumption].
      intros (i & j & x & Hx & Hlt). apply Hsome1. exists i, j, x.
      split; [| split; assumption].
      apply (cell_Some_lt n _ _ _ _ Hd) in Hx. lia.
    + intros j r [_ Hj] (Hdr & Hinr & Hsome & Hnone). simpl in Hj.
      destruct (bbReduceColumn_spec n j r Hdr Hj)
        as (m & r' & (i0 & Hi0 & Hm) & _ & E & Hd' & Hskip & _ & _ & extra & Hz & Hex).
      exists r'. split; [assumption |]. split; [assumption |].
      split; [rewrite Hz; apply Forall_app; split; assumption |].
      split.
      * intros Hex'. rewrite Hz. apply app_not_nil. auto.
      * intros Hall. specialize (Hnone Hall). subst r.
        cbn [red_distances r0] in Hm. rewrite Hskip; [reflexivity |].
        left. eapply Hall. exact Hm.
    + exists r2. do 3 (split; [assumption |]). split; [assumption |].
      intros Hall. rewrite (Hnone2 Hall). reflexivity.
Qed.

(** X3. The root node of [branchAndBound] exists when one edge parameter, the
    diagonal included, is below [INT_MAX]. When every edge parameter is
    [INT_MAX], or the graph has no vertex, no zero is recorded,
    [std::max_element] returns the end of an empty list, and neither the
    root node nor [branchAndBound] has a defined result. *)
Theorem root_node_defined (g : IGraph) :
  ((exists i j, (i < getVertexCount g)%nat /\ (j < getVertexCount g)%nat /\
      getEdgeParameter g i j < INT_MAX) ->
   exists node, bbRootNode g = Done node) /\
  ((forall i j, (i < getVertexCount g)%nat -> (j < getVertexCount g)%nat ->
      getEdgeParameter g i j = INT_MAX) ->
   bbRootNode g = Undefined /\ forall fuel, branchAndBound fuel g = Undefined).
Proof.
  destruct (bbInitNode_spec g) as (initNode & Einit & Hdist & _).
  assert (Hd : rect (getVertexCount g) (getVertexCount g) (distances initNode)).
  { rewrite Hdist. apply rect_weight_matrix. }
  destruct (bbReduce_zero_list (getVertexCount g) initNode Hd)
    as (r & Er & Hdr & Hin & Hsome & Hnone).
  split.
  - intros (i & j & Hi & Hj & Hlt).
    destruct (bbCalculate_after_reduce (getVertexCount g) initNode r (proj1 Hd) Er Hdr Hin)
      as (node & Enode & _).
    + apply Hsome. exists i, j, (getEdgeParameter g i j). rewrite Hdist.
      split; [apply cell_weight_matrix; assumption | assumption].
    + exists node. unfold bbRootNode. rewrite Einit. exact Enode.
  - intros Hall.
    assert (Hroot : bbRootNode g = Undefined).
    { unfold bbRootNode. rewrite Einit. cbn [mbind outcome_bind].
      unfold bbCalculateLowerBoundAndDesignateHighestZeroPenalty.
      rewrite Er. cbn [mbind outcome_bind]. rewrite Hnone; [reflexivity |].
      intros i j x Hx. rewrite Hdist in Hx.
      pose proof (cell_Some_lt _ _ _ _ _ (rect_weight_matrix g) Hx) as [Hi Hj].
      rewrite cell_weight_matrix in Hx by assumption. inversion Hx. auto. }
    split; [assumption |]. intros fuel.
    unfold branchAndBound, bbInitialState. rewrite Hroot. reflexivity.
Qed.

(** X3 on [two_cities] and on a graph of two vertices with every edge
    parameter infinite. *)
Lemma root_node_defined_witness :
  (exists node, bbRootNode two_cities = Done node) /\
  bbRootNode {| getVertexCount := 2; getEdgeParameter := fun _ _ => INT_MAX |} = Undefined.
Proof.
  split.
  - apply (root_node_defined two_cities). exists 0%nat, 0%nat. vm_compute. auto.
  - apply (root_node_defined {| getVertexCount := 2; getEdgeParameter := fun _ _ => INT_MAX |}).
    reflexivity.
Defined.

(** *** The reduced root matrix *)

Lemma bbReduceCell_zeroes (n : nat) (minimum : Z) (i j : nat) (r : Reduction) :
  rect n n (red_distances r) -> (i < n)%nat -> (j < n)%nat ->
  exists r', bbReduceCell minimum i j r = Done r' /\
    (matrixZeroes r' = matrixZeroes r \/
     (matrixZeroes r' = matrixZeroes r ++ [zero_entry i j] /\
      cell (red_distances r') i j = Some 0)).
Proof.
  intros Hd Hi Hj. unfold bbReduceCell.
  destruct (cell_rect n n _ i j Hd Hi Hj) as [x Hx].
  apply mget_cell in Hx as Hget. rewrite Hget. cbn [mbind outcome_bind].
  destruct (Z.eqb_spec x INT_MAX) as [-> | Hfin]; [exists r; auto |].
  destruct (mset_rect n n (red_distances r) i j (int_sub x minimum) Hd Hi Hj)
    as (d' & E & Hd' & Hc & Ho).
  rewrite E. cbn [mbind outcome_bind].
  apply mget_cell in Hc as Hget'. rewrite Hget'. cbn [mbind outcome_bind].
  eexists. split; [reflexivity |]. cbn [red_distances matrixZeroes].
  destruct (Z.eqb_spec (int_sub x minimum) 0) as [E0 | N0]; [| auto].
  right. split; [reflexivity |]. rewrite Hc, E0. reflexivity.
Qed.

(** The zeros that the reduction of a line records are cells of the line
    that hold 0 when the loop ends. *)
Lemma reduce_line_zeroes (n : nat) (minimum : Z) (a b : nat -> nat) (r : Reduction) :
  rect n n (red_distances r) ->
  (forall k, (k < n)%nat -> (a k < n)%nat /\ (b k < n)%nat) ->
  (forall k k', (k < n)%nat -> (k' < n)%nat -> (a k, b k) = (a k', b k') -> k = k') ->
  exists r', for_range 0 n (fun k r => bbReduceCell minimum (a k) (b k) r) r = Done r' /\
    forall z, In z (matrixZeroes r') ->
      In z (matrixZeroes r) \/
      exists k, (k < n)%nat /\ z = zero_entry (a k) (b k) /\
        cell (red_distances r') (a k) (b k) = Some 0.
Proof.
  intros Hd Hab Hinj.
  destruct (for_range_total
    (fun k r1 => rect n n (red_distances r1) /\
       forall z, In z (matrixZeroes r1) ->
         In z (matrixZeroes r) \/
         exists k', (k' < k)%nat /\ z = zero_entry (a k') (b k') /\
           cell (red_distances r1) (a k') (b k') = Some 0)
    (fun k r => bbReduceCell minimum (a k) (b k) r) n 0 r) as (r' & E & _ & Hz).
  - split; [assumption | auto].
  - intros k r1 [_ Hk] [Hd1 Hz1]. simpl in Hk.
    destruct (Hab k Hk) as [Ha Hb].
    destruct (cell_rect n n _ _ _ Hd1 Ha Hb) as [x Hx].
    destruct (bbReduceCell_spec n minimum (a k) (b k) r1 x Hd1 Ha Hb Hx)
      as (r2 & E2 & Hd2 & _ & _ & Hother & _).
    destruct (bbReduceCell_zeroes n minimum (a k) (b k) r1 Hd1 Ha Hb) as (r3 & E3 & Hz3).
    rewrite E2 in E3. inversion E3; subst r3. clear E3.
    exists r2. split; [assumption |]. split; [assumption |].
    assert (Hold : forall z, In z (matrixZeroes r1) ->
      In z (matrixZeroes r) \/
      exists k', (k' < S k)%nat /\ z = zero_entry (a k') (b k') /\
        cell (red_distances r2) (a k') (b k') = Some 0).
    { intros z Hin. destruct (Hz1 z Hin) as [Hin0 | (k' & Hk' & -> & Hc)]; [auto |].
      right. exists k'. split; [lia |]. split; [reflexivity |].
      rewrite Hother; [assumption |]. intros Heq. apply Hinj in Heq; lia. }
    intros z Hin. destruct Hz3 as [Hsame | [Hnew Hc]].
    + rewrite Hsame in Hin. auto.
    + rewrite Hnew in Hin. apply in_app_or in Hin as [Hin | [<- | []]]; [auto |].
      right. exists k. split; [lia |]. split; [reflexivity | assumption].
  - exists r'. split; [assumption |]. intros z Hin.
    destruct (Hz z Hin) as [? | (k & Hk & ? & ?)]; [auto |].
    right. exists k. cbn [Nat.add] in Hk. auto.
Qed.

Lemma bbReduceRow_zeroes (n i : nat) (r : Reduction) :
  rect n n (red_distances r) -> (i < n)%nat ->
  exists r', bbReduceRow n i r = Done r' /\
    forall z, In z (matrixZeroes r') ->
      In z (matrixZeroes r) \/
      (edge_i z.1 = i /\ cell (red_distances r') i (edge_j z.1) = Some 0).
Proof.
  intros Hd Hi. pose proof Hd as [Hrows Hcols]. unfold bbReduceRow.
  destruct (lookup_lt_is_Some_2 (red_distances r) i) as [row Hrow]; [lia |].
  apply vget_Done in Hrow as Hget. rewrite Hget. cbn [mbind outcome_bind].
  destruct (min_element_spec row) as (m & Em & _).
  { intros ->. apply Hcols in Hrow. simpl in Hrow. lia. }
  rewrite Em. cbn [mbind outcome_bind].
  destruct (m =? INT_MAX); [exists r; auto |].
  destruct (reduce_line_zeroes n m (fun _ => i) (fun k => k) r Hd) as (r' & E & Hz).
  - intros k Hk. split; assumption.
  - intros k k' _ _ Heq. inversion Heq. reflexivity.
  - rewrite E. cbn [mbind outcome_bind]. eexists. split; [reflexivity |].
    cbn [bbAddToBound matrixZeroes red_distances]. intros z Hin.
    destruct (Hz z Hin) as [? | (k & _ & -> & Hc)]; [auto |]. right. auto.
Qed.

Lemma bbReduceColumn_zeroes (n j : nat) (r : Reduction) :
  rect n n (red_distances r) -> (j < n)%nat ->
  exists r', bbReduceColumn n j r = Done r' /\
    forall z, In z (matrixZeroes r') ->
      In z (matrixZeroes r) \/
      (edge_j z.1 = j /\ cell (red_distances r') (edge_i z.1) j = Some 0).
Proof.
  intros Hd Hj. unfold bbReduceColumn.
  destruct (bbColumnMinimum_spec n (red_distances r) j Hd Hj) as (m & Em & _).
  rewrite Em. cbn [mbind outcome_bind].
  destruct ((m =? INT_MAX) || (m =? 0)); [exists r; auto |].
  destruct (reduce_line_zeroes n m (fun k => k) (fun _ => j) r Hd) as (r' & E & Hz).
  - intros k Hk. split; assumption.
  - intros k k' _ _ Heq. inversion Heq. reflexivity.
  - rewrite E. cbn [mbind outcome_bind]. eexists. split; [reflexivity |].
    cbn [bbAddToBound matrixZeroes red_distances]. intros z Hin.
    destruct (Hz z Hin) as [? | (k & _ & -> & Hc)]; [auto |]. right. auto.
Qed.

Lemma bbAllPenalties_edges (n : nat) (d : matrix) (zeroes out : ZeroList) :
  bbAllPenalties n d zeroes = Done out -> map fst out = map fst zeroes.
Proof.
  unfold bbAllPenalties.
  enough (forall done : ZeroList,
    for_each zeroes (fun zero done => p ← bbPenalties n d zero.1; Done (done ++ [(zero.1, p)]))
      done = Done out -> map fst out = map fst done ++ map fst zeroes) as H.
  { intros E. apply (H [] E). }
  induction zeroes as [|zero zeroes IH]; intros done E; simpl in E.
  - inversion E. rewrite app_nil_r. reflexivity.
  - destruct (bbPenalties n d zero.1) as [p | |]; cbn [mbind outcome_bind] in E;
      try discriminate.
    rewrite (IH _ E), map_app, <- app_assoc. reflexivity.
Qed.

Lemma max_element_In {A : Type} (less : A -> A -> bool) (l : list A) (x : A) :
  max_element less l = Done x -> In x l.
Proof.
  destruct l as [|y l]; [discriminate |]. simpl. intros E. inversion E as [E'].
  clear E E'. revert y. induction l as [|z l IH]; intros y; simpl; [auto |].
  destruct (IH (if less y z then z else y)) as [Heq | Hin]; [| auto].
  rewrite <- Heq. destruct (less y z); auto.
Qed.

Lemma scenario_inf_fits : well_formed scenario_inf /\ matrix_fits scenario_inf.
Proof.
  split.
  - split; [simpl; lia |]. intros i j Hi Hj Hne. simpl in Hi, Hj.
    do 4 (destruct i as [|i]; [do 4 (destruct j as [|j]; [simpl; lia |]); lia |]). lia.
  - exists 35. split; [split |].
    + intros i j Hi Hj Hne. simpl in Hi, Hj.
      do 4 (destruct i as [|i]; [do 4 (destruct j as [|j]; [simpl; lia |]); lia |]). lia.
    + vm_compute. discriminate.
    + intros i Hi. simpl in Hi.
      do 4 (destruct i as [|i]; [simpl; unfold INT_MAX; lia |]). lia.
Qed.

Section RootMatrix.

Variable g : IGraph.
Variable W : Z.
Hypothesis Hwf : well_formed g.
Hypothesis Hbound : bounded_by g W.
Hypothesis Hdiag : diagonal_fits g W.

Local Abbreviation n := (getVertexCount g).

(** In the column loop every cell is non-negative, and finite where the
    edge parameter is. *)
Lemma column_invariant_cells (rv : nat -> Z) (j : nat) (r : Reduction) (a b : nat) :
  column_invariant g rv j r -> (a < n)%nat -> (b < n)%nat ->
  exists v, cell (red_distances r) a b = Some v /\ 0 <= v /\
    (a <> b -> v < INT_MAX).
Proof using Hwf Hbound Hdiag.
  intros (_ & _ & _ & cv & _ & _ & _ & Hred & Hfeas) Ha Hb.
  rewrite (Hred a b Ha Hb).
  destruct (Z.eqb_spec (getEdgeParameter g a b) INT_MAX) as [E | N].
  - eexists. split; [reflexivity |]. split; [unfold INT_MAX; lia |].
    intros Hne. pose proof (off_diagonal_finite g W Hwf Hbound a b Ha Hb Hne). contradiction.
  - eexists. split; [reflexivity |]. specialize (Hfeas a b Ha Hb N). lia.
Qed.

Lemma row_step_zeroes (i : nat) (r : Reduction) :
  (i < n)%nat -> row_invariant g W i r ->
  (forall z, In z (matrixZeroes r) ->
     (edge_i z.1 < i)%nat /\ cell (red_distances r) (edge_i z.1) (edge_j z.1) = Some 0) ->
  (forall a, (a < i)%nat -> exists b, In (zero_entry a b) (matrixZeroes r)) ->
  exists r', bbReduceRow n i r = Done r' /\ row_invariant g W (S i) r' /\
    (forall z, In z (matrixZeroes r') ->
       (edge_i z.1 < S i)%nat /\
       cell (red_distances r') (edge_i z.1) (edge_j z.1) = Some 0) /\
    (forall a, (a < S i)%nat -> exists b, In (zero_entry a b) (matrixZeroes r')).
Proof using Hwf Hbound Hdiag.
  intros Hi Hinv Hz Hrec.
  destruct (row_step g W Hwf Hbound Hdiag i r Hi Hinv) as (r' & E & Hinv').
  exists r'. split; [assumption |]. split; [assumption |].
  pose proof Hinv as (Hd & _ & _ & rv & Hrv0 & _ & _ & _ & Hred & _).
  destruct (bbReduceRow_spec n i r Hd Hi)
    as (m & r1 & _ & Hmin & E1 & _ & _ & Hchg & Hother & extra & Hext & _).
  rewrite E in E1. inversion E1; subst r1. clear E1.
  destruct (bbReduceRow_zeroes n i r Hd Hi) as (r2 & E2 & Hnew).
  rewrite E in E2. inversion E2; subst r2. clear E2.
  split.
  - intros z Hin. destruct (Hnew z Hin) as [Hold | [Hrow Hc]].
    + destruct (Hz z Hold) as [Hlt Hc]. split; [lia |].
      rewrite Hother by lia. assumption.
    + split; [lia |]. rewrite Hrow. assumption.
  - intros a Ha. destruct (decide (a = i)) as [-> | Hne].
    + pose proof Hwf as [Hn _].
      assert (Hj : exists j, (j < n)%nat /\ j <> i).
      { destruct i; [exists 1%nat | exists 0%nat]; lia. }
      destruct Hj as (j & Hj & Hji).
      pose proof (Hred i j Hi Hj) as Hc.
      pose proof (off_diagonal_finite g W Hwf Hbound i j Hi Hj ltac:(lia)) as Hfin.
      destruct (Z.eqb_spec (getEdgeParameter g i j) INT_MAX); [contradiction |].
      specialize (Hmin j _ Hc). rewrite (Hrv0 i) in Hmin by lia.
      pose proof (W_range g W Hwf Hbound) as HW. destruct Hbound as [Hle _].
      specialize (Hle i j Hi Hj ltac:(lia)).
      destruct Hchg as (_ & _ & _ & j0 & _ & Hin); [lia |]. eauto.
    + destruct (Hrec a ltac:(lia)) as [b Hb]. exists b. rewrite Hext.
      apply in_or_app. auto.
Qed.

Lemma column_step_zeroes (rv : nat -> Z) (j : nat) (r : Reduction) :
  (forall k, - W <= rv k <= W) -> (j < n)%nat -> column_invariant g rv j r ->
  (forall z, In z (matrixZeroes r) ->
     cell (red_distances r) (edge_i z.1) (edge_j z.1) = Some 0) ->
  (forall b, (b < j)%nat -> exists a, (a < n)%nat /\ cell (red_distances r) a b = Some 0) ->
  exists r', bbReduceColumn n j r = Done r' /\ column_invariant g rv (S j) r' /\
    (forall z, In z (matrixZeroes r') ->
       cell (red_distances r') (edge_i z.1) (edge_j z.1) = Some 0) /\
    (forall b, (b < S j)%nat ->
       exists a, (a < n)%nat /\ cell (red_distances r') a b = Some 0) /\
    exists extra, matrixZeroes r' = matrixZeroes r ++ extra.
Proof using Hwf Hbound Hdiag.
  intros Hrv Hj Hinv Hz Hcol.
  destruct (column_step g W Hwf Hbound Hdiag rv j r Hrv Hj Hinv) as (r' & E & Hinv').
  exists r'. split; [assumption |]. split; [assumption |].
  pose proof Hinv as (Hd & _).
  destruct (bbReduceColumn_spec n j r Hd Hj)
    as (m & r1 & (i0 & Hi0 & Hm) & Hmin & E1 & _ & Hskip & Hchg & Hother & extra & Hext & _).
  rewrite E in E1. inversion E1; subst r1. clear E1.
  destruct (bbReduceColumn_zeroes n j r Hd Hj) as (r2 & E2 & Hnew).
  rewrite E in E2. inversion E2; subst r2. clear E2.
  destruct (column_invariant_cells rv j r i0 j Hinv Hi0 Hj) as (v & Hv & Hv0 & _).
  rewrite Hm in Hv. inversion Hv; subst v. clear Hv.
  assert (Hfin : m <> INT_MAX).
  { pose proof Hwf as [Hn _].
    assert (Ha : exists a, (a < n)%nat /\ a <> j).
    { destruct j; [exists 1%nat | exists 0%nat]; lia. }
    destruct Ha as (a & Ha & Haj).
    destruct (column_invariant_cells rv j r a j Hinv Ha Hj) as (v & Hv & _ & Hlt).
    specialize (Hmin a v Hv). specialize (Hlt Haj). lia. }
  destruct (Z.eq_dec m 0) as [-> | Hm0].
  - rewrite (Hskip (or_intror eq_refl)).
    split; [assumption |]. split; [| exists []; rewrite app_nil_r; reflexivity].
    intros b Hb. destruct (decide (b = j)) as [-> | Hne]; [eauto |].
    apply Hcol. lia.
  - destruct (Hchg Hfin Hm0) as (_ & Hcells).
    split; [| split; [| eauto]].
    + intros z Hin. destruct (Hnew z Hin) as [Hold | [Hcolj Hc]].
      * specialize (Hz z Hold). rewrite Hother; [assumption |].
        intros Heq. rewrite Heq in Hz. specialize (Hmin _ _ Hz). lia.
      * rewrite Hcolj. assumption.
    + intros b Hb. destruct (decide (b = j)) as [-> | Hne].
      * exists i0. split; [assumption |]. rewrite (Hcells i0 m Hm). unfold reduced.
        destruct (Z.eqb_spec m INT_MAX); [contradiction |]. rewrite int_sub_diag. reflexivity.
      * destruct (Hcol b ltac:(lia)) as (a & Ha & Hc). exists a. split; [assumption |].
        rewrite Hother by assumption. assumption.
Qed.

Lemma root_matrix_reduced_aux :
  exists initNode r node,
    bbInitNode g = Done initNode /\ bbReduce initNode = Done r /\
    bbRootNode g = Done node /\ distances node = red_distances r /\
    In (highestZeroPenaltiesIndexes node) (map fst (matrixZeroes r)) /\
    Forall (zero_in_range n) (matrixZeroes r) /\
    (forall z, In z (matrixZeroes r) ->
       cell (distances node) (edge_i z.1) (edge_j z.1) = Some 0) /\
    (forall a b, (a < n)%nat -> (b < n)%nat ->
       exists v, cell (distances node) a b = Some v /\ 0 <= v /\ (a <> b -> v < INT_MAX)) /\
    (forall a, (a < n)%nat -> exists b, (b < n)%nat /\ cell (distances node) a b = Some 0) /\
    (forall b, (b < n)%nat -> exists a, (a < n)%nat /\ cell (distances node) a b = Some 0).
Proof using Hwf Hbound Hdiag.
  pose proof Hwf as [Hn _]. pose proof (W_range g W Hwf Hbound) as HW.
  destruct (bbInitNode_spec g) as (initNode & Einit & Hdist & Hlb0).
  assert (Hlen : length (distances initNode) = n).
  { rewrite Hdist. apply rect_weight_matrix. }
  destruct (for_range_total
    (fun i r => row_invariant g W i r /\
       (forall z, In z (matrixZeroes r) ->
          (edge_i z.1 < i)%nat /\
          cell (red_distances r) (edge_i z.1) (edge_j z.1) = Some 0) /\
       (forall a, (a < i)%nat -> exists b, In (zero_entry a b) (matrixZeroes r)))
    (bbReduceRow n) n 0
    {| red_distances := distances initNode;
       red_lowerBound := lowerBound initNode;
       matrixZeroes := [] |}) as (r1 & E1 & Hrows & Hz1 & Hrec1).
  { split; [| split; [intros z [] | intros; lia]].
    unfold row_invariant. cbn [red_distances red_lowerBound matrixZeroes].
    rewrite Hdist, Hlb0.
    split; [apply rect_weight_matrix |]. split; [constructor |]. split; [lia |].
    exists (fun _ => 0). split; [reflexivity |]. split; [intros; lia |].
    split; [rewrite sum_over_zero; reflexivity |]. split; [lia |].
    split; [| intros a b Ha; lia].
    intros a b Ha Hb. rewrite cell_weight_matrix by assumption.
    destruct (Z.eqb_spec (getEdgeParameter g a b) INT_MAX); f_equal; lia. }
  { intros i r [_ Hi] (Hinv & Hz & Hrec). apply row_step_zeroes; assumption. }
  cbn [Nat.add] in Hrows, Hz1, Hrec1.
  destruct Hrows as (Hd1 & Hin1 & Hne1 & rv & _ & Hrvb & Hlb1 & _ & Hred1 & Hfeas1).
  destruct (for_range_total
    (fun j r => column_invariant g rv j r /\
       (forall z, In z (matrixZeroes r) ->
          cell (red_distances r) (edge_i z.1) (edge_j z.1) = Some 0) /\
       (forall b, (b < j)%nat ->
          exists a, (a < n)%nat /\ cell (red_distances r) a b = Some 0) /\
       (forall a, (a < n)%nat -> exists b, In (zero_entry a b) (matrixZeroes r)))
    (bbReduceColumn n) n 0 r1) as (r2 & E2 & Hcols & Hz2 & Hcol2 & Hrec2).
  { split; [| split; [| split; [intros; lia | assumption]]].
    - split; [assumption |]. split; [assumption |]. split; [apply Hne1; lia |].
      exists (fun _ => 0). split; [reflexivity |]. split; [intros; lia |].
      split; [rewrite sum_over_zero; lia |]. split; assumption.
    - intros z Hin. apply Hz1. assumption. }
  { intros j r [_ Hj] (Hinv & Hz & Hcol & Hrec).
    destruct (column_step_zeroes rv j r Hrvb Hj Hinv Hz Hcol)
      as (r' & E & Hinv' & Hz' & Hcol' & extra & Hext).
    exists r'. split; [assumption |]. do 3 (split; [assumption |]).
    intros a Ha. destruct (Hrec a Ha) as [b Hb]. exists b. rewrite Hext.
    apply in_or_app. auto. }
  cbn [Nat.add] in Hcols, Hcol2.
  pose proof Hcols as (Hd2 & Hin2 & Hne2 & _).
  assert (Er : bbReduce initNode = Done r2).
  { unfold bbReduce. rewrite Hlen, E1. cbn [mbind outcome_bind]. exact E2. }
  assert (Hcalc : exists node,
    bbCalculateLowerBoundAndDesignateHighestZeroPenalty initNode = Done node /\
    distances node = red_distances r2 /\
    In (highestZeroPenaltiesIndexes node) (map fst (matrixZeroes r2))).
  { unfold bbCalculateLowerBoundAndDesignateHighestZeroPenalty.
    rewrite Er, Hlen. cbn [mbind outcome_bind].
    destruct (bbAllPenalties_total n (red_distances r2) (matrixZeroes r2) Hd2 Hin2)
      as (zs & Ez & Hlenz).
    rewrite Ez. cbn [mbind outcome_bind].
    destruct (max_element_total penaltyLess zs) as [z Hzmax].
    { intros ->. destruct (matrixZeroes r2); [congruence | discriminate]. }
    rewrite Hzmax. cbn [mbind outcome_bind].
    eexists. split; [reflexivity |]. split; [reflexivity |].
    cbn [highestZeroPenaltiesIndexes].
    rewrite <- (bbAllPenalties_edges _ _ _ _ Ez). apply in_map.
    eapply max_element_In. exact Hzmax. }
  destruct Hcalc as (node & Enode & Hdn & Hedge).
  exists initNode, r2, node.
  split; [assumption |]. split; [assumption |].
  split; [unfold bbRootNode; rewrite Einit; exact Enode |].
  split; [assumption |]. split; [assumption |]. split; [assumption |].
  rewrite Hdn. split; [assumption |].
  split; [intros a b Ha Hb; apply (column_invariant_cells rv n); assumption |].
  split; [| assumption].
  intros a Ha. destruct (Hrec2 a Ha) as [b Hb].
  pose proof (proj1 (List.Forall_forall _ _) Hin2 _ Hb) as [_ Hbn].
  exists b. split; [exact Hbn |]. apply (Hz2 _ Hb).
Qed.

End RootMatrix.

(** X4. On a well-formed instance whose entries fit the arithmetic
    precondition, the matrix of the root node is reduced: no cell is negative, the cells
    off the diagonal are finite, every row and every column holds a zero,
    and the cell designated for branching is a cell of the matrix that
    holds zero. *)
Theorem root_matrix_reduced (g : IGraph) :
  well_formed g -> matrix_fits g ->
  exists node, bbRootNode g = Done node /\
    (forall a b, (a < getVertexCount g)%nat -> (b < getVertexCount g)%nat ->
       exists v, cell (distances node) a b = Some v /\ 0 <= v /\ (a <> b -> v < INT_MAX)) /\
    (forall a, (a < getVertexCount g)%nat ->
       exists b, (b < getVertexCount g)%nat /\ cell (distances node) a b = Some 0) /\
    (forall b, (b < getVertexCount g)%nat ->
       exists a, (a < getVertexCount g)%nat /\ cell (distances node) a b = Some 0) /\
    (edge_i (highestZeroPenaltiesIndexes node) < getVertexCount g)%nat /\
    (edge_j (highestZeroPenaltiesIndexes node) < getVertexCount g)%nat /\
    cell (distances node) (edge_i (highestZeroPenaltiesIndexes node))
         (edge_j (highestZeroPenaltiesIndexes node)) = Some 0.
Proof.
  intros Hwf (W & Hbound & Hdiag).
  destruct (root_matrix_reduced_aux g W Hwf Hbound Hdiag)
    as (initNode & r & node & _ & _ & Eroot & _ & Hedge & Hrange & Hzero & Hcells & Hrow & Hcol).
  exists node. do 4 (split; [assumption |]).
  apply in_map_iff in Hedge as (z & Hz1 & Hz).
  rewrite <- Hz1.
  pose proof (proj1 (List.Forall_forall _ _) Hrange z Hz) as [Hi Hj].
  split; [exact Hi |]. split; [exact Hj |]. apply Hzero. assumption.
Qed.

(** X4 on the scenario with an infinite diagonal. *)
Lemma root_matrix_reduced_witness :
  well_formed scenario_inf /\ matrix_fits scenario_inf /\
  exists node, bbRootNode scenario_inf = Done node /\
    (forall a, (a < 4)%nat -> exists b, (b < 4)%nat /\ cell (distances node) a b = Some 0) /\
    (forall b, (b < 4)%nat -> exists a, (a < 4)%nat /\ cell (distances node) a b = Some 0) /\
    cell (distances node) (edge_i (highestZeroPenaltiesIndexes node))
         (edge_j (highestZeroPenaltiesIndexes node)) = Some 0.
Proof.
  destruct scenario_inf_fits as [Hwf Hfits].
  split; [exact Hwf |]. split; [exact Hfits |].
  destruct (root_matrix_reduced scenario_inf Hwf Hfits)
    as (node & E & _ & Hrow & Hcol & _ & _ & Hzero).
  exists node. split; [exact E |]. split; [exact Hrow |]. split; [exact Hcol | exact Hzero].
Defined.

(** *** The root node of a graph with a zero diagonal *)

Lemma int_sub_0_r (x : Z) : 0 <= x <= INT_MAX -> int_sub x 0 = x.
Proof.
  intros H. unfold int_sub. rewrite Z.sub_0_r. apply to_int_id.
  unfold is_int, INT_MIN, INT_MAX in *. lia.
Qed.

(** With a zero diagonal and no negative weight, every row and every column
    of the root matrix has minimum 0 from the start: the reduction loops
    leave the matrix and the bound as they are and record only cells whose
    edge parameter is 0. *)
Lemma bbReduce_zero_diagonal (g : IGraph) (nodeData : BBNodeData) :
  (1 <= getVertexCount g)%nat ->
  (forall i, (i < getVertexCount g)%nat -> getEdgeParameter g i i = 0) ->
  (forall i j, (i < getVertexCount g)%nat -> (j < getVertexCount g)%nat ->
     0 <= getEdgeParameter g i j <= INT_MAX) ->
  distances nodeData = weight_matrix g -> lowerBound nodeData = 0 ->
  exists r, bbReduce nodeData = Done r /\
    red_distances r = weight_matrix g /\ red_lowerBound r = 0 /\
    Forall (zero_in_range (getVertexCount g)) (matrixZeroes r) /\
    matrixZeroes r <> [] /\
    forall z, In z (matrixZeroes r) -> getEdgeParameter g (edge_i z.1) (edge_j z.1) = 0.
Proof.
  intros Hn Hdiag Hw Hdist Hlb. set (n := getVertexCount g) in *.
  pose proof (rect_weight_matrix g) as Hrect. fold n in Hrect.
  assert (Hkeep : forall x, 0 <= x <= INT_MAX -> reduced 0 x = x).
  { intros x Hx. unfold reduced. destruct (x =? INT_MAX); [reflexivity |].
    apply int_sub_0_r. assumption. }
  assert (Hcellw : forall a b x, cell (weight_matrix g) a b = Some x ->
    (a < n)%nat /\ (b < n)%nat /\ x = getEdgeParameter g a b).
  { intros a b x Hx. pose proof (cell_Some_lt _ _ _ _ _ Hrect Hx) as [Ha Hb].
    rewrite cell_weight_matrix in Hx by assumption. inversion Hx. auto. }
  unfold bbReduce. rewrite Hdist. rewrite (proj1 Hrect).
  destruct (for_range_total
    (fun i r => red_distances r = weight_matrix g /\ red_lowerBound r = 0 /\
       Forall (zero_in_range n) (matrixZeroes r) /\
       ((1 <= i)%nat -> matrixZeroes r <> []) /\
       forall z, In z (matrixZeroes r) -> getEdgeParameter g (edge_i z.1) (edge_j z.1) = 0)
    (bbReduceRow n) n 0
    {| red_distances := weight_matrix g;
       red_lowerBound := lowerBound nodeData;
       matrixZeroes := [] |}) as (r1 & E1 & Hd1 & Hlb1 & Hin1 & Hne1 & Hz1).
  - cbn [red_distances red_lowerBound matrixZeroes].
    split; [reflexivity |]. split; [assumption |]. split; [constructor |].
    split; [lia | intros z []].
  - intros i r [_ Hi] (Hd & Hlbr & Hin & Hne & Hz). simpl in Hi.
    assert (Hdr : rect n n (red_distances r)) by (rewrite Hd; exact Hrect).
    destruct (bbReduceRow_spec n i r Hdr Hi)
      as (m & r' & (j0 & Hj0 & Hm) & Hmin & E & Hd' & _ & Hchg & Hother & extra & Hext & Hex).
    destruct (bbReduceRow_zeroes n i r Hdr Hi) as (r2 & E2 & Hnew).
    rewrite E in E2. inversion E2; subst r2. clear E2.
    assert (Hm0 : m = 0).
    { rewrite Hd in Hm, Hmin. apply Hcellw in Hm as (_ & _ & ->).
      specialize (Hmin i 0). rewrite cell_weight_matrix, Hdiag in Hmin by assumption.
      specialize (Hmin eq_refl). specialize (Hw i j0 Hi Hj0). lia. }
    subst m. destruct Hchg as (Hlb' & Hcells & Hne' & _); [unfold INT_MAX; lia |].
    assert (Hd2 : red_distances r' = weight_matrix g).
    { apply (matrix_ext n n); [assumption | assumption |].
      intros a b Ha Hb. destruct (decide (a = i)) as [-> | Hai].
      - rewrite (Hcells b (getEdgeParameter g i b)).
        + rewrite Hkeep by (apply Hw; assumption).
          symmetry. apply cell_weight_matrix; assumption.
        + rewrite Hd. apply cell_weight_matrix; assumption.
      - rewrite Hother by assumption. rewrite Hd. reflexivity. }
    exists r'. split; [assumption |]. split; [assumption |].
    split; [rewrite Hlb', Hlbr; reflexivity |].
    split; [rewrite Hext; apply Forall_app; split; assumption |].
    split; [intros _; assumption |].
    intros z Hin'. destruct (Hnew z Hin') as [Hold | [Hrow Hc]]; [auto |].
    rewrite Hd2 in Hc. apply Hcellw in Hc as (_ & _ & Hc). rewrite Hrow. auto.
  - rewrite E1. cbn [mbind outcome_bind]. cbn [Nat.add] in Hne1.
    exists r1. split; [| do 3 (split; [assumption |]); split; [apply Hne1; lia | assumption]].
    apply for_range_fixed. intros j [_ Hj]. simpl in Hj.
    assert (Hdr : rect n n (red_distances r1)) by (rewrite Hd1; exact Hrect).
    destruct (bbReduceColumn_spec n j r1 Hdr Hj)
      as (m & r' & (i0 & Hi0 & Hm) & Hmin & E & _ & Hskip & _).
    rewrite E. f_equal. apply Hskip. right.
    rewrite Hd1 in Hm, Hmin. apply Hcellw in Hm as (_ & _ & ->).
    specialize (Hmin j 0). rewrite cell_weight_matrix, Hdiag in Hmin by assumption.
    specialize (Hmin eq_refl). specialize (Hw i0 j Hi0 Hj). lia.
Qed.

(** X5. On a graph with a zero diagonal and no negative weight the root node
    has lower bound 0, its matrix is the weight matrix of the graph, and
    the cell designated for branching is an edge of weight 0: a self-loop
    when the weights off the diagonal are positive. *)
Theorem zero_diagonal_root (g : IGraph) :
  (1 <= getVertexCount g)%nat ->
  (forall i, (i < getVertexCount g)%nat -> getEdgeParameter g i i = 0) ->
  (forall i j, (i < getVertexCount g)%nat -> (j < getVertexCount g)%nat ->
     0 <= getEdgeParameter g i j <= INT_MAX) ->
  exists node, bbRootNode g = Done node /\
    lowerBound node = 0 /\ distances node = weight_matrix g /\
    (edge_i (highestZeroPenaltiesIndexes node) < getVertexCount g)%nat /\
    (edge_j (highestZeroPenaltiesIndexes node) < getVertexCount g)%nat /\
    getEdgeParameter g (edge_i (highestZeroPenaltiesIndexes node))
                       (edge_j (highestZeroPenaltiesIndexes node)) = 0 /\
    ((forall i j, (i < getVertexCount g)%nat -> (j < getVertexCount g)%nat -> i <> j ->
        0 < getEdgeParameter g i j) ->
     edge_i (highestZeroPenaltiesIndexes node) = edge_j (highestZeroPenaltiesIndexes node)).
Proof.
  intros Hn Hdiag Hw.
  destruct (bbInitNode_spec g) as (initNode & Einit & Hdist & Hlb0).
  destruct (bbReduce_zero_diagonal g initNode Hn Hdiag Hw Hdist Hlb0)
    as (r & Er & Hd & Hlb & Hin & Hne & Hz).
  assert (Hlen : length (distances initNode) = getVertexCount g).
  { rewrite Hdist. apply rect_weight_matrix. }
  assert (Hdr : rect (getVertexCount g) (getVertexCount g) (red_distances r)).
  { rewrite Hd. apply rect_weight_matrix. }
  unfold bbRootNode. rewrite Einit. cbn [mbind outcome_bind].
  unfold bbCalculateLowerBoundAndDesignateHighestZeroPenalty.
  rewrite Er, Hlen. cbn [mbind outcome_bind].
  destruct (bbAllPenalties_total _ (red_distances r) (matrixZeroes r) Hdr Hin)
    as (zs & Ez & Hlenz).
  rewrite Ez. cbn [mbind outcome_bind].
  destruct (max_element_total penaltyLess zs) as [z Hzmax].
  { intros ->. destruct (matrixZeroes r); [congruence | discriminate]. }
  rewrite Hzmax. cbn [mbind outcome_bind].
  eexists. split; [reflexivity |].
  cbn [lowerBound distances highestZeroPenaltiesIndexes].
  split; [assumption |]. split; [assumption |].
  assert (Hedge : In z.1 (map fst (matrixZeroes r))).
  { rewrite <- (bbAllPenalties_edges _ _ _ _ Ez). apply in_map.
    eapply max_element_In. exact Hzmax. }
  apply in_map_iff in Hedge as (z0 & Hz1 & Hz0). rewrite <- Hz1.
  pose proof (proj1 (List.Forall_forall _ _) Hin z0 Hz0) as [Hi Hj].
  split; [exact Hi |]. split; [exact Hj |]. split; [apply Hz; assumption |].
  intros Hpos. destruct (decide (edge_i z0.1 = edge_j z0.1)) as [|Hne']; [assumption |].
  specialize (Hpos _ _ Hi Hj Hne'). rewrite (Hz z0 Hz0) in Hpos. lia.
Qed.

(** X5 on the scenario. *)
Lemma zero_diagonal_root_witness :
  (1 <= getVertexCount scenario)%nat /\
  exists node, bbRootNode scenario = Done node /\
    lowerBound node = 0 /\ distances node = weight_matrix scenario /\
    edge_i (highestZeroPenaltiesIndexes node) = edge_j (highestZeroPenaltiesIndexes node).
Proof.
  split; [simpl; lia |].
  destruct (zero_diagonal_root scenario) as (node & E & Hlb & Hd & _ & _ & _ & Hloop).
  - simpl. lia.
  - intros i Hi. simpl in Hi. do 4 (destruct i as [|i]; [reflexivity |]). lia.
  - intros i j Hi Hj. simpl in Hi, Hj. unfold INT_MAX.
    do 4 (destruct i as [|i]; [do 4 (destruct j as [|j]; [simpl; lia |]); lia |]). lia.
  - exists node. do 3 (split; [assumption |]). apply Hloop.
    intros i j Hi Hj Hne. simpl in Hi, Hj.
    do 4 (destruct i as [|i]; [do 4 (destruct j as [|j]; [simpl; lia |]); lia |]). lia.
Defined.

(** *** The penalties of the recorded zeros *)

(** [bbPenalties] returns the least entry of the row of the zero and the
    least entry of its column, the cell of the zero left out, and
    [INT_MAX] where no other entry is below it. *)
Lemma bbPenalties_spec (n : nat) (d : matrix) (zero : EdgeCities) :
  rect n n d -> (edge_i zero < n)%nat -> (edge_j zero < n)%nat ->
  exists p, bbPenalties n d zero = Done p /\
    penalty_row p <= INT_MAX /\
    (forall j x, j <> edge_j zero -> cell d (edge_i zero) j = Some x -> penalty_row p <= x) /\
    (penalty_row p = INT_MAX \/
     exists j, (j < n)%nat /\ j <> edge_j zero /\
       cell d (edge_i zero) j = Some (penalty_row p)) /\
    penalty_column p <= INT_MAX /\
    (forall i x, i <> edge_i zero -> cell d i (edge_j zero) = Some x ->
       penalty_column p <= x) /\
    (penalty_column p = INT_MAX \/
     exists i, (i < n)%nat /\ i <> edge_i zero /\
       cell d i (edge_j zero) = Some (penalty_column p)).
Proof.
  intros Hd Hi Hj. unfold bbPenalties.
  assert (Hloop : forall (a b : nat -> nat) (skip : nat),
    (forall k, (k < n)%nat -> (a k < n)%nat /\ (b k < n)%nat) ->
    exists m,
      for_range 0 n (fun k minimum =>
          x ← mget d (a k) (b k);
          Done (if (x <? minimum) && negb (k =? skip)%nat then x else minimum)) INT_MAX
      = Done m /\
      m <= INT_MAX /\
      (forall k x, (k < n)%nat -> k <> skip -> cell d (a k) (b k) = Some x -> m <= x) /\
      (m = INT_MAX \/
       exists k, (k < n)%nat /\ k <> skip /\ cell d (a k) (b k) = Some m)).
  { intros a b skip Hab.
    destruct (for_range_total
      (fun k m => m <= INT_MAX /\
         (forall k' x, (k' < k)%nat -> k' <> skip -> cell d (a k') (b k') = Some x -> m <= x) /\
         (m = INT_MAX \/
          exists k', (k' < k)%nat /\ k' <> skip /\ cell d (a k') (b k') = Some m))
      (fun k minimum =>
          x ← mget d (a k) (b k);
          Done (if (x <? minimum) && negb (k =? skip)%nat then x else minimum))
      n 0 INT_MAX) as (m & E & Hle & Hall & Hatt).
    - split; [lia |]. split; [intros; lia | auto].
    - intros k m [_ Hk] (Hle & Hall & Hatt). cbn [Nat.add] in Hk.
      destruct (Hab k Hk) as [Ha Hb].
      destruct (cell_rect n n d _ _ Hd Ha Hb) as [x Hx].
      apply mget_cell in Hx as Hget. rewrite Hget. cbn [mbind outcome_bind].
      eexists. split; [reflexivity |].
      destruct (Z.ltb_spec x m) as [Hlt | Hge]; destruct (Nat.eqb_spec k skip) as [-> | Hne];
        cbn [andb negb].
      + split; [assumption |]. split.
        * intros k' x' Hk' Hne' Hx'. apply (Hall k' x'); [lia | assumption | assumption].
        * destruct Hatt as [? | (k' & ? & ? & ?)]; [auto |]. right. exists k'.
          split; [lia | auto].
      + split; [lia |]. split.
        * intros k' x' Hk' Hne' Hx'. destruct (decide (k' = k)) as [-> | ?].
          -- rewrite Hx in Hx'. inversion Hx'. lia.
          -- specialize (Hall k' x' ltac:(lia) Hne' Hx'). lia.
        * right. exists k. split; [lia | auto].
      + split; [assumption |]. split.
        * intros k' x' Hk' Hne' Hx'. apply (Hall k' x'); [lia | assumption | assumption].
        * destruct Hatt as [? | (k' & ? & ? & ?)]; [auto |]. right. exists k'.
          split; [lia | auto].
      + split; [assumption |]. split.
        * intros k' x' Hk' Hne' Hx'. destruct (decide (k' = k)) as [-> | ?].
          -- rewrite Hx in Hx'. inversion Hx'. lia.
          -- apply (Hall k' x'); [lia | assumption | assumption].
        * destruct Hatt as [? | (k' & ? & ? & ?)]; [auto |]. right. exists k'.
          split; [lia | auto].
    - exists m. cbn [Nat.add] in Hall, Hatt. auto. }
  destruct (Hloop (fun _ => edge_i zero) (fun j => j) (edge_j zero))
    as (rm & Erm & Hrle & Hrall & Hratt); [intros; split; assumption |].
  destruct (Hloop (fun i => i) (fun _ => edge_j zero) (edge_i zero))
    as (cm & Ecm & Hcle & Hcall & Hcatt); [intros; split; assumption |].
  rewrite Erm. cbn [mbind outcome_bind]. rewrite Ecm. cbn [mbind outcome_bind].
  eexists. split; [reflexivity |]. cbn [penalty_row penalty_column].
  split; [assumption |]. split.
  { intros j x Hne Hx. apply (Hrall j x); [| assumption | assumption].
    apply (cell_Some_lt n _ _ _ _ Hd) in Hx. lia. }
  split; [assumption |]. split; [assumption |]. split; [| assumption].
  intros i x Hne Hx. apply (Hcall i x); [| assumption | assumption].
  apply (cell_Some_lt n _ _ _ _ Hd) in Hx. lia.
Qed.

Lemma bbAllPenalties_spec (n : nat) (d : matrix) (zeroes out : ZeroList) :
  bbAllPenalties n d zeroes = Done out ->
  (forall o, In o out -> In o.1 (map fst zeroes) /\ bbPenalties n d o.1 = Done o.2) /\
  (forall z p, In z zeroes -> bbPenalties n d z.1 = Done p -> In (z.1, p) out).
Proof.
  unfold bbAllPenalties.
  enough (forall done : ZeroList,
    for_each zeroes (fun zero done => p ← bbPenalties n d zero.1; Done (done ++ [(zero.1, p)]))
      done = Done out ->
    (forall o, In o out ->
       In o done \/ (In o.1 (map fst zeroes) /\ bbPenalties n d o.1 = Done o.2)) /\
    (forall o, In o done -> In o out) /\
    (forall z p, In z zeroes -> bbPenalties n d z.1 = Done p -> In (z.1, p) out)) as H.
  { intros E. destruct (H [] E) as (H1 & _ & H3). split; [| assumption].
    intros o Ho. destruct (H1 o Ho) as [[] | ?]. assumption. }
  induction zeroes as [|zero zeroes IH]; intros done E; simpl in E.
  - inversion E; subst out. split; [auto |]. split; [auto | intros z p []].
  - destruct (bbPenalties n d zero.1) as [p | |] eqn:Ep; cbn [mbind outcome_bind] in E;
      try discriminate.
    destruct (IH _ E) as (H1 & H2 & H3). split; [| split].
    + intros o Ho. destruct (H1 o Ho) as [Hd | [Hin Hp]].
      * apply in_app_or in Hd as [? | [<- | []]]; [auto |].
        right. split; [left; reflexivity | assumption].
      * right. split; [right; assumption | assumption].
    + intros o Ho. apply H2. apply in_or_app. auto.
    + intros z p' [<- | Hz] Hp'.
      * rewrite Ep in Hp'. inversion Hp'; subst p'. apply H2. apply in_or_app.
        right. left. reflexivity.
      * apply H3; assumption.
Qed.

Lemma max_element_penaltyLess (l : ZeroList) (x : EdgeCities * Penalties) :
  max_element penaltyLess l = Done x ->
  In x l /\
  forall y, In y l ->
    int_add (penalty_row y.2) (penalty_column y.2)
    <= int_add (penalty_row x.2) (penalty_column x.2).
Proof.
  intros E. split; [eapply max_element_In; exact E |].
  destruct l as [|z l]; [discriminate |]. cbn [max_element] in E.
  assert (E' : fold_left (fun largest y => if penaltyLess largest y then y else largest) l z
               = x) by congruence.
  clear E. revert z x E'. induction l as [|w l IH]; intros z x E y Hy; cbn [fold_left] in E.
  - destruct Hy as [Hy | []]. subst. apply Z.le_refl.
  - assert (Hstep : forall y', In y' (z :: [w]) ->
      int_add (penalty_row y'.2) (penalty_column y'.2)
      <= int_add (penalty_row (if penaltyLess z w then w else z).2)
                 (penalty_column (if penaltyLess z w then w else z).2)).
    { unfold penaltyLess. intros y' [<- | [<- | []]];
        destruct (Z.ltb_spec (int_add (penalty_row z.2) (penalty_column z.2))
                             (int_add (penalty_row w.2) (penalty_column w.2))); lia. }
    pose proof (IH _ x E) as Hrest.
    destruct Hy as [<- | [<- | Hy]].
    + specialize (Hstep z ltac:(left; reflexivity)).
      specialize (Hrest _ ltac:(left; reflexivity)). lia.
    + specialize (Hstep w ltac:(right; left; reflexivity)).
      specialize (Hrest _ ltac:(left; reflexivity)). lia.
    + apply Hrest. right. assumption.
Qed.

(** X6. The cell that the root node designates is one of the recorded
    zeros; the penalties stored with it are the least entry of its row and
    the least entry of its column in the reduced matrix, its own cell left
    out ([INT_MAX] where no other entry is below it); and no recorded zero
    has a greater sum of penalties, the sum being computed in an [int] as
    by the comparison given to [std::max_element]. *)
Theorem designated_zero_highest_penalty (g : IGraph) (node : BBNodeData) :
  bbRootNode g = Done node ->
  let n := getVertexCount g in
  let zero := highestZeroPenaltiesIndexes node in
  let p := highestZeroPenalties node in
  exists initNode r,
    bbInitNode g = Done initNode /\ bbReduce initNode = Done r /\
    distances node = red_distances r /\ lowerBound node = red_lowerBound r /\
    In zero (map fst (matrixZeroes r)) /\
    bbPenalties n (distances node) zero = Done p /\
    (forall j x, j <> edge_j zero -> cell (distances node) (edge_i zero) j = Some x ->
       penalty_row p <= x) /\
    (penalty_row p = INT_MAX \/
     exists j, (j < n)%nat /\ j <> edge_j zero /\
       cell (distances node) (edge_i zero) j = Some (penalty_row p)) /\
    (forall i x, i <> edge_i zero -> cell (distances node) i (edge_j zero) = Some x ->
       penalty_column p <= x) /\
    (penalty_column p = INT_MAX \/
     exists i, (i < n)%nat /\ i <> edge_i zero /\
       cell (distances node) i (edge_j zero) = Some (penalty_column p)) /\
    forall z p', In z (matrixZeroes r) ->
      bbPenalties n (distances node) z.1 = Done p' ->
      int_add (penalty_row p') (penalty_column p')
      <= int_add (penalty_row p) (penalty_column p).
Proof.
  intros Eroot n zero p.
  destruct (bbInitNode_spec g) as (initNode & Einit & Hdist & Hlb0).
  assert (Hd : rect n n (distances initNode)).
  { rewrite Hdist. apply rect_weight_matrix. }
  destruct (bbReduce_zero_list n initNode Hd) as (r & Er & Hdr & Hin & _ & _).
  unfold bbRootNode in Eroot. rewrite Einit in Eroot. cbn [mbind outcome_bind] in Eroot.
  unfold bbCalculateLowerBoundAndDesignateHighestZeroPenalty in Eroot.
  rewrite Er, (proj1 Hd) in Eroot. cbn [mbind outcome_bind] in Eroot.
  destruct (bbAllPenalties n (red_distances r) (matrixZeroes r)) as [zs | |] eqn:Ez;
    cbn [mbind outcome_bind] in Eroot; try discriminate.
  destruct (max_element penaltyLess zs) as [best | |] eqn:Emax;
    cbn [mbind outcome_bind] in Eroot; try discriminate.
  inversion Eroot as [Enode]. clear Eroot.
  subst zero p. rewrite <- Enode.
  cbn [distances lowerBound highestZeroPenaltiesIndexes highestZeroPenalties].
  destruct (bbAllPenalties_spec _ _ _ _ Ez) as [Hout Hzs].
  destruct (max_element_penaltyLess _ _ Emax) as [Hbest Hmax].
  destruct (Hout best Hbest) as [Hedge Hpen].
  apply in_map_iff in Hedge as Hedge'. destruct Hedge' as (z0 & Hz0 & Hz0in).
  pose proof (proj1 (List.Forall_forall _ _) Hin z0 Hz0in) as [Hi Hj].
  rewrite Hz0 in Hi, Hj.
  destruct (bbPenalties_spec n (red_distances r) best.1 Hdr Hi Hj)
    as (p & Ep & _ & Hrall & Hratt & _ & Hcall & Hcatt).
  rewrite Hpen in Ep. inversion Ep; subst p. clear Ep.
  exists initNode, r. do 6 (split; [first [assumption | reflexivity] |]).
  do 4 (split; [assumption |]).
  intros z p' Hz Hp'. apply (Hmax (z.1, p')). apply Hzs; assumption.
Qed.

(** X6 on the scenario with an infinite diagonal. *)
Lemma designated_zero_highest_penalty_witness :
  exists node, bbRootNode scenario_inf = Done node /\
    highestZeroPenaltiesIndexes node = {| edge_i := 0; edge_j := 1 |} /\
    highestZeroPenalties node = {| penalty_row := 0; penalty_column := 5 |} /\
    bbPenalties 4 (distances node) (highestZeroPenaltiesIndexes node)
    = Done (highestZeroPenalties node).
Proof.
  destruct (bbRootNode scenario_inf) as [node | |] eqn:E;
    [| vm_compute in E; discriminate | vm_compute in E; discriminate].
  exists node. split; [reflexivity |].
  destruct (designated_zero_highest_penalty scenario_inf node E)
    as (_ & _ & _ & _ & _ & _ & _ & Hpen & _).
  vm_compute in E. inversion E as [Enode]. rewrite <- Enode in *.
  split; [reflexivity |]. split; [reflexivity |]. exact Hpen.
Defined.

(** *** When branchAndBound returns *)

(** The cycle through all the vertices in their natural order is the tour
    that visits the non-origin vertices in their natural order. *)
Lemma cycle_cost_natural (g : IGraph) :
  (2 <= getVertexCount g)%nat ->
  cycle_cost g (seq 0 (getVertexCount g)) = tour_cost g (seq 0 (getVertexCount g - 1)).
Proof.
  intros Hn. unfold tour_cost, origin.
  destruct (getVertexCount g) as [|[|m]]; [lia | lia |].
  replace (S (S m) - 1)%nat with (S m) by lia.
  rewrite (seq_S (S m)). cbn [Nat.add].
  change (cycle_cost g (seq 0 (S m) ++ [S m])) with
    (chain_cost g ((seq 0 (S m) ++ [S m]) ++ [0%nat])).
  rewrite <- app_assoc. cbn [app]. rewrite chain_cost_snoc.
  change (seq 0 (S m)) with (0%nat :: seq 1 m).
  cbn [app chain_cost]. lia.
Qed.

Lemma bbRootNode_edgesOnPath (g : IGraph) (root : BBNodeData) :
  bbRootNode g = Done root -> edgesOnPath root = 0.
Proof.
  unfold bbRootNode, bbInitNode. rewrite bbRootDistances_weight_matrix.
  cbn [mbind outcome_bind]. unfold bbCalculateLowerBoundAndDesignateHighestZeroPenalty.
  destruct (bbReduce _) as [r | |]; cbn [mbind outcome_bind]; try discriminate.
  destruct (bbAllPenalties _ _ _) as [zs | |]; cbn [mbind outcome_bind]; try discriminate.
  destruct (max_element _ _) as [z | |]; cbn [mbind outcome_bind]; try discriminate.
  intros E. inversion E. reflexivity.
Qed.

(** X7. When the lower bound of the root is not below the cost of the
    natural tour, the loop of [branchAndBound] runs no pass and the natural tour's
    cost is returned; on a well-formed instance whose entries fit, this
    value is the minimum Hamiltonian cycle cost. *)
Theorem branchAndBound_without_search (g : IGraph) (root : BBNodeData) :
  well_formed g -> matrix_fits g -> bbRootNode g = Done root ->
  calculateTargetFunctionValueAll g (seq 0 (getVertexCount g)) <= lowerBound root ->
  (forall fuel, branchAndBound (S fuel) g =
                Done (calculateTargetFunctionValueAll g (seq 0 (getVertexCount g)))) /\
  is_optimum g (calculateTargetFunctionValueAll g (seq 0 (getVertexCount g))).
Proof.
  intros Hwf (W & Hbound & Hdiag) Eroot Hle.
  split.
  - intros fuel. unfold branchAndBound, bbInitialState. rewrite Eroot.
    cbn [mbind outcome_bind bbLoop]. unfold bbIteration. cbn [leafs upperBound].
    unfold pq_push. cbn [app pq_top pq_top_index vget lookup list_lookup].
    cbn [mbind outcome_bind].
    destruct (Z.ltb_spec (lowerBound root)
                (calculateTargetFunctionValueAll g (seq 0 (getVertexCount g)))); [lia |].
    reflexivity.
  - destruct (root_bound_below_tours g W Hwf Hbound Hdiag) as (node & E & Hlow).
    rewrite Eroot in E. inversion E; subst node. clear E.
    pose proof Hwf as [Hn _].
    assert (Hnat : is_tour g (seq 0 (getVertexCount g - 1))) by apply Permutation_refl.
    assert (Hub : calculateTargetFunctionValueAll g (seq 0 (getVertexCount g))
                  = tour_cost g (seq 0 (getVertexCount g - 1))).
    { unfold calculateTargetFunctionValueAll. rewrite cycle_cost_natural by assumption.
      apply to_int_id. pose proof (tour_cost_bounds g W _ Hwf Hbound Hnat).
      unfold is_int, INT_MIN, INT_MAX in *. lia. }
    split.
    + exists (seq 0 (getVertexCount g - 1)). split; [assumption | symmetry; assumption].
    + intros perm Hperm. specialize (Hlow perm Hperm). lia.
Qed.

Lemma three_cycle_fits : well_formed three_cycle /\ matrix_fits three_cycle.
Proof.
  split.
  - split; [simpl; lia |]. intros i j Hi Hj Hne. simpl in Hi, Hj. unfold INT_MAX.
    do 3 (destruct i as [|i]; [do 3 (destruct j as [|j]; [simpl; lia |]); lia |]). lia.
  - exists 5. split; [split |].
    + intros i j Hi Hj Hne. simpl in Hi, Hj.
      do 3 (destruct i as [|i]; [do 3 (destruct j as [|j]; [simpl; lia |]); lia |]). lia.
    + vm_compute. discriminate.
    + intros i Hi. simpl in Hi.
      do 3 (destruct i as [|i]; [simpl; unfold INT_MAX; lia |]). lia.
Qed.

(** X7 on [three_cycle]. *)
Lemma branchAndBound_without_search_witness :
  well_formed three_cycle /\ matrix_fits three_cycle /\
  branchAndBound 1 three_cycle = Done 3 /\ is_optimum three_cycle 3.
Proof.
  split; [apply three_cycle_fits |]. split; [apply three_cycle_fits |].
  destruct (bbRootNode three_cycle) as [root | |] eqn:E;
    [| vm_compute in E; discriminate | vm_compute in E; discriminate].
  destruct (branchAndBound_without_search three_cycle root) as [Hrun Hopt].
  - apply three_cycle_fits.
  - apply three_cycle_fits.
  - exact E.
  - vm_compute in E. inversion E. vm_compute. discriminate.
  - split; [apply (Hrun 0%nat) | exact Hopt].
Defined.

(** X8. When the lower bound of the root is below the cost of the natural
    tour and the graph does not have exactly two vertices, [branchAndBound]
    never returns: [bbCreateLeftNodeData] and [bbCreateRightNodeData] leave
    their node as it is, so every pass pops the root and pushes it twice,
    and the incumbent is never assigned. *)
Theorem branchAndBound_search_never_ends (g : IGraph) (root : BBNodeData) :
  bbRootNode g = Done root ->
  lowerBound root < calculateTargetFunctionValueAll g (seq 0 (getVertexCount g)) ->
  getVertexCount g <> 2%nat ->
  forall fuel, branchAndBound fuel g = Timeout.
Proof.
  intros Eroot Hlt Hn fuel. unfold branchAndBound, bbInitialState. rewrite Eroot.
  cbn [mbind outcome_bind].
  apply (bbLoop_diverges (getVertexCount g) root _ Hlt) with (k := 0%nat).
  unfold bbIncumbentUpdate. rewrite (bbRootNode_edgesOnPath g root Eroot).
  destruct (Z.eqb_spec 0 (Z.of_nat (getVertexCount g) - 2)); [lia | reflexivity].
Qed.

(** X8 on the scenario. *)
Lemma branchAndBound_search_never_ends_witness :
  exists root, bbRootNode scenario = Done root /\
    lowerBound root < calculateTargetFunctionValueAll scenario (seq 0 (getVertexCount scenario)) /\
    forall fuel, branchAndBound fuel scenario = Timeout.
Proof.
  destruct (bbRootNode scenario) as [root | |] eqn:E;
    [| vm_compute in E; discriminate | vm_compute in E; discriminate].
  exists root. split; [reflexivity |].
  assert (Hlt : lowerBound root
                < calculateTargetFunctionValueAll scenario (seq 0 (getVertexCount scenario))).
  { vm_compute in E. inversion E. vm_compute. reflexivity. }
  split; [exact Hlt |].
  apply (branchAndBound_search_never_ends scenario root E Hlt). simpl. lia.
Defined.

(** *** dynamicProgrammingHeldKarp and the diagonal *)

Lemma for_range_ext {S : Type} (body body' : nat -> S -> outcome S) (cnt lo : nat) (s : S) :
  (forall k s, (lo <= k < lo + cnt)%nat -> body k s = body' k s) ->
  for_range lo cnt body s = for_range lo cnt body' s.
Proof.
  revert lo s. induction cnt as [|cnt IH]; intros lo s H; simpl; [reflexivity |].
  rewrite H by lia. destruct (body' lo s) as [s' | |]; cbn [mbind outcome_bind];
    try reflexivity.
  apply IH. intros k s0 Hk. apply H. lia.
Qed.

(** The end vertex is not a member of the subset from which it was
    removed. *)
Lemma land_not_u_self (s : N) (e : nat) (bit : N) :
  shl1u e = Done bit -> N.land (N.land s (not_u bit)) bit = 0%N.
Proof.
  unfold shl1u. destruct (Nat.ltb_spec e 32) as [He |]; [| discriminate].
  intros E. inversion E as [Hbit]. clear E.
  apply N.bits_inj. intros i. rewrite !N.land_spec, N.bits_0.
  unfold not_u. rewrite N.lxor_spec, N.shiftl_1_l, N.pow2_bits_eqb.
  destruct (N.eqb_spec (N.of_nat e) i) as [<- | Hne].
  - change 4294967295%N with (N.ones 32). rewrite N.ones_spec_low by lia.
    rewrite andb_false_r. reflexivity.
  - rewrite andb_false_r. reflexivity.
Qed.

Section Diagonal.

Variables g g' : IGraph.
Hypothesis Hn : getVertexCount g' = getVertexCount g.
Hypothesis Hw : forall i j, (i < getVertexCount g)%nat -> (j < getVertexCount g)%nat ->
  i <> j -> getEdgeParameter g' i j = getEdgeParameter g i j.

Lemma dpGetPartialPathCost_diagonal (fuel : nat) :
  forall (s : N) (e : nat) (st : DPState), (e < getVertexCount g - 1)%nat ->
    dpGetPartialPathCost fuel g' s e st = dpGetPartialPathCost fuel g s e st.
Proof using Hn Hw.
  induction fuel as [|fuel IH]; intros s e st He; [reflexivity |].
  cbn [dpGetPartialPathCost]. rewrite Hn.
  destruct (mget (partialPathCostTable st) e (N.to_nat s)) as [c | |];
    cbn [mbind outcome_bind]; try reflexivity.
  destruct (c =? -1); [| reflexivity].
  destruct (shl1u e) as [endBit | |] eqn:Ebit; cbn [mbind outcome_bind]; try reflexivity.
  rewrite (for_range_ext _
    (fun vertexIdx '(bestPartialPathCost, st1) =>
       bit ← shl1u vertexIdx;
       if (N.land (N.land s (not_u endBit)) bit =? 0)%N then Done (bestPartialPathCost, st1)
       else
         sub ← dpGetPartialPathCost fuel g (N.land s (not_u endBit)) vertexIdx st1;
         let partialPathCost :=
           int_add sub.1 (getEdgeParameter g vertexIdx e) in
         Done (if partialPathCost <? bestPartialPathCost
               then partialPathCost else bestPartialPathCost, sub.2)));
    [reflexivity |].
  intros v [best st1] [_ Hv]. cbn [Nat.add] in Hv.
  destruct (shl1u v) as [bit | |] eqn:Ev; cbn [mbind outcome_bind]; try reflexivity.
  destruct (N.eqb_spec (N.land (N.land s (not_u endBit)) bit) 0) as [| Hmem];
    [reflexivity |].
  rewrite IH by lia.
  assert (Hne : v <> e).
  { intros ->. rewrite Ebit in Ev. inversion Ev; subst bit.
    apply Hmem. apply (land_not_u_self s e). assumption. }
  rewrite Hw by lia. reflexivity.
Qed.

Lemma heldKarpRun_diagonal (fuel : nat) : heldKarpRun fuel g' = heldKarpRun fuel g.
Proof using Hn Hw.
  unfold heldKarpRun.
  assert (Hinit : dpInitTable g' = dpInitTable g).
  { unfold dpInitTable. rewrite Hn. destruct (getVertexCount g) as [|m] eqn:En;
      [reflexivity |].
    destruct (shl1u (S m - 1)) as [cnt | |]; cbn [mbind outcome_bind]; try reflexivity.
    apply for_range_ext. intros v t [_ Hv]. cbn [Nat.add] in Hv.
    rewrite Hw by lia. reflexivity. }
  rewrite Hinit, Hn.
  destruct (dpInitTable g) as [table | |]; cbn [mbind outcome_bind]; try reflexivity.
  destruct (shl1u (getVertexCount g - 1)) as [top | |]; cbn [mbind outcome_bind];
    try reflexivity.
  apply for_range_ext. intros e [best st] [_ He]. cbn [Nat.add] in He.
  rewrite dpGetPartialPathCost_diagonal by assumption.
  rewrite Hw by lia. reflexivity.
Qed.

End Diagonal.

(** X9. [dynamicProgrammingHeldKarp] never reads an edge parameter of the
    diagonal: on two graphs with the same vertices and the same weights
    between distinct vertices it has the same outcome, whatever the fuel. *)
Theorem heldKarp_ignores_diagonal (g g' : IGraph) (fuel : nat) :
  getVertexCount g' = getVertexCount g ->
  (forall i j, (i < getVertexCount g)%nat -> (j < getVertexCount g)%nat -> i <> j ->
     getEdgeParameter g' i j = getEdgeParameter g i j) ->
  heldKarpRun fuel g' = heldKarpRun fuel g /\
  dynamicProgrammingHeldKarp fuel g' = dynamicProgrammingHeldKarp fuel g.
Proof.
  intros Hn Hw. unfold dynamicProgrammingHeldKarp.
  rewrite (heldKarpRun_diagonal g g' Hn Hw). split; reflexivity.
Qed.

(** X9 on the scenario, with a zero and with an infinite diagonal. *)
Lemma heldKarp_ignores_diagonal_witness :
  getEdgeParameter scenario_inf 0 0 = INT_MAX /\ getEdgeParameter scenario 0 0 = 0 /\
  dynamicProgrammingHeldKarp 3 scenario_inf = dynamicProgrammingHeldKarp 3 scenario.
Proof.
  split; [reflexivity |]. split; [reflexivity |].
  apply (heldKarp_ignores_diagonal scenario scenario_inf 3); [reflexivity |].
  intros i j Hi Hj Hne. simpl in Hi, Hj.
  do 4 (destruct i as [|i]; [do 4 (destruct j as [|j]; [reflexivity || lia |]); lia |]). lia.
Defined.

(** *** The number of states that dynamicProgrammingHeldKarp computes *)

Lemma writes_bound (g : IGraph) (st : DPState) :
  log_ok g st ->
  (length (writes st) <= (getVertexCount g - 1) * 2 ^ (getVertexCount g - 1))%nat.
Proof.
  intros [Hnd Hall]. set (m := (getVertexCount g - 1)%nat) in *.
  set (key := fun wr : CellWrite => (write_end wr, N.to_nat (write_set wr))).
  assert (Hnd' : List.NoDup (map key (writes st))).
  { apply NoDup_ListNoDup.
    replace (map key (writes st))
      with ((fun p : nat * N => (p.1, N.to_nat p.2)) <$> map write_key (writes st)).
    - apply NoDup_fmap_2; [| assumption].
      intros [a b] [a' b'] H. cbn in H. inversion H as [[H1 H2]].
      apply N2Nat.inj in H2. congruence.
    - rewrite <- list_fmap_compose. reflexivity. }
  assert (Hincl : incl (map key (writes st)) (list_prod (seq 0 m) (seq 0 (2 ^ m)))).
  { intros p Hp. apply in_map_iff in Hp as (wr & <- & Hwr).
    pose proof (proj1 (List.Forall_forall _ _) Hall wr Hwr) as (He & Hs & _).
    apply in_prod; apply in_seq; [lia |].
    split; [lia |]. cbn [Nat.add].
    replace (2 ^ m)%nat with (N.to_nat (2 ^ N.of_nat m)); [lia |].
    rewrite N2Nat.inj_pow, Nat2N.id. reflexivity. }
  pose proof (NoDup_incl_length Hnd' Hincl) as Hlen.
  rewrite length_map, length_prod, !length_seq in Hlen. exact Hlen.
Qed.

(** X10. On a well-formed instance of at most 32 vertices whose costs fit, a
    run of [dynamicProgrammingHeldKarp] saves at most [(n - 1) * 2^(n - 1)]
    computed costs, one per state at most. *)
Theorem heldKarp_computed_states (g : IGraph) (fuel : nat) :
  well_formed g -> cost_fits g -> (getVertexCount g <= 32)%nat ->
  (getVertexCount g - 1 <= fuel)%nat ->
  exists v st, heldKarpRun fuel g = Done (v, st) /\
    (length (writes st) <= (getVertexCount g - 1) * 2 ^ (getVertexCount g - 1))%nat.
Proof.
  intros Hwf [W Hbound] Hsize Hfuel.
  destruct (heldKarpRun_spec g W fuel Hwf Hbound Hsize Hfuel) as (st & E & _ & Hlog).
  exists (heldKarp_answer g), st. split; [assumption |]. apply writes_bound. assumption.
Qed.

(** X10 on the scenario: at most 24 saves. *)
Lemma heldKarp_computed_states_witness :
  well_formed scenario /\ cost_fits scenario /\
  exists v st, heldKarpRun 3 scenario = Done (v, st) /\ (length (writes st) <= 24)%nat.
Proof.
  split; [exact scenario_well_formed |].
  split; [exists 35; exact scenario_bounded |].
  apply (heldKarp_computed_states scenario 3 scenario_well_formed
           (ex_intro _ 35 scenario_bounded)); simpl; lia.
Defined.

(** *** Heap's algorithm: maps of positions *)

Ltac split_cases := repeat case_decide; try lia.

Lemma even_S (c : nat) : Nat.even (S c) = negb (Nat.even c).
Proof. rewrite Nat.even_succ, <- Nat.negb_even. reflexivity. Qed.

Lemma heapIndex_parity (K c : nat) : heapIndex K c = if Nat.even K then 0%nat else c.
Proof.
  unfold heapIndex.
  destruct (Nat.Even_or_Odd K) as [[q ->] | [q ->]].
  - replace (2 * q + 1)%nat with (1 + q * 2)%nat by lia.
    rewrite Nat.Div0.mod_add. cbn [Nat.modulo Nat.eqb].
    replace (Nat.even (2 * q)) with true; [reflexivity |].
    symmetry. apply Nat.even_spec. exists q. reflexivity.
  - replace (2 * q + 1 + 1)%nat with (0 + (q + 1) * 2)%nat by lia.
    rewrite Nat.Div0.mod_add. cbn [Nat.modulo Nat.eqb].
    replace (Nat.even (2 * q + 1)) with false; [reflexivity |].
    symmetry. rewrite <- Nat.negb_odd. apply negb_false_iff.
    apply Nat.odd_spec. exists q. reflexivity.
Qed.

Lemma transp_bounded (k i j p : nat) :
  (i <= k)%nat -> (j <= k)%nat ->
  ((p <= k)%nat -> (transp i j p <= k)%nat) /\ ((k < p)%nat -> transp i j p = p).
Proof. intros Hi Hj. unfold transp. split; intros Hp; split_cases. Qed.

Lemma heapFinal_bounded (k p : nat) :
  ((p <= k)%nat -> (heapFinal k p <= k)%nat) /\ ((k < p)%nat -> heapFinal k p = p).
Proof.
  unfold heapFinal, transp.
  destruct (Nat.even k) eqn:Ek; [split; intros Hp; split_cases |].
  destruct k as [|k]; [discriminate |].
  split; intros Hp; split_cases.
Qed.

Lemma heapRoundMap_bounded (k c p : nat) :
  (c <= S k)%nat ->
  ((p <= S k)%nat -> (heapRoundMap k c p <= S k)%nat) /\
  ((S k < p)%nat -> heapRoundMap k c p = p).
Proof.
  revert p. induction c as [|c IH]; intros p Hc; cbn [heapRoundMap]; [split; auto |].
  assert (Hidx : (heapIndex (S k) c <= S k)%nat).
  { rewrite heapIndex_parity. destruct (Nat.even (S k)); lia. }
  destruct (transp_bounded (S k) (S k) (heapIndex (S k) c) p ltac:(lia) Hidx) as [T1 T2].
  destruct (heapFinal_bounded k (transp (S k) (heapIndex (S k) c) p)) as [F1 F2].
  split; intros Hp.
  - apply IH; [lia |]. specialize (T1 Hp).
    destruct (decide (transp (S k) (heapIndex (S k) c) p <= k)%nat) as [Hle | Hgt].
    + specialize (F1 Hle). lia.
    + rewrite F2 by lia. assumption.
  - rewrite (T2 Hp). rewrite (proj2 (heapFinal_bounded k p)) by lia. apply IH; lia.
Qed.

(** **** An odd index: the closed form *)

Lemma heapRoundMap_odd (k c p : nat) :
  Nat.even k = true -> (2 <= k)%nat -> (c <= S k)%nat ->
  heapRoundMap k c p = oddRound (S k) c p.
Proof.
  intros Ek Hk. revert p. induction c as [|c IH]; intros p Hc.
  - reflexivity.
  - cbn [heapRoundMap]. rewrite IH by lia. rewrite heapIndex_parity.
    rewrite even_S, Ek. cbn [negb].
    unfold heapFinal. rewrite Ek.
    unfold oddRound, transp. rewrite even_S.
    destruct (Nat.even c) eqn:Ec; cbn [negb].
    + assert (c <> 1%nat) by (intros ->; discriminate).
      assert (c <> S k) by (intros ->; rewrite even_S, Ek in Ec; discriminate).
      split_cases.
    + assert (c <> 0%nat) by (intros ->; discriminate).
      assert (c <> k) by (intros ->; congruence).
      split_cases.
Qed.

(** **** The element at the last index, and the array left *)

Lemma heapRoundMap_S (k c p : nat) :
  Nat.even k = false ->
  heapRoundMap k (S c) p = heapFinal k (transp (S k) 0 (heapRoundMap k c p)).
Proof.
  intros Ek. revert p. induction c as [|c IH]; intros p.
  - cbn [heapRoundMap]. rewrite heapIndex_parity, even_S, Ek. reflexivity.
  - change (heapRoundMap k (S (S c)) p) with
      (heapRoundMap k (S c) (heapFinal k (transp (S k) (heapIndex (S k) (S c)) p))).
    rewrite IH. cbn [heapRoundMap].
    rewrite !heapIndex_parity, even_S, Ek. reflexivity.
Qed.

Lemma heapRoundMap_last (k c : nat) :
  (c <= S k)%nat -> heapRoundMap k c (S k) = heapLast (S k) c.
Proof.
  intros Hc. unfold heapLast. rewrite even_S.
  destruct (Nat.even k) eqn:Ek; cbn [negb].
  - destruct (decide (k = 0%nat)) as [-> | Hk0].
    + destruct c as [|[|c]]; [reflexivity | reflexivity | lia].
    + assert (Hk : (2 <= k)%nat).
      { destruct k as [|[|k]]; [lia | discriminate | lia]. }
      rewrite heapRoundMap_odd by assumption. unfold oddRound. split_cases.
  - induction c as [|c IH]; [cbn [heapRoundMap]; split_cases |].
    rewrite heapRoundMap_S by assumption. rewrite IH by lia.
    assert (Hk : (1 <= k)%nat) by (destruct k; [discriminate | lia]).
    assert (k <> 2%nat) by (intros ->; discriminate).
    unfold heapFinal, transp. rewrite Ek. split_cases.
Qed.

Lemma heapLast_bijective (K : nat) :
  (1 <= K)%nat ->
  (forall c, (c <= K)%nat -> (heapLast K c <= K)%nat) /\
  (forall c c', (c <= K)%nat -> (c' <= K)%nat -> heapLast K c = heapLast K c' -> c = c') /\
  (forall i, (i <= K)%nat -> exists c, (c <= K)%nat /\ heapLast K c = i).
Proof.
  intros HK. unfold heapLast. destruct (Nat.even K) eqn:EK.
  - assert (K <> 1%nat) by (intros ->; discriminate).
    assert (K <> 3%nat) by (intros ->; discriminate).
    split; [intros c Hc; split_cases |].
    split; [intros c c' Hc Hc'; split_cases |].
    intros i Hi. destruct (decide (K = 2%nat)) as [-> | HK2].
    + exists (2 - i)%nat. split_cases.
    + destruct (decide (i = K)) as [-> | ?]; [exists 0%nat; split_cases |].
      destruct (decide (i = 0%nat)) as [-> | ?]; [exists K; split_cases |].
      destruct (decide (i <= K - 3)%nat); [exists (K - 2 - i)%nat | exists i]; split_cases.
  - split; [intros c Hc; split_cases |].
    split; [intros c c' Hc Hc'; split_cases |].
    intros i Hi.
    destruct (decide (i = K)) as [-> | ?]; [exists 0%nat; split_cases |].
    destruct (decide (i = 0%nat)) as [-> | ?]; [exists K; split_cases |].
    destruct (decide (i = (K - 1)%nat)) as [-> | ?]; [exists 1%nat; split_cases |].
    exists (S i). split_cases.
Qed.

Lemma heapRoundMap_comm (k a b p : nat) :
  Nat.even k = false ->
  heapRoundMap k a (heapRoundMap k b p) = heapRoundMap k b (heapRoundMap k a p).
Proof.
  intros Ek. induction a as [|a IH]; [reflexivity |].
  rewrite !heapRoundMap_S by assumption. rewrite IH.
  rewrite <- heapRoundMap_S by assumption. cbn [heapRoundMap].
  rewrite heapIndex_parity, even_S, Ek. cbn [negb].
  rewrite <- heapRoundMap_S by assumption. cbn [heapRoundMap].
  rewrite heapIndex_parity, even_S, Ek. reflexivity.
Qed.

(** For an even index [K = k + 1] the rounds are the powers of one cycle of
    length [K + 1]. *)
Lemma heapRoundMap_period (k q : nat) :
  Nat.even k = false -> (q <= S k)%nat -> heapRoundMap k (S (S k)) q = q.
Proof.
  intros Ek Hq.
  assert (Hk : (1 <= k)%nat) by (destruct k; [discriminate | lia]).
  destruct (heapLast_bijective (S k) ltac:(lia)) as (_ & _ & Hsurj).
  destruct (Hsurj q Hq) as (j & Hj & <-).
  rewrite <- (heapRoundMap_last k j Hj).
  rewrite heapRoundMap_comm by assumption. f_equal.
  rewrite heapRoundMap_S by assumption. rewrite heapRoundMap_last by lia.
  replace (heapLast (S k) (S k)) with 0%nat.
  - unfold transp. rewrite decide_False by lia. rewrite decide_True by reflexivity.
    apply heapFinal_bounded. lia.
  - unfold heapLast. rewrite even_S, Ek. cbn [negb]. split_cases.
Qed.

(** The array left by the sub-permutation ending at [k + 1], from the array
    left by the one ending at [k]. *)
Lemma heapRoundMap_final (k p : nat) :
  heapRoundMap k (S k) (heapFinal k p) = heapFinal (S k) p.
Proof.
  destruct (Nat.even k) eqn:Ek.
  - destruct (decide (k = 0%nat)) as [-> | Hk0].
    + cbn [heapRoundMap]. rewrite heapIndex_parity. unfold heapFinal, transp.
      cbn [Nat.even]. split_cases.
    + assert (Hk : (2 <= k)%nat).
      { destruct k as [|[|k]]; [lia | discriminate | lia]. }
      rewrite heapRoundMap_odd by (assumption || lia).
      unfold oddRound, heapFinal. rewrite even_S, Ek. cbn [negb]. unfold transp.
      split_cases.
  - assert (Hk : (1 <= k)%nat) by (destruct k; [discriminate | lia]).
    destruct (decide (S k < p)%nat) as [Hgt | Hle].
    + rewrite (proj2 (heapFinal_bounded k p)) by lia.
      rewrite (proj2 (heapRoundMap_bounded k (S k) p (Nat.le_refl _))) by lia.
      rewrite (proj2 (heapFinal_bounded (S k) p)) by lia. reflexivity.
    + assert (Hstep : forall q, heapRoundMap k (S k) (heapFinal k (transp (S k) 0 q))
                                = heapRoundMap k (S (S k)) q).
      { intros q. cbn [heapRoundMap]. rewrite !heapIndex_parity, even_S, Ek. reflexivity. }
      assert (HfK : heapFinal (S k) p = transp 0 (S k) p).
      { unfold heapFinal. rewrite even_S, Ek. reflexivity. }
      rewrite HfK.
      destruct (decide (p = 0%nat)) as [-> | Hp0].
      * replace (heapFinal k 0) with (heapFinal k (transp (S k) 0 (S k)))
          by (unfold transp; rewrite decide_True by reflexivity; reflexivity).
        rewrite Hstep, heapRoundMap_period by (assumption || lia).
        unfold transp. split_cases.
      * destruct (decide (p = S k)) as [-> | HpK].
        -- rewrite (proj2 (heapFinal_bounded k (S k))) by lia.
           rewrite heapRoundMap_last by lia. unfold heapLast, transp.
           rewrite even_S, Ek. cbn [negb]. split_cases.
        -- replace (heapFinal k p) with (heapFinal k (transp (S k) 0 p))
             by (unfold transp; rewrite !decide_False by lia; reflexivity).
           rewrite Hstep, heapRoundMap_period by (assumption || lia).
           unfold transp. split_cases.
Qed.

(** *** Heap's algorithm: arrays *)

Lemma rearrange_length (f : nat -> nat) (l : list nat) :
  length (rearrange f l) = length l.
Proof. unfold rearrange. rewrite length_fmap, length_seq. reflexivity. Qed.

Lemma rearrange_lookup (f : nat -> nat) (l : list nat) (p : nat) :
  (p < length l)%nat -> (f p < length l)%nat -> rearrange f l !! p = l !! f p.
Proof.
  intros Hp Hf. unfold rearrange. rewrite list_lookup_fmap, lookup_seq_lt by assumption.
  cbn. destruct (lookup_lt_is_Some_2 l (f p) Hf) as [x Hx].
  rewrite Hx. f_equal. apply nth_lookup_Some. assumption.
Qed.

Lemma rearrange_ext (f f' : nat -> nat) (l : list nat) :
  (forall p, (p < length l)%nat -> f p = f' p) -> rearrange f l = rearrange f' l.
Proof.
  intros H. unfold rearrange. apply list_fmap_ext. intros i p Hp.
  apply lookup_seq in Hp as [-> Hi]. rewrite H by assumption. reflexivity.
Qed.

Lemma rearrange_id (l : list nat) : rearrange (fun p => p) l = l.
Proof.
  apply list_eq. intros p. destruct (decide (p < length l)%nat) as [Hp | Hp].
  - apply rearrange_lookup; assumption.
  - rewrite !lookup_ge_None_2; [reflexivity | lia | rewrite rearrange_length; lia].
Qed.

Lemma rearrange_compose (f f' : nat -> nat) (l : list nat) :
  (forall p, (p < length l)%nat -> (f' p < length l)%nat) ->
  rearrange f' (rearrange f l) = rearrange (fun p => f (f' p)) l.
Proof.
  intros H. unfold rearrange at 1 3. rewrite rearrange_length.
  apply list_fmap_ext. intros i p Hp. apply lookup_seq in Hp as [-> Hi]. cbn.
  rewrite (nth_lookup (rearrange f l)). unfold rearrange.
  rewrite list_lookup_fmap, lookup_seq_lt by (apply H; assumption). reflexivity.
Qed.

Lemma lswap_length (l : list nat) (i j : nat) : length (lswap l i j) = length l.
Proof.
  unfold lswap. destruct (l !! i), (l !! j); rewrite ?length_insert; reflexivity.
Qed.

Lemma lswap_lookup (l : list nat) (i j p : nat) :
  (i < length l)%nat -> (j < length l)%nat -> lswap l i j !! p = l !! transp i j p.
Proof.
  intros Hi Hj. unfold lswap, transp.
  destruct (lookup_lt_is_Some_2 l i Hi) as [x Hx].
  destruct (lookup_lt_is_Some_2 l j Hj) as [y Hy].
  rewrite Hx, Hy.
  destruct (decide (p = j)) as [-> | Hpj].
  - rewrite list_lookup_insert_eq by (rewrite length_insert; assumption).
    destruct (decide (j = i)) as [-> | ?]; [congruence | congruence].
  - rewrite list_lookup_insert_ne by congruence.
    destruct (decide (p = i)) as [-> | Hpi].
    + rewrite list_lookup_insert_eq by assumption. congruence.
    + rewrite list_lookup_insert_ne by congruence. reflexivity.
Qed.

Lemma lswap_rearrange (l : list nat) (i j : nat) :
  (i < length l)%nat -> (j < length l)%nat -> lswap l i j = rearrange (transp i j) l.
Proof.
  intros Hi Hj. apply list_eq. intros p.
  rewrite lswap_lookup by assumption.
  destruct (decide (p < length l)%nat) as [Hp | Hp].
  - rewrite rearrange_lookup; [reflexivity | assumption |].
    unfold transp. repeat case_decide; lia.
  - assert (transp i j p = p) as -> by (unfold transp; repeat case_decide; lia).
    rewrite !lookup_ge_None_2; [reflexivity | rewrite rearrange_length; lia | lia].
Qed.

Lemma transp_inj (i j : nat) : Inj eq eq (transp i j).
Proof. intros p q. unfold transp. repeat case_decide; lia. Qed.

Lemma lswap_Permutation (l : list nat) (i j : nat) : lswap l i j ≡ₚ l.
Proof.
  destruct (decide (i < length l)%nat) as [Hi | Hi];
    [destruct (decide (j < length l)%nat) as [Hj | Hj] |].
  - apply Permutation_inj. split; [apply lswap_length |].
    exists (transp i j). split; [apply transp_inj |].
    intros p. apply lswap_lookup; assumption.
  - unfold lswap. rewrite (lookup_ge_None_2 l j) by lia. destruct (l !! i); reflexivity.
  - unfold lswap. rewrite (lookup_ge_None_2 l i) by lia. reflexivity.
Qed.

Lemma rearrange_drop (f : nat -> nat) (l : list nat) (k : nat) :
  (forall p, (k < p)%nat -> f p = p) -> drop (S k) (rearrange f l) = drop (S k) l.
Proof.
  intros H. apply list_eq. intros p. rewrite !lookup_drop.
  destruct (decide (S k + p < length l)%nat) as [Hp | Hp].
  - rewrite rearrange_lookup; rewrite ?H by lia; [reflexivity | assumption | assumption].
  - rewrite !lookup_ge_None_2; [reflexivity | lia | rewrite rearrange_length; lia].
Qed.

Lemma heapLoop_blocks (k : nat) (l : list nat) (cnt c : nat) :
  heapLoop (heapPermutations k) (S k) c cnt (heapPermutations k (heapRound k c l)).2
  = (concat (map (heapBlock k l) (seq (S c) cnt)),
     (heapPermutations k (heapRound k (c + cnt) l)).2).
Proof.
  revert c. induction cnt as [|cnt IH]; intros c.
  - cbn [heapLoop seq map concat]. rewrite Nat.add_0_r. reflexivity.
  - cbn [heapLoop seq map concat].
    change (lswap (heapPermutations k (heapRound k c l)).2 (S k) (heapIndex (S k) c))
      with (heapRound k (S c) l).
    rewrite IH. cbn [fst snd]. unfold heapBlock at 2.
    replace (c + S cnt)%nat with (S c + cnt)%nat by lia. reflexivity.
Qed.

Lemma heapPermutations_S (k : nat) (l : list nat) :
  l :: (heapPermutations (S k) l).1 = concat (map (heapBlock k l) (seq 0 (S (S k)))) /\
  (heapPermutations (S k) l).2 = (heapPermutations k (heapRound k (S k) l)).2.
Proof.
  pose proof (heapLoop_blocks k l (S k) 0) as H. cbn [heapRound Nat.add] in H.
  cbn [heapPermutations]. rewrite H. cbn [fst snd]. split; reflexivity.
Qed.

Lemma NoDup_concat_map {A : Type} (f : nat -> list A) (cs : list nat) :
  NoDup cs ->
  (forall c, In c cs -> NoDup (f c)) ->
  (forall c c' x, In c cs -> In c' cs -> In x (f c) -> In x (f c') -> c = c') ->
  NoDup (concat (map f cs)).
Proof.
  induction cs as [|c cs IH]; intros Hnd Hf Hdisj; cbn [map concat]; [constructor |].
  apply NoDup_cons in Hnd as [Hc Hnd].
  apply NoDup_app. split; [apply Hf; left; reflexivity |]. split.
  - intros x Hx Hx'. apply list_elem_of_In in Hx, Hx'.
    apply in_concat in Hx' as (b & Hb & Hxb). apply in_map_iff in Hb as (c' & <- & Hc').
    assert (c = c') by (apply (Hdisj c c' x); simpl; auto).
    subst c'. apply Hc. apply list_elem_of_In. assumption.
  - apply IH; [assumption | intros; apply Hf; right; assumption |].
    intros c1 c2 x H1 H2. apply Hdisj; right; assumption.
Qed.

Lemma prefix_Permutation (B l : list nat) (n : nat) :
  B ≡ₚ l -> drop n B = drop n l -> take n B ≡ₚ take n l.
Proof.
  intros Hp Hd. apply (Permutation_app_inv_r (drop n l)).
  rewrite <- Hd at 1. rewrite !take_drop. assumption.
Qed.

Lemma heapFinal_lt (k n p : nat) : (k < n)%nat -> (p < n)%nat -> (heapFinal k p < n)%nat.
Proof.
  intros Hk Hp. destruct (heapFinal_bounded k p) as [F1 F2].
  destruct (decide (p <= k)%nat) as [Hle | Hgt]; [specialize (F1 Hle); lia |].
  rewrite F2 by lia. assumption.
Qed.

Lemma heapRoundMap_lt (k c n p : nat) :
  (c <= S k)%nat -> (S k < n)%nat -> (p < n)%nat -> (heapRoundMap k c p < n)%nat.
Proof.
  intros Hc Hk Hp. destruct (heapRoundMap_bounded k c p Hc) as [F1 F2].
  destruct (decide (p <= S k)%nat) as [Hle | Hgt]; [specialize (F1 Hle); lia |].
  rewrite F2 by lia. assumption.
Qed.

Lemma transp_lt (i j n p : nat) :
  (i < n)%nat -> (j < n)%nat -> (p < n)%nat -> (transp i j p < n)%nat.
Proof. intros Hi Hj Hp. unfold transp. repeat case_decide; lia. Qed.

(** The arrays before the swaps of the sub-permutation ending at [k + 1],
    given what the sub-permutation ending at [k] leaves. *)
Lemma heapRound_rearrange (k : nat) (l : list nat) :
  (S k < length l)%nat -> NoDup l ->
  (forall l', (k < length l')%nat -> NoDup l' ->
     (heapPermutations k l').2 = rearrange (heapFinal k) l' /\
     (heapPermutations k l').2 ≡ₚ l') ->
  forall c, (c <= S k)%nat ->
    heapRound k c l = rearrange (heapRoundMap k c) l /\ heapRound k c l ≡ₚ l.
Proof.
  intros Hlen Hnd Hsub. induction c as [|c IH]; intros Hc.
  - cbn [heapRound]. split; [symmetry; apply rearrange_id | reflexivity].
  - destruct IH as [IHr IHp]; [lia |].
    assert (Hlenc : length (heapRound k c l) = length l).
    { rewrite IHr. apply rearrange_length. }
    destruct (Hsub (heapRound k c l)) as [Hf Hp];
      [lia | rewrite IHp; assumption |].
    assert (Hidx : (heapIndex (S k) c < length l)%nat).
    { rewrite heapIndex_parity. destruct (Nat.even (S k)); lia. }
    cbn [heapRound]. split.
    + rewrite Hf, IHr.
      rewrite lswap_rearrange by (rewrite !rearrange_length; lia).
      rewrite (rearrange_compose _ (heapFinal k)) by (intros p; apply heapFinal_lt; lia).
      rewrite (rearrange_compose _ (transp (S k) (heapIndex (S k) c)))
        by (intros p; apply transp_lt; lia).
      apply rearrange_ext. intros p _. reflexivity.
    + rewrite lswap_Permutation, Hp. assumption.
Qed.

(** Heap's algorithm on the sub-permutation ending at [k] produces, after
    the array it starts from, every other arrangement of the positions up to
    [k], each once, and leaves the arrangement [heapFinal k]. *)
Lemma heapPermutations_spec (k : nat) :
  forall l, (k < length l)%nat -> NoDup l ->
    (heapPermutations k l).2 = rearrange (heapFinal k) l /\
    (heapPermutations k l).2 ≡ₚ l /\
    NoDup (l :: (heapPermutations k l).1) /\
    forall B, In B (l :: (heapPermutations k l).1) <->
              B ≡ₚ l /\ drop (S k) B = drop (S k) l.
Proof.
  induction k as [|k IH]; intros l Hlen Hnd.
  - cbn [heapPermutations fst snd].
    split; [| split; [reflexivity | split]].
    + rewrite <- (rearrange_id l) at 1. apply rearrange_ext. intros p _.
      unfold heapFinal, transp. cbn [Nat.even]. repeat case_decide; lia.
    + apply NoDup_singleton.
    + intros B. split.
      * intros [<- | []]. split; reflexivity.
      * intros [Hp Hd]. left.
        pose proof (prefix_Permutation B l 1 Hp Hd) as Hpre.
        apply Permutation_length in Hp as Hl.
        destruct l as [|a l]; [simpl in Hlen; lia |].
        destruct B as [|b B]; [discriminate |].
        cbn [take] in Hpre. rewrite !take_0 in Hpre.
        apply Permutation_length_1 in Hpre. cbn [drop] in Hd. rewrite !drop_0 in Hd.
        congruence.
  - assert (Hsub : forall l', (k < length l')%nat -> NoDup l' ->
       (heapPermutations k l').2 = rearrange (heapFinal k) l' /\
       (heapPermutations k l').2 ≡ₚ l').
    { intros l' Hl' Hnd'. destruct (IH l' Hl' Hnd') as (H1 & H2 & _). auto. }
    pose proof (heapRound_rearrange k l Hlen Hnd Hsub) as Hround.
    destruct (heapPermutations_S k l) as [Hvis Hfin].
    rewrite Hvis, Hfin.
    assert (Hlast : forall c, (c <= S k)%nat ->
      heapRound k c l !! S k = l !! heapLast (S k) c).
    { intros c Hc. destruct (Hround c Hc) as [-> _].
      rewrite rearrange_lookup by (try apply heapRoundMap_lt; lia).
      rewrite heapRoundMap_last by assumption. reflexivity. }
    assert (Hdrop : forall c, (c <= S k)%nat ->
      drop (S (S k)) (heapRound k c l) = drop (S (S k)) l).
    { intros c Hc. destruct (Hround c Hc) as [-> _]. apply rearrange_drop.
      intros p Hp. apply heapRoundMap_bounded; assumption. }
    assert (Hblock : forall c B, (c <= S k)%nat ->
      In B (heapBlock k l c) <->
      B ≡ₚ l /\ drop (S k) B = drop (S k) (heapRound k c l)).
    { intros c B Hc. destruct (Hround c Hc) as [Hr Hp].
      destruct (IH (heapRound k c l)) as (_ & _ & _ & Hin).
      { rewrite Hr, rearrange_length. lia. }
      { rewrite Hp. assumption. }
      unfold heapBlock. rewrite Hin.
      split; intros [H1 H2]; (split; [| assumption]).
      - etransitivity; [exact H1 | exact Hp].
      - etransitivity; [exact H1 | symmetry; exact Hp]. }
    destruct (heapLast_bijective (S k) ltac:(lia)) as (Hrange & Hinj & Hsurj).
    split; [| split; [| split]].
    + destruct (Hround (S k) (Nat.le_refl _)) as [Hr Hp].
      destruct (Hsub (heapRound k (S k) l)) as [Hf _];
        [rewrite Hr, rearrange_length; lia | rewrite Hp; assumption |].
      rewrite Hf, Hr.
      rewrite (rearrange_compose _ (heapFinal k)) by (intros p; apply heapFinal_lt; lia).
      apply rearrange_ext. intros p _. apply heapRoundMap_final.
    + destruct (Hround (S k) (Nat.le_refl _)) as [Hr Hp].
      destruct (Hsub (heapRound k (S k) l)) as [_ Hp'];
        [rewrite Hr, rearrange_length; lia | rewrite Hp; assumption |].
      rewrite Hp'. assumption.
    + apply NoDup_concat_map.
      * apply NoDup_ListNoDup, List.seq_NoDup.
      * intros c Hc. apply in_seq in Hc. destruct (Hround c ltac:(lia)) as [Hr Hp].
        destruct (IH (heapRound k c l)) as (_ & _ & Hnd' & _);
          [rewrite Hr, rearrange_length; lia | rewrite Hp; assumption |].
        exact Hnd'.
      * intros c c' B Hc Hc' HB HB'. apply in_seq in Hc, Hc'.
        apply Hblock in HB as [_ HB]; [| lia].
        apply Hblock in HB' as [_ HB']; [| lia].
        rewrite HB in HB'.
        assert (Heq : heapRound k c l !! S k = heapRound k c' l !! S k).
        { rewrite <- (Nat.add_0_r (S k)), <- !lookup_drop, HB'. reflexivity. }
        rewrite !Hlast in Heq by lia.
        apply Hinj; [lia | lia |].
        pose proof (Hrange c ltac:(lia)). pose proof (Hrange c' ltac:(lia)).
        destruct (lookup_lt_is_Some_2 l (heapLast (S k) c) ltac:(lia)) as [x Hx].
        rewrite Hx in Heq. symmetry in Heq.
        apply (proj1 (NoDup_alt l) Hnd _ _ x); assumption.
    + intros B. rewrite in_concat. split.
      * intros (b & Hb & HB). apply in_map_iff in Hb as (c & <- & Hc).
        apply in_seq in Hc. apply Hblock in HB as [Hp Hd]; [| lia].
        split; [assumption |].
        rewrite <- (Hdrop c) by lia.
        replace (S (S k)) with (S k + 1)%nat by lia.
        rewrite <- !drop_drop, Hd. reflexivity.
      * intros [Hp Hd].
        apply Permutation_length in Hp as Hl.
        destruct (lookup_lt_is_Some_2 B (S k) ltac:(lia)) as [x Hx].
        pose proof (prefix_Permutation B l (S (S k)) Hp Hd) as Hpre.
        assert (Hin : x ∈ take (S (S k)) l).
        { rewrite <- Hpre. apply (list_elem_of_lookup_2 _ (S k)).
          rewrite lookup_take_lt by lia. assumption. }
        apply list_elem_of_lookup_1 in Hin as (i & Hi).
        apply lookup_take_Some in Hi as [Hi Hlt].
        destruct (Hsurj i ltac:(lia)) as (c & Hc & Hci).
        exists (heapBlock k l c). split.
        -- apply in_map. apply in_seq. lia.
        -- apply Hblock; [assumption |]. split; [assumption |].
           rewrite (drop_S B x (S k) Hx).
           rewrite (drop_S (heapRound k c l) x (S k)) by (rewrite Hlast, Hci; assumption).
           rewrite Hd, Hdrop by assumption. reflexivity.
Qed.

Lemma heapLoop_length (sub : list nat -> list (list nat) * list nat) (k : nat) :
  (forall l, length (sub l).2 = length l) ->
  forall cnt c l, length (heapLoop sub k c cnt l).2 = length l.
Proof.
  intros Hsub. induction cnt as [|cnt IH]; intros c l; cbn [heapLoop snd]; [reflexivity |].
  rewrite IH, Hsub. apply lswap_length.
Qed.

Lemma heapPermutations_length (k : nat) (l : list nat) :
  length (heapPermutations k l).2 = length l.
Proof.
  revert l. induction k as [|k IH]; intros l; [reflexivity |].
  cbn [heapPermutations snd]. rewrite heapLoop_length by assumption. apply IH.
Qed.

Lemma lookup_repeat {A : Type} (x : A) (n i : nat) :
  (i < n)%nat -> repeat x n !! i = Some x.
Proof.
  revert i. induction n as [|n IH]; intros i Hi; [lia |].
  destruct i as [|i]; [reflexivity |]. cbn. apply IH. lia.
Qed.

(** *** bruteForce runs Heap's algorithm *)

Lemma bfLoop_bfTrace (g : IGraph) (m : nat) (fuel : nat) (st : BFState) :
  bfLoop fuel g m st = (r ← bfTrace fuel g m st; Done r.1).
Proof.
  revert st. induction fuel as [|fuel IH]; intros st; [reflexivity |].
  cbn [bfLoop bfTrace].
  destruct (bfBody g m st) as [st' | |]; cbn [mbind outcome_bind]; try reflexivity.
  destruct (stackSlotIndex st' + 1 <=? m)%nat; [| reflexivity].
  rewrite IH. destruct (bfTrace fuel g m st') as [r | |]; reflexivity.
Qed.

Lemma bruteForce_bruteForceTrace (fuel : nat) (g : IGraph) :
  bruteForce fuel g = (r ← bruteForceTrace fuel g; Done r.1).
Proof.
  unfold bruteForce, bruteForceTrace. destruct (getVertexCount g) as [|m]; [reflexivity |].
  rewrite bfLoop_bfTrace.
  destruct (bfTrace fuel g m _) as [r | |]; reflexivity.
Qed.

Lemma bfBest_app (g : IGraph) (m : nat) (best : Z) (v1 v2 : list (list nat)) :
  bfBest g m best (v1 ++ v2) = bfBest g m (bfBest g m best v1) v2.
Proof. unfold bfBest. apply fold_left_app. Qed.

Lemma bfTrace_S (fuel : nat) (g : IGraph) (m : nat) (st st' : BFState) :
  bfBody g m st = Done st' ->
  bfTrace (S fuel) g m st =
  (r ← bfResume fuel g m st';
   Done (r.1, (if bfEvaluates st then [permutation st'] else []) ++ r.2)).
Proof.
  intros E. cbn [bfTrace]. rewrite E. cbn [mbind outcome_bind]. unfold bfResume.
  destruct (stackSlotIndex st' + 1 <=? m)%nat; [reflexivity |].
  cbn [mbind outcome_bind fst snd]. rewrite app_nil_r. reflexivity.
Qed.

(** The pass that swaps: the counter of the slot allows one more swap. *)
Lemma bfBody_swap (g : IGraph) (m K c : nat) (st : BFState) :
  stackSlotIndex st = K -> (c < K)%nat -> (K < m)%nat -> Z.of_nat m <= INT_MAX ->
  length (permutation st) = m -> length (stackCounters st) = m ->
  stackCounters st !! K = Some (Z.of_nat c + 1) ->
  bfEvaluates st = true /\
  bfBody g m st =
  Done {| permutation := lswap (permutation st) K (heapIndex K c);
          stackSlotIndex := 1;
          stackCounters := <[K := Z.of_nat c + 2]> (stackCounters st);
          bestPathTargetFunctionValue :=
            bfBest g m (bestPathTargetFunctionValue st)
                   [lswap (permutation st) K (heapIndex K c)] |}.
Proof.
  intros Hslot Hc HK Hm Hlp Hlc Hcnt. unfold bfEvaluates, bfBody. rewrite Hslot.
  rewrite Hcnt. apply vget_Done in Hcnt. rewrite Hcnt. cbn [mbind outcome_bind].
  destruct (Z.leb_spec (Z.of_nat c + 1) (Z.of_nat K)); [| lia].
  split; [reflexivity |].
  assert (Hidx : (if ((K + 1) mod 2 =? 1)%nat then Done 0%nat
                  else index_of (int_sub (Z.of_nat c + 1) 1)) = Done (heapIndex K c)).
  { unfold heapIndex. destruct ((K + 1) mod 2 =? 1)%nat; [reflexivity |].
    unfold int_sub. rewrite to_int_id by (unfold is_int, INT_MIN, INT_MAX in *; lia).
    unfold index_of. destruct (Z.leb_spec 0 (Z.of_nat c + 1 - 1)); [| lia].
    f_equal. lia. }
  rewrite Hidx. cbn [mbind outcome_bind].
  assert (Hi : (heapIndex K c < m)%nat).
  { rewrite heapIndex_parity. destruct (Nat.even K); lia. }
  unfold vswap, lswap.
  destruct (lookup_lt_is_Some_2 (permutation st) K ltac:(lia)) as [x Hx].
  destruct (lookup_lt_is_Some_2 (permutation st) (heapIndex K c) ltac:(lia)) as [y Hy].
  rewrite Hx, Hy. apply vget_Done in Hx, Hy. rewrite Hx, Hy. cbn [mbind outcome_bind].
  repeat (rewrite vset_Done by (rewrite ?length_insert; lia); cbn [mbind outcome_bind]).
  unfold int_add. rewrite to_int_id by (unfold is_int, INT_MIN, INT_MAX in *; lia).
  replace (Z.of_nat c + 1 + 1) with (Z.of_nat c + 2) by lia.
  reflexivity.
Qed.

(** The pass that carries: the counter of the slot is used up. *)
Lemma bfBody_carry (g : IGraph) (m K : nat) (st : BFState) :
  stackSlotIndex st = K ->
  stackCounters st !! K = Some (Z.of_nat K + 1) ->
  bfEvaluates st = false /\
  bfBody g m st =
  Done {| permutation := permutation st;
          stackSlotIndex := S K;
          stackCounters := <[K := 1]> (stackCounters st);
          bestPathTargetFunctionValue := bestPathTargetFunctionValue st |}.
Proof.
  intros Hslot Hcnt. unfold bfEvaluates, bfBody. rewrite Hslot.
  rewrite Hcnt. apply lookup_lt_Some in Hcnt as Hlt.
  apply vget_Done in Hcnt. rewrite Hcnt. cbn [mbind outcome_bind].
  destruct (Z.leb_spec (Z.of_nat K + 1) (Z.of_nat K)); [lia |].
  split; [reflexivity |].
  rewrite vset_Done by assumption. cbn [mbind outcome_bind].
  replace (K + 1)%nat with (S K) by lia. reflexivity.
Qed.

Lemma bfResume_bind (fuel : nat) (g : IGraph) (m : nat) (st : BFState) :
  bfResume fuel g m st = (r ← bfResume fuel g m st; Done (r.1, [] ++ r.2)).
Proof. destruct (bfResume fuel g m st) as [[v t] | |]; reflexivity. Qed.

Section Simulation.

Variable g : IGraph.
Variable m : nat.
Hypothesis Hm : Z.of_nat m <= INT_MAX.

(** What the lemmas below say of a state [st] reached with slot index [K]:
    the run continues as from the state [st'], after the evaluations
    [visited]. *)
Local Abbreviation continues fuel T st st' visited :=
  (bfResume (T + fuel) g m st =
   (r ← bfResume fuel g m st'; Done (r.1, visited ++ r.2))).

Lemma bfTrace_rounds (k : nat)
  (IH : forall st, stackSlotIndex st = 1%nat ->
     length (permutation st) = m -> length (stackCounters st) = m ->
     (forall j, (1 <= j <= k)%nat -> stackCounters st !! j = Some 1) ->
     (k < m)%nat ->
     forall fuel,
       continues fuel (heapSteps k) st
         {| permutation := (heapPermutations k (permutation st)).2;
            stackSlotIndex := S k;
            stackCounters := stackCounters st;
            bestPathTargetFunctionValue :=
              bfBest g m (bestPathTargetFunctionValue st)
                     (heapPermutations k (permutation st)).1 |}
         (heapPermutations k (permutation st)).1) :
  forall cnt c st,
    (c + cnt = S k)%nat -> stackSlotIndex st = S k -> (S k < m)%nat ->
    length (permutation st) = m -> length (stackCounters st) = m ->
    (forall j, (1 <= j <= k)%nat -> stackCounters st !! j = Some 1) ->
    stackCounters st !! S k = Some (Z.of_nat c + 1) ->
    forall fuel,
      continues fuel (cnt * S (heapSteps k) + 1)%nat st
        {| permutation := (heapLoop (heapPermutations k) (S k) c cnt (permutation st)).2;
           stackSlotIndex := S (S k);
           stackCounters := <[S k := 1]> (stackCounters st);
           bestPathTargetFunctionValue :=
             bfBest g m (bestPathTargetFunctionValue st)
                    (heapLoop (heapPermutations k) (S k) c cnt (permutation st)).1 |}
        (heapLoop (heapPermutations k) (S k) c cnt (permutation st)).1.
Proof using Hm.
  induction cnt as [|cnt IHc]; intros c st Hsum Hslot HK Hlp Hlc Hones Hcnt fuel.
  - assert (c = S k) by lia. subst c.
    destruct (bfBody_carry g m (S k) st Hslot Hcnt) as [Hev Hbody].
    cbn [Nat.mul Nat.add heapLoop fst snd].
    unfold bfResume at 1. rewrite Hslot.
    destruct (Nat.leb_spec (S k + 1) m); [| lia].
    rewrite (bfTrace_S fuel g m st _ Hbody), Hev. reflexivity.
  - destruct (bfBody_swap g m (S k) c st Hslot ltac:(lia) HK Hm Hlp Hlc Hcnt)
      as [Hev Hbody].
    set (l1 := lswap (permutation st) (S k) (heapIndex (S k) c)) in *.
    set (st1 := {| permutation := l1; stackSlotIndex := 1;
                   stackCounters := <[S k := Z.of_nat c + 2]> (stackCounters st);
                   bestPathTargetFunctionValue :=
                     bfBest g m (bestPathTargetFunctionValue st) [l1] |}) in *.
    replace (S cnt * S (heapSteps k) + 1 + fuel)%nat
      with (S (heapSteps k + (cnt * S (heapSteps k) + 1 + fuel)))%nat by lia.
    unfold bfResume at 1. rewrite Hslot.
    destruct (Nat.leb_spec (S k + 1) m); [| lia].
    rewrite (bfTrace_S _ g m st _ Hbody), Hev.
    assert (Hl1 : length l1 = m) by (unfold l1; rewrite lswap_length; assumption).
    rewrite (IH st1); cbn [st1 permutation stackSlotIndex stackCounters
                            bestPathTargetFunctionValue];
      [| reflexivity | assumption | rewrite length_insert; assumption | | lia].
    2: { intros j Hj. rewrite list_lookup_insert_ne by lia. apply Hones. assumption. }
    rewrite (IHc (S c)); cbn [permutation stackSlotIndex stackCounters
                               bestPathTargetFunctionValue];
      [| lia | reflexivity | assumption
       | rewrite heapPermutations_length; assumption
       | rewrite length_insert; assumption | |].
    2: { intros j Hj. rewrite list_lookup_insert_ne by lia. apply Hones. assumption. }
    2: { rewrite list_lookup_insert_eq by lia. f_equal. lia. }
    rewrite list_insert_insert_eq.
    cbn [heapLoop fst snd]. fold l1.
    rewrite <- !bfBest_app.
    destruct (bfResume fuel g m _) as [[v t] | |]; cbn [mbind outcome_bind fst snd];
      [| reflexivity | reflexivity].
    cbn [app]. rewrite <- ?app_assoc. reflexivity.
Qed.

Lemma bfTrace_heap (k : nat) :
  forall st, stackSlotIndex st = 1%nat ->
    length (permutation st) = m -> length (stackCounters st) = m ->
    (forall j, (1 <= j <= k)%nat -> stackCounters st !! j = Some 1) ->
    (k < m)%nat ->
    forall fuel,
      continues fuel (heapSteps k) st
        {| permutation := (heapPermutations k (permutation st)).2;
           stackSlotIndex := S k;
           stackCounters := stackCounters st;
           bestPathTargetFunctionValue :=
             bfBest g m (bestPathTargetFunctionValue st)
                    (heapPermutations k (permutation st)).1 |}
        (heapPermutations k (permutation st)).1.
Proof using Hm.
  induction k as [|k IH]; intros st Hslot Hlp Hlc Hones Hk fuel.
  - cbn [heapSteps heapPermutations fst snd Nat.add bfBest fold_left].
    destruct st as [p s cs b]. cbn in *. subst s. apply bfResume_bind.
  - cbn [heapSteps heapPermutations fst snd].
    replace (heapSteps k + S k * S (heapSteps k) + 1 + fuel)%nat
      with (heapSteps k + (S k * S (heapSteps k) + 1 + fuel))%nat by lia.
    rewrite (IH st Hslot Hlp Hlc) by (try lia; intros; apply Hones; lia).
    rewrite (bfTrace_rounds k IH (S k) 0);
      cbn [permutation stackSlotIndex stackCounters bestPathTargetFunctionValue];
      [| lia | reflexivity | assumption
       | rewrite heapPermutations_length; assumption
       | assumption
       | intros; apply Hones; lia
       | apply Hones; lia].
    rewrite (list_insert_id (stackCounters st)) by (apply Hones; lia).
    rewrite <- bfBest_app.
    destruct (bfResume fuel g m _) as [[v t] | |]; cbn [mbind outcome_bind fst snd];
      [| reflexivity | reflexivity].
    rewrite <- ?app_assoc. reflexivity.
Qed.

End Simulation.

(** *** bruteForce: every permutation once, and the minimum *)

Lemma heapLoop_count (sub : list nat -> list (list nat) * list nat) (k N : nat) :
  (forall l, length (sub l).1 = N) ->
  forall cnt c l, length (heapLoop sub k c cnt l).1 = (cnt * S N)%nat.
Proof.
  intros Hsub. induction cnt as [|cnt IH]; intros c l; cbn [heapLoop fst]; [reflexivity |].
  cbn [length]. rewrite length_app, IH, Hsub. lia.
Qed.

Lemma heapPermutations_count (k : nat) (l : list nat) :
  S (length (heapPermutations k l).1) = fact (S k).
Proof.
  revert l. induction k as [|k IH]; intros l; [reflexivity |].
  cbn [heapPermutations fst]. rewrite length_app.
  rewrite (heapLoop_count _ _ (fact (S k) - 1)).
  - specialize (IH l). pose proof (fact_neq_0 (S k)).
    change (fact (S (S k))) with (S (S k) * fact (S k))%nat. nia.
  - intros l'. specialize (IH l'). lia.
Qed.

Lemma bfBest_spec (g : IGraph) (m : nat) (visited : list (list nat)) (best : Z) :
  let cost := calculateTargetFunctionValue g m in
  (bfBest g m best visited = best \/
   exists p, In p visited /\ bfBest g m best visited = cost p) /\
  bfBest g m best visited <= best /\
  forall p, In p visited -> bfBest g m best visited <= cost p.
Proof.
  intros cost. revert best. induction visited as [|q visited IH]; intros best.
  - cbn. split; [auto |]. split; [lia | intros p []].
  - pose (b' := if calculateTargetFunctionValue g m q <? best
                then calculateTargetFunctionValue g m q else best).
    change (bfBest g m best (q :: visited)) with (bfBest g m b' visited).
    destruct (IH b') as (Hatt & Hle & Hall).
    assert (Hb' : b' <= best /\ b' <= cost q /\ (b' = best \/ b' = cost q)).
    { subst b' cost. destruct (Z.ltb_spec (calculateTargetFunctionValue g m q) best); lia. }
    split; [| split].
    + destruct Hatt as [E | (p & Hp & E)].
      * destruct Hb' as (_ & _ & [E' | E']); [left; lia |].
        right. exists q. split; [left; reflexivity | lia].
      * right. exists p. split; [right; assumption | assumption].
    + lia.
    + intros p [<- | Hp]; [lia | apply Hall; assumption].
Qed.

(** The run of [bruteForce] on a graph of [m + 1 >= 3] vertices. *)
Lemma bruteForceTrace_run (g : IGraph) (m fuel : nat) :
  getVertexCount g = S m -> (2 <= m)%nat -> Z.of_nat m <= INT_MAX ->
  bruteForceTrace (heapSteps (m - 1) + fuel) g =
  Done (bfBest g m (calculateTargetFunctionValue g m (seq 0 m))
               (heapPermutations (m - 1) (seq 0 m)).1,
        seq 0 m :: (heapPermutations (m - 1) (seq 0 m)).1).
Proof.
  intros Hn Hm2 Hm. unfold bruteForceTrace. rewrite Hn.
  set (st0 := {| permutation := seq 0 m; stackSlotIndex := 1;
                 stackCounters := repeat 1 m;
                 bestPathTargetFunctionValue :=
                   calculateTargetFunctionValue g m (seq 0 m) |}).
  assert (Hres : bfTrace (heapSteps (m - 1) + fuel) g m st0
                 = bfResume (heapSteps (m - 1) + fuel) g m st0).
  { unfold bfResume. cbn [st0 stackSlotIndex].
    destruct (Nat.leb_spec (1 + 1) m); [reflexivity | lia]. }
  rewrite Hres.
  rewrite (bfTrace_heap g m Hm (m - 1) st0);
    cbn [st0 permutation stackSlotIndex stackCounters bestPathTargetFunctionValue];
    [| reflexivity | apply length_seq | apply repeat_length | | lia].
  2: { intros j Hj. apply lookup_repeat. lia. }
  unfold bfResume. cbn [stackSlotIndex].
  destruct (Nat.leb_spec (S (m - 1) + 1) m); [lia |].
  cbn [mbind outcome_bind fst snd]. rewrite app_nil_r. reflexivity.
Qed.

Lemma heapPermutations_tours (g : IGraph) (m : nat) :
  getVertexCount g = S m -> (1 <= m)%nat ->
  NoDup (seq 0 m :: (heapPermutations (m - 1) (seq 0 m)).1) /\
  forall perm, In perm (seq 0 m :: (heapPermutations (m - 1) (seq 0 m)).1) <->
               is_tour g perm.
Proof.
  intros Hn Hm.
  destruct (heapPermutations_spec (m - 1) (seq 0 m)) as (_ & _ & Hnd & Hin).
  { rewrite length_seq. lia. }
  { apply NoDup_seq. }
  split; [assumption |]. intros perm. rewrite Hin. unfold is_tour. rewrite Hn.
  replace (S m - 1)%nat with m by lia.
  split; [intros [Hp _]; assumption |]. intros Hp. split; [assumption |].
  apply Permutation_length in Hp as Hl. rewrite length_seq in Hl.
  rewrite !drop_ge; [reflexivity | rewrite length_seq; lia | lia].
Qed.

(** The run of [bruteForce] on a graph of at least three vertices, once the
    fuel covers [heapSteps (n - 2)] passes of its loop. The permutations on
    which it calls [calculateTargetFunctionValue], the natural one first,
    are pairwise distinct, they are exactly the orderings of the
    non-origin vertices, there are [(n - 1)!] of them, and the value
    returned is the least of their values. *)
Lemma bruteForce_run (g : IGraph) (fuel : nat) :
  (3 <= getVertexCount g)%nat -> Z.of_nat (getVertexCount g) <= INT_MAX ->
  (heapSteps (getVertexCount g - 2) <= fuel)%nat ->
  exists v visited,
    bruteForceTrace fuel g = Done (v, visited) /\
    bruteForce fuel g = Done v /\
    (exists rest, visited = seq 0 (getVertexCount g - 1) :: rest) /\
    NoDup visited /\
    (forall perm, In perm visited <-> is_tour g perm) /\
    length visited = fact (getVertexCount g - 1) /\
    (exists perm, In perm visited /\
       v = calculateTargetFunctionValue g (getVertexCount g - 1) perm) /\
    (forall perm, In perm visited ->
       v <= calculateTargetFunctionValue g (getVertexCount g - 1) perm).
Proof.
  intros Hn Hint Hfuel.
  destruct (getVertexCount g) as [|m] eqn:En; [lia |].
  replace (S m - 1)%nat with m by lia. replace (S m - 2)%nat with (m - 1)%nat in Hfuel by lia.
  pose proof (bruteForceTrace_run g m (fuel - heapSteps (m - 1)) En ltac:(lia) ltac:(lia))
    as Hrun.
  replace (heapSteps (m - 1) + (fuel - heapSteps (m - 1)))%nat with fuel in Hrun by lia.
  destruct (heapPermutations_tours g m En ltac:(lia)) as [Hnd Hin].
  destruct (bfBest_spec g m (heapPermutations (m - 1) (seq 0 m)).1
              (calculateTargetFunctionValue g m (seq 0 m))) as (Hatt & Hle & Hall).
  eexists _, _. split; [exact Hrun |].
  split; [rewrite bruteForce_bruteForceTrace, Hrun; reflexivity |].
  split; [eexists; reflexivity |]. split; [assumption |].
  split; [assumption |].
  split; [cbn [length]; rewrite heapPermutations_count; f_equal; lia |].
  split.
  - destruct Hatt as [E | (p & Hp & E)].
    + exists (seq 0 m). split; [left; reflexivity | assumption].
    + exists p. split; [right; assumption | assumption].
  - intros perm [<- | Hp]; [assumption | apply Hall; assumption].
Qed.

(** X11. On a graph of at least three vertices [bruteForce] returns once the
    fuel covers [heapSteps (n - 2)] passes of its loop. The permutations on
    which it calls [calculateTargetFunctionValue], the natural one first,
    are pairwise distinct, they are exactly the orderings of the
    non-origin vertices, there are [(n - 1)!] of them, and the value
    returned is the least of their values. *)
Theorem bruteForce_evaluates_each_permutation_once (g : IGraph) (fuel : nat) :
  (3 <= getVertexCount g)%nat -> Z.of_nat (getVertexCount g) <= INT_MAX ->
  (heapSteps (getVertexCount g - 2) <= fuel)%nat ->
  exists v visited,
    bruteForceTrace fuel g = Done (v, visited) /\
    bruteForce fuel g = Done v /\
    (exists rest, visited = seq 0 (getVertexCount g - 1) :: rest) /\
    NoDup visited /\
    (forall perm, In perm visited <-> is_tour g perm) /\
    length visited = fact (getVertexCount g - 1) /\
    (exists perm, In perm visited /\
       v = calculateTargetFunctionValue g (getVertexCount g - 1) perm) /\
    (forall perm, In perm visited ->
       v <= calculateTargetFunctionValue g (getVertexCount g - 1) perm).
Proof. exact (bruteForce_run g fuel). Qed.

(** X11 on the scenario: six permutations, in nine passes of the loop. *)
Lemma bruteForce_evaluates_each_permutation_once_witness :
  (3 <= getVertexCount scenario)%nat /\
  exists v visited,
    bruteForceTrace 9 scenario = Done (v, visited) /\
    bruteForce 9 scenario = Done v /\
    NoDup visited /\
    (forall perm, In perm visited <-> is_tour scenario perm) /\
    length visited = 6%nat.
Proof.
  split; [simpl; lia |].
  destruct (bruteForce_evaluates_each_permutation_once scenario 9)
    as (v & visited & E & E' & _ & Hnd & Hin & Hlen & _).
  - simpl. lia.
  - vm_compute. discriminate.
  - simpl. lia.
  - exists v, visited. do 4 (split; [assumption |]). exact Hlen.
Defined.

(** On a well-formed instance of at least three vertices whose costs fit,
    the value that [bruteForce] returns is the minimum Hamiltonian cycle
    cost. *)
Lemma bruteForce_optimum (g : IGraph) (fuel : nat) :
  well_formed g -> cost_fits g ->
  (3 <= getVertexCount g)%nat -> Z.of_nat (getVertexCount g) <= INT_MAX ->
  (heapSteps (getVertexCount g - 2) <= fuel)%nat ->
  exists v, bruteForce fuel g = Done v /\ is_optimum g v.
Proof.
  intros Hwf [W Hbound] Hn Hint Hfuel.
  destruct (bruteForce_run g fuel Hn Hint Hfuel)
    as (v & visited & _ & Hrun & _ & _ & Hin & _ & (p & Hp & Hv) & Hall).
  assert (Hcost : forall perm, is_tour g perm ->
    calculateTargetFunctionValue g (getVertexCount g - 1) perm = tour_cost g perm).
  { intros perm Hperm. unfold calculateTargetFunctionValue.
    apply Permutation_length in Hperm as Hl. rewrite length_seq in Hl.
    rewrite take_ge by lia. apply to_int_id.
    pose proof (tour_cost_bounds g W perm Hwf Hbound Hperm).
    unfold is_int, INT_MIN, INT_MAX in *. lia. }
  exists v. split; [assumption |]. split.
  - exists p. split; [apply Hin; assumption |]. rewrite Hv. symmetry.
    apply Hcost, Hin. assumption.
  - intros perm Hperm. rewrite <- (Hcost perm Hperm). apply Hall, Hin. assumption.
Qed.

(** X12. On a well-formed instance of at least three vertices whose costs
    fit, [bruteForce] returns the minimum Hamiltonian cycle cost, with any
    fuel of at least [heapSteps (n - 2)]. *)
Theorem bruteForce_optimal (g : IGraph) (fuel : nat) :
  well_formed g -> cost_fits g ->
  (3 <= getVertexCount g)%nat -> Z.of_nat (getVertexCount g) <= INT_MAX ->
  (heapSteps (getVertexCount g - 2) <= fuel)%nat ->
  exists v, bruteForce fuel g = Done v /\ is_optimum g v.
Proof. exact (bruteForce_optimum g fuel). Qed.

(** X12 on the scenario. *)
Lemma bruteForce_optimal_witness :
  well_formed scenario /\ cost_fits scenario /\
  exists v, bruteForce 9 scenario = Done v /\ is_optimum scenario v.
Proof.
  split; [exact scenario_well_formed |].
  split; [exists 35; exact scenario_bounded |].
  apply (bruteForce_optimal scenario 9 scenario_well_formed
           (ex_intro _ 35 scenario_bounded)).
  - simpl. lia.
  - vm_compute. discriminate.
  - simpl. lia.
Defined.

(** X13. On a well-formed instance of 3 to 32 vertices whose costs fit,
    [bruteForce] and [dynamicProgrammingHeldKarp] return the same value. *)
Theorem bruteForce_agrees_with_heldKarp (g : IGraph) (fuel fuel' : nat) :
  well_formed g -> cost_fits g ->
  (3 <= getVertexCount g <= 32)%nat ->
  (heapSteps (getVertexCount g - 2) <= fuel)%nat ->
  (getVertexCount g - 1 <= fuel')%nat ->
  exists v, bruteForce fuel g = Done v /\ dynamicProgrammingHeldKarp fuel' g = Done v.
Proof.
  intros Hwf Hfits [Hn Hsize] Hfuel Hfuel'.
  destruct (bruteForce_optimum g fuel Hwf Hfits Hn) as (v & E & (p & Hp & Hv) & Hlow).
  { unfold INT_MAX. lia. }
  { assumption. }
  destruct Hfits as [W Hbound].
  destruct (heldKarpRun_spec g W fuel' Hwf Hbound Hsize Hfuel') as (st & Erun & _).
  pose proof (heldKarp_answer_optimum g (proj1 Hwf)) as [(q & Hq & Hans) Hlow'].
  exists v. split; [assumption |].
  unfold dynamicProgrammingHeldKarp. rewrite Erun. cbn [mbind outcome_bind fst].
  f_equal. specialize (Hlow' p Hp). specialize (Hlow q Hq). lia.
Qed.

(** X13 on the scenario. *)
Lemma bruteForce_agrees_with_heldKarp_witness :
  well_formed scenario /\ cost_fits scenario /\
  exists v, bruteForce 9 scenario = Done v /\ dynamicProgrammingHeldKarp 3 scenario = Done v.
Proof.
  split; [exact scenario_well_formed |].
  split; [exists 35; exact scenario_bounded |].
  apply (bruteForce_agrees_with_heldKarp scenario 9 3 scenario_well_formed
           (ex_intro _ 35 scenario_bounded)); simpl; lia.
Defined.

(** *** Graphs of one vertex *)

(** X14. On a graph of one vertex [dynamicProgrammingHeldKarp] runs no loop
    body and returns [INT_MAX], whatever the fuel, and the first pass of
    the loop of [bruteForce] reads [stackCounters[1]] of an empty vector. *)
Theorem single_vertex_solvers :
  forall (w : nat -> nat -> Z) (fuel : nat),
    dynamicProgrammingHeldKarp fuel {| getVertexCount := 1; getEdgeParameter := w |}
    = Done INT_MAX /\
    bruteForce (S fuel) {| getVertexCount := 1; getEdgeParameter := w |} = Undefined.
Proof. intros w fuel. split; reflexivity. Qed.

(** *** branchAndBound on two vertices *)

(** The search loop on copies of one node that is below the incumbent and
    whose pass leaves the incumbent as it is. *)
Lemma bbLoop_diverges_fixed (n : nat) (x : BBNodeData) (ub : Z) :
  lowerBound x < ub ->
  match bbIncumbentUpdate n x with Some c => c | None => ub end = ub ->
  forall fuel k, bbLoop fuel n {| leafs := repeat x (S k); upperBound := ub |} = Timeout.
Proof.
  intros Hlt Hup. induction fuel as [|fuel IH]; intros k; [reflexivity |].
  cbn [bbLoop]. rewrite bbIteration_repeat by assumption.
  cbn [mbind outcome_bind]. rewrite Hup. apply IH.
Qed.

(** X15. On a graph of two vertices whose root lower bound is below the
    cost of the natural tour, the first pass of the loop assigns the value
    0 of [bbGetCycleCost] to the incumbent: no edge is fixed, and
    [instanceSize - 2] is 0. [branchAndBound] then returns 0 when the root
    bound is not negative, and never returns when it is. *)
Theorem branchAndBound_two_vertices (g : IGraph) (root : BBNodeData) :
  getVertexCount g = 2%nat -> bbRootNode g = Done root ->
  lowerBound root < calculateTargetFunctionValueAll g (seq 0 (getVertexCount g)) ->
  (0 <= lowerBound root -> forall fuel, branchAndBound (S (S fuel)) g = Done 0) /\
  (lowerBound root < 0 -> forall fuel, branchAndBound fuel g = Timeout).
Proof.
  intros Hn Eroot Hlt.
  assert (Hup : bbIncumbentUpdate 2 root = Some 0).
  { unfold bbIncumbentUpdate. rewrite (bbRootNode_edgesOnPath g root Eroot). reflexivity. }
  assert (Hfirst : forall fuel, branchAndBound (S fuel) g =
    bbLoop fuel 2 {| leafs := repeat root 2; upperBound := 0 |}).
  { intros fuel. unfold branchAndBound, bbInitialState. rewrite Eroot, Hn.
    cbn [mbind outcome_bind bbLoop]. rewrite Hn in Hlt.
    change (pq_push [] root) with (repeat root 1).
    rewrite bbIteration_repeat by assumption. cbn [mbind outcome_bind].
    rewrite Hup. reflexivity. }
  split.
  - intros Hpos fuel. rewrite Hfirst. cbn [bbLoop]. unfold bbIteration.
    cbn [leafs upperBound]. rewrite pq_top_repeat. cbn [mbind outcome_bind].
    destruct (Z.ltb_spec (lowerBound root) 0); [lia | reflexivity].
  - intros Hneg [|fuel]; [unfold branchAndBound, bbInitialState; rewrite Eroot; reflexivity |].
    rewrite Hfirst. apply bbLoop_diverges_fixed; [assumption |]. rewrite Hup. reflexivity.
Qed.

(** X15 on [two_cities], where the root bound is 0, and on
    [two_cities_marked], where it is -2. *)
Lemma branchAndBound_two_vertices_witness :
  (forall fuel, branchAndBound (S (S fuel)) two_cities = Done 0) /\
  (forall fuel, branchAndBound fuel two_cities_marked = Timeout).
Proof.
  split.
  - destruct (bbRootNode two_cities) as [root | |] eqn:E;
      [| vm_compute in E; discriminate | vm_compute in E; discriminate].
    apply (branchAndBound_two_vertices two_cities root eq_refl E);
      vm_compute in E; inversion E; vm_compute; [reflexivity | discriminate].
  - destruct (bbRootNode two_cities_marked) as [root | |] eqn:E;
      [| vm_compute in E; discriminate | vm_compute in E; discriminate].
    apply (branchAndBound_two_vertices two_cities_marked root eq_refl E);
      vm_compute in E; inversion E; vm_compute; reflexivity.
Defined.
